(** * A reactive-dependency engine, script by script

    The repository holds one small script per lesson: [day-2/app.js]
    (effects that run at once), [day-4/app.js] (scheduler,
    [watchEffect], [computed]), [day-6/app.js] ([readonly]),
    [day-7/app.js] (refs unwrapped inside reactive objects, arrays) and
    an unnamed script, [part_000], which holds the scheduler with
    [watchEffect] and [ref] only.  The scripts share most of their
    text; where they differ the embedding branches on the script, so
    that every definition below can be read against each of them.

    - Objects live in a heap and are named by their address; a [Proxy]
      is a value with an identity of its own and a fixed target.
      Objects have no prototype: a property that an object does not own
      reads as [undefined], and so does every property of a number, a
      string or a boolean.
    - The [Map]s and [Set]s of the engine are iterated in insertion
      order, so they are association lists and duplicate-free lists.
    - The global variables of a script are the fields of [State]; a
      function of the script is a function on states, or a computation
      in the monad [M] when it can raise, call a closure or read
      through a proxy.
    - Closures supplied by the caller (effect bodies, cleanups, getters,
      event handlers) are programs over the operations of the engine.
    - Reads, writes and calls nest without bound, so the interpreter is
      cut at a depth; a statement at depth [d + n], for every [n], says
      that depth [d] is enough.
    - Not embedded: the demos and the DOM; the helpers [shallowRef],
      [toRef] and [toRefs] of day-6; [try] and [catch] in the closures
      of the caller; and, where a value written to the [length] of an
      array has to be converted to a number, the conversion of an
      object and of a string that is not a plain string of decimal
      digits: there the embedding gives no answer. *)

From Stdlib Require Import List ZArith String Ascii Bool Lia PeanoNat Sorted.
Import ListNotations.
Local Open Scope string_scope.
Local Open Scope list_scope.

Set Implicit Arguments.

(** ** Scripts *)

Inductive file : Type := Day2 | Day4 | Day6 | Day7 | Part0.

(** ** Values *)

(** A property key.  [KIdx i] stands for the canonical numeric string of
    [i] (an array index when [i] is below [2^32 - 1]); every other
    string is a [KName]. *)
Inductive key : Type :=
| KName (s : string)
| KIdx (i : nat).

Definition key_eqb (a b : key) : bool :=
  match a, b with
  | KName s, KName t => String.eqb s t
  | KIdx i, KIdx j => Nat.eqb i j
  | _, _ => false
  end.

Definition k_value : key := KName "value".
Definition k_length : key := KName "length".
Definition k_isRef : key := KName "__v_isRef".

Inductive proxy_kind : Type := Reactive | Readonly.

Inductive value : Type :=
| VUndef
| VNull
| VBool (b : bool)
| VNum (n : Z)
| VStr (s : string)
| VObj (a : nat)
| VProxy (id : nat) (kind : proxy_kind) (target : value).

(** Identity of an object, as a [Map] key sees it. *)
Inductive objid : Type :=
| OAddr (a : nat)
| OProxy (id : nat).

Definition objid_eqb (a b : objid) : bool :=
  match a, b with
  | OAddr x, OAddr y => Nat.eqb x y
  | OProxy x, OProxy y => Nat.eqb x y
  | _, _ => false
  end.

Definition identity (v : value) : option objid :=
  match v with
  | VObj a => Some (OAddr a)
  | VProxy id _ _ => Some (OProxy id)
  | _ => None
  end.

(** [a === b]; objects and proxies compare by identity. *)
Definition strict_eq (a b : value) : bool :=
  match a, b with
  | VUndef, VUndef => true
  | VNull, VNull => true
  | VBool x, VBool y => Bool.eqb x y
  | VNum x, VNum y => Z.eqb x y
  | VStr x, VStr y => String.eqb x y
  | VObj x, VObj y => Nat.eqb x y
  | VProxy x _ _, VProxy y _ _ => Nat.eqb x y
  | _, _ => false
  end.

Definition truthy (v : value) : bool :=
  match v with
  | VUndef | VNull => false
  | VBool b => b
  | VNum n => negb (Z.eqb n 0)
  | VStr s => negb (String.eqb s EmptyString)
  | VObj _ | VProxy _ _ _ => true
  end.

(** [val !== null && typeof val === 'object'] *)
Definition isObject (v : value) : bool :=
  match v with
  | VObj _ | VProxy _ _ _ => true
  | _ => false
  end.

(** ** Functions of the engine *)

(** The function objects that end up in the dependency graph and in the
    job queue: the [wrappedEffect] closure of one [watchEffect] call (in
    day-2, the closure made by [effect]) and the [computedEffect]
    closure of one [computed] call. *)
Inductive job : Type :=
| Wrapped (e : nat)
| ComputedEffect (c : nat).

Definition job_eqb (a b : job) : bool :=
  match a, b with
  | Wrapped x, Wrapped y => Nat.eqb x y
  | ComputedEffect x, ComputedEffect y => Nat.eqb x y
  | _, _ => false
  end.

(** ** Programs: the closures a caller hands to the engine

    A program is the body of a closure: it returns or raises, or makes
    one call and goes on with its result.  [GetP o k], [SetP o k v] and
    [DeleteP o k] are [o[k]], [o[k] = v] and [delete o[k]];
    [NewObject] and [NewArray] are literals; the [Call]s are the
    functions of the script.  [CallWatchEffect body] hands the body the
    capability to register a cleanup, which is the number of the new
    effect, and returns the [stop] closure, which is that number too;
    [RegisterCleanup e fn] is the call [registerCleanup(fn)] of effect
    [e].  [Log v] appends to an array of the caller's that the engine
    never sees. *)
Inductive prog : Type :=
| Ret (v : value)
| Raise (err : string)
| GetP (o : value) (k : key) (cont : value -> prog)
| SetP (o : value) (k : key) (v : value) (cont : prog)
| DeleteP (o : value) (k : key) (cont : prog)
| NewObject (props : list (key * value)) (cont : value -> prog)
| NewArray (elems : list value) (cont : value -> prog)
| CallRef (v : value) (cont : value -> prog)
| CallReactive (v : value) (cont : value -> prog)
| CallReadonly (v : value) (cont : value -> prog)
| CallComputed (getter : prog) (cont : value -> prog)
| CallWatchEffect (body : nat -> prog) (cont : nat -> prog)
| CallStop (e : nat) (cont : prog)
| RegisterCleanup (e : nat) (fn : prog) (cont : prog)
| CallEffect (body : prog) (cont : prog)
| Log (v : value) (cont : prog).

(** ** The heap *)

(** A property of a heap object: a data property, or one of the two
    accessor properties the scripts define.  [RefAccessor v] is the
    [value] of a [ref] object of day-2, day-4, day-6 and part_000, [v]
    being the variable its getter and setter close over;
    [ComputedAccessor c] is the getter-only [value] of the [c]-th
    [computedRef]. *)
Inductive slot : Type :=
| Data (v : value)
| RefAccessor (v : value)
| ComputedAccessor (c : nat).

(** An object; [arr_length] is the [length] of an array and is absent
    in any other object. *)
Record obj : Type := mkObj {
  props : list (key * slot);
  arr_length : option nat
}.

(** Closure variables of one [watchEffect] call. *)
Record effect_rec : Type := mkEffect {
  e_body : nat -> prog;
  e_cleanup : option prog
}.

(** Closure variables of one [computed] call; [c_self] is the address of
    [computedRef]. *)
Record computed_rec : Type := mkComputed {
  c_getter : prog;
  c_value : value;
  c_dirty : bool;
  c_self : nat
}.

(** A call of a caller's closure, recorded where the engine makes it:
    [effect(registerCleanup)], [cleanup()] and [getter()].  The record
    is there to state how often a closure is called; the engine never
    reads it. *)
Inductive call : Type :=
| CBody (e : nat)
| CCleanup (e : nat)
| CGetter (c : nat).

Definition call_eqb (a b : call) : bool :=
  match a, b with
  | CBody x, CBody y => Nat.eqb x y
  | CCleanup x, CCleanup y => Nat.eqb x y
  | CGetter x, CGetter y => Nat.eqb x y
  | _, _ => false
  end.

Definition depsMap_t : Type := list (key * list job).

(** The globals of a script ([activeEffect], [effectStack],
    [targetMap], [queue], [isFlushPending]), the heap with the closure
    variables of the effects and computed cells made so far, the
    microtask queue, and what the outside sees: the console, the
    caller's log and the record of calls. *)
Record State : Type := mkState {
  heap : list obj;
  proxies : nat;
  effects : list effect_rec;
  computeds : list computed_rec;
  activeEffect : option job;
  effectStack : list job;
  targetMap : list (objid * depsMap_t);
  queue : list (option job);
  isFlushPending : bool;
  microtasks : nat;
  console : list string;
  output : list value;
  calls : list call
}.

Definition initial : State :=
  mkState [] 0 [] [] None [] [] [] false 0 [] [] [].

Definition set_heap (h : list obj) (s : State) : State :=
  mkState h (proxies s) (effects s) (computeds s) (activeEffect s)
    (effectStack s) (targetMap s) (queue s) (isFlushPending s)
    (microtasks s) (console s) (output s) (calls s).

Definition set_proxies (n : nat) (s : State) : State :=
  mkState (heap s) n (effects s) (computeds s) (activeEffect s)
    (effectStack s) (targetMap s) (queue s) (isFlushPending s)
    (microtasks s) (console s) (output s) (calls s).

Definition set_effects (l : list effect_rec) (s : State) : State :=
  mkState (heap s) (proxies s) l (computeds s) (activeEffect s)
    (effectStack s) (targetMap s) (queue s) (isFlushPending s)
    (microtasks s) (console s) (output s) (calls s).

Definition set_computeds (l : list computed_rec) (s : State) : State :=
  mkState (heap s) (proxies s) (effects s) l (activeEffect s)
    (effectStack s) (targetMap s) (queue s) (isFlushPending s)
    (microtasks s) (console s) (output s) (calls s).

Definition set_activeEffect (a : option job) (s : State) : State :=
  mkState (heap s) (proxies s) (effects s) (computeds s) a
    (effectStack s) (targetMap s) (queue s) (isFlushPending s)
    (microtasks s) (console s) (output s) (calls s).

Definition set_effectStack (l : list job) (s : State) : State :=
  mkState (heap s) (proxies s) (effects s) (computeds s) (activeEffect s)
    l (targetMap s) (queue s) (isFlushPending s)
    (microtasks s) (console s) (output s) (calls s).

Definition set_targetMap (m : list (objid * depsMap_t)) (s : State) : State :=
  mkState (heap s) (proxies s) (effects s) (computeds s) (activeEffect s)
    (effectStack s) m (queue s) (isFlushPending s)
    (microtasks s) (console s) (output s) (calls s).

Definition set_queue (q : list (option job)) (s : State) : State :=
  mkState (heap s) (proxies s) (effects s) (computeds s) (activeEffect s)
    (effectStack s) (targetMap s) q (isFlushPending s)
    (microtasks s) (console s) (output s) (calls s).

Definition set_isFlushPending (b : bool) (s : State) : State :=
  mkState (heap s) (proxies s) (effects s) (computeds s) (activeEffect s)
    (effectStack s) (targetMap s) (queue s) b
    (microtasks s) (console s) (output s) (calls s).

Definition set_microtasks (n : nat) (s : State) : State :=
  mkState (heap s) (proxies s) (effects s) (computeds s) (activeEffect s)
    (effectStack s) (targetMap s) (queue s) (isFlushPending s)
    n (console s) (output s) (calls s).

Definition set_console (l : list string) (s : State) : State :=
  mkState (heap s) (proxies s) (effects s) (computeds s) (activeEffect s)
    (effectStack s) (targetMap s) (queue s) (isFlushPending s)
    (microtasks s) l (output s) (calls s).

Definition set_output (l : list value) (s : State) : State :=
  mkState (heap s) (proxies s) (effects s) (computeds s) (activeEffect s)
    (effectStack s) (targetMap s) (queue s) (isFlushPending s)
    (microtasks s) (console s) l (calls s).

Definition set_calls (l : list call) (s : State) : State :=
  mkState (heap s) (proxies s) (effects s) (computeds s) (activeEffect s)
    (effectStack s) (targetMap s) (queue s) (isFlushPending s)
    (microtasks s) (console s) (output s) l.

Definition record (c : call) (s : State) : State :=
  set_calls (calls s ++ [c]) s.

Definition count_calls (c : call) (s : State) : nat :=
  List.length (filter (call_eqb c) (calls s)).

(** ** Insertion-ordered maps and sets *)

Section Alist.
Variables K V : Type.
Variable eqb : K -> K -> bool.

Fixpoint alist_get (k : K) (l : list (K * V)) : option V :=
  match l with
  | [] => None
  | (k', v) :: r => if eqb k k' then Some v else alist_get k r
  end.

(** [Map.prototype.set]: an existing key keeps its place, a new one
    goes last. *)
Fixpoint alist_set (k : K) (v : V) (l : list (K * V)) : list (K * V) :=
  match l with
  | [] => [(k, v)]
  | (k', v') :: r =>
      if eqb k k' then (k, v) :: r else (k', v') :: alist_set k v r
  end.

Definition alist_remove (k : K) (l : list (K * V)) : list (K * V) :=
  filter (fun kv => negb (eqb k (fst kv))) l.
End Alist.

Definition dep_has (j : job) (dep : list job) : bool :=
  existsb (job_eqb j) dep.

(** [Set.prototype.add] *)
Definition dep_add (j : job) (dep : list job) : list job :=
  if dep_has j dep then dep else dep ++ [j].

(** [Set.prototype.delete] *)
Definition dep_delete (j : job) (dep : list job) : list job :=
  filter (fun x => negb (job_eqb j x)) dep.

(** The job queue is a [Set] that [flushJobs] iterates while jobs add to
    it and [stop] deletes from it.  As in the language's definition of
    [Set], a deleted entry leaves a hole ([None]) behind so that the
    positions of the others stay put, and a new entry goes last. *)
Definition is_job (j : job) (e : option job) : bool :=
  match e with
  | Some x => job_eqb j x
  | None => false
  end.

Definition queue_has (j : job) (q : list (option job)) : bool :=
  existsb (is_job j) q.

Definition queue_add (j : job) (q : list (option job)) : list (option job) :=
  if queue_has j q then q else q ++ [Some j].

Definition queue_delete (j : job) (q : list (option job)) : list (option job) :=
  map (fun e => if is_job j e then None else e) q.

(** The jobs of a queue, holes left out. *)
Fixpoint pending (q : list (option job)) : list job :=
  match q with
  | [] => []
  | Some j :: r => j :: pending r
  | None :: r => pending r
  end.

(** ** Scheduler: queueJob *)

(** [Promise.resolve().then(flushJobs)] puts one call of [flushJobs] on
    the microtask queue; [microtasks] counts the calls waiting there. *)
Definition queueJob (j : job) (s : State) : State :=
  let s1 := set_queue (queue_add j (queue s)) s in
  if isFlushPending s1 then s1
  else set_microtasks (S (microtasks s1)) (set_isFlushPending true s1).

(** ** Dependency graph: track, trigger, removeEffect *)

(** The subscribers of key [k] of target [t]; none when the graph has
    no entry for them. *)
Definition deps_of (t : objid) (k : key) (s : State) : list job :=
  match alist_get objid_eqb t (targetMap s) with
  | None => []
  | Some depsMap =>
      match alist_get key_eqb k depsMap with
      | None => []
      | Some dep => dep
      end
  end.

(** The same text in every script. *)
Definition track (t : objid) (k : key) (s : State) : State :=
  match activeEffect s with
  | None => s
  | Some e =>
      let depsMap :=
        match alist_get objid_eqb t (targetMap s) with
        | Some m => m
        | None => []
        end in
      let dep :=
        match alist_get key_eqb k depsMap with
        | Some d => d
        | None => []
        end in
      set_targetMap
        (alist_set objid_eqb t
           (alist_set key_eqb k (dep_add e dep) depsMap) (targetMap s)) s
  end.

(** [trigger] of every script but day-2: each subscriber goes to
    [queueJob]. *)
Definition trigger (t : objid) (k : key) (s : State) : State :=
  match alist_get objid_eqb t (targetMap s) with
  | None => s
  | Some depsMap =>
      match alist_get key_eqb k depsMap with
      | None => s
      | Some dep => fold_left (fun s' e => queueJob e s') dep s
      end
  end.

(** The inner loop of [removeEffect]: [w] is deleted from every set that
    has it, and a set left empty goes with its key. *)
Definition remove_from_depsMap (w : job) (m : depsMap_t) : depsMap_t :=
  flat_map
    (fun kd : key * list job =>
       let (k, dep) := kd in
       if dep_has w dep then
         match dep_delete w dep with
         | [] => []
         | d => [(k, d)]
         end
       else [(k, dep)]) m.

(** part_000, day-4, day-6.  A target left without keys goes too. *)
Definition removeEffect (w : job) (s : State) : State :=
  set_targetMap
    (flat_map
       (fun td : objid * depsMap_t =>
          let (t, m) := td in
          match remove_from_depsMap w m with
          | [] => []
          | m' => [(t, m')]
          end) (targetMap s)) s.

(** ** Effect context *)

(** day-4, day-6, day-7.  [popEffect] leaves [activeEffect] undefined
    when the stack is empty. *)
Definition pushEffect (e : job) (s : State) : State :=
  set_activeEffect (Some e) (set_effectStack (effectStack s ++ [e]) s).

Definition popEffect (s : State) : State :=
  let st := removelast (effectStack s) in
  set_activeEffect (last (map Some st) None) (set_effectStack st s).

(** ** Outcomes and the state monad of the engine *)

(** A computation returns, raises, or gives no answer: the depth has run
    out, or the script asks for a conversion that is not embedded. *)
Inductive outcome (A : Type) : Type :=
| Ok (a : A) (s : State)
| Throw (err : string) (s : State)
| Timeout.

Arguments Throw {A} err s.
Arguments Timeout {A}.

Definition M (A : Type) : Type := State -> outcome A.

Definition ret {A : Type} (a : A) : M A := fun s => Ok a s.

Definition bind {A B : Type} (m : M A) (k : A -> M B) : M B :=
  fun s =>
    match m s with
    | Ok a s' => k a s'
    | Throw e s' => Throw e s'
    | Timeout => Timeout
    end.

Definition modify (f : State -> State) : M unit := fun s => Ok tt (f s).

Definition gets {A : Type} (f : State -> A) : M A := fun s => Ok (f s) s.

Definition throw {A : Type} (e : string) : M A := fun s => Throw e s.

Definition timeout {A : Type} : M A := fun _ => Timeout.

(** Where the script leaves what is embedded. *)
Definition unconverted {A : Type} : M A := fun _ => Timeout.

(** [try { m } finally { h }] *)
Definition finally {A : Type} (m : M A) (h : State -> State) : M A :=
  fun s =>
    match m s with
    | Ok a s' => Ok a (h s')
    | Throw e s' => Throw e (h s')
    | Timeout => Timeout
    end.

Declare Scope engine_scope.
Delimit Scope engine_scope with engine.
Notation "x <- m ;; k" := (bind m (fun x => k))
  (at level 61, m at next level, right associativity) : engine_scope.
Notation "m ;; k" := (bind m (fun _ => k))
  (at level 61, right associativity) : engine_scope.
Local Open Scope engine_scope.

(** ** Heap access *)

Fixpoint list_update {A : Type} (i : nat) (x : A) (l : list A) : list A :=
  match l, i with
  | [], _ => []
  | _ :: r, 0 => x :: r
  | y :: r, S i' => y :: list_update i' x r
  end.

Definition heap_get (a : nat) (s : State) : option obj := nth_error (heap s) a.

Definition heap_set (a : nat) (o : obj) (s : State) : State :=
  set_heap (list_update a o (heap s)) s.

Definition alloc (o : obj) : M value :=
  fun s => Ok (VObj (List.length (heap s))) (set_heap (heap s ++ [o]) s).

(** [new Proxy(target, handler)] *)
Definition new_proxy (kind : proxy_kind) (target : value) : M value :=
  fun s => Ok (VProxy (proxies s) kind target) (set_proxies (S (proxies s)) s).

(** [Array.isArray], which looks through proxies. *)
Fixpoint is_array (v : value) (s : State) : bool :=
  match v with
  | VObj a =>
      match heap_get a s with
      | Some o => match arr_length o with Some _ => true | None => false end
      | None => false
      end
  | VProxy _ _ t => is_array t s
  | _ => false
  end.

(** [Object.prototype.hasOwnProperty.call(v, k)]; no script traps it. *)
Fixpoint has_own (v : value) (k : key) (s : State) : bool :=
  match v with
  | VObj a =>
      match heap_get a s with
      | Some o =>
          match arr_length o, key_eqb k k_length with
          | Some _, true => true
          | _, _ =>
              match alist_get key_eqb k (props o) with
              | Some _ => true
              | None => false
              end
          end
      | None => false
      end
  | VProxy _ _ t => has_own t k s
  | _ => false
  end.

Definition set_cleanup (e : nat) (c : option prog) (s : State) : State :=
  match nth_error (effects s) e with
  | Some r => set_effects (list_update e (mkEffect (e_body r) c) (effects s)) s
  | None => s
  end.

Definition cleanup_of (e : nat) (s : State) : option prog :=
  match nth_error (effects s) e with
  | Some r => e_cleanup r
  | None => None
  end.

Definition set_dirty (c : nat) (d : bool) (s : State) : State :=
  match nth_error (computeds s) c with
  | Some r =>
      set_computeds
        (list_update c (mkComputed (c_getter r) (c_value r) d (c_self r))
           (computeds s)) s
  | None => s
  end.

Definition set_value (c : nat) (v : value) (s : State) : State :=
  match nth_error (computeds s) c with
  | Some r =>
      set_computeds
        (list_update c (mkComputed (c_getter r) v (c_dirty r) (c_self r))
           (computeds s)) s
  | None => s
  end.

Definition dirty_of (c : nat) (s : State) : bool :=
  match nth_error (computeds s) c with
  | Some r => c_dirty r
  | None => false
  end.

Definition value_of (c : nat) (s : State) : value :=
  match nth_error (computeds s) c with
  | Some r => c_value r
  | None => VUndef
  end.

Definition warn (msg : string) (s : State) : State :=
  set_console (console s ++ [msg]) s.

Definition log (v : value) (s : State) : State :=
  set_output (output s ++ [v]) s.

(** [track] and [trigger] are always called with a proxy's target or
    with an object of the engine's own. *)
Definition track_on (t : value) (k : key) (s : State) : State :=
  match identity t with
  | Some i => track i k s
  | None => s
  end.

(** ** The interpreter

    Reads, writes and calls nest without bound (a getter may read a
    computed cell whose getter reads another, a ref may hold a ref), so
    they are defined by recursion on a depth; [interp F n] is the engine
    of script [F] cut at depth [n]. *)

Record Interp : Type := mkInterp {
  i_depth : nat;
  i_get : value -> key -> M value;
  i_set : value -> key -> value -> M bool;
  i_delete : value -> key -> M bool;
  i_call : job -> M unit;
  i_run : prog -> M value
}.

Section Engine.
Variable F : file.
Variable I : Interp.

(** *** reactive, readonly *)

Definition reactive (target : value) : M value :=
  match F with
  | Day2 | Day6 =>
      if isObject target then new_proxy Reactive target
      else throw "TypeError: Cannot create proxy with a non-object as target or handler"
  | Day4 | Day7 =>
      if isObject target then new_proxy Reactive target else ret target
  | Part0 => throw "ReferenceError: reactive is not defined"
  end.

Definition readonly (target : value) : M value :=
  match F with
  | Day6 =>
      if isObject target then new_proxy Readonly target
      else throw "TypeError: Cannot create proxy with a non-object as target or handler"
  | _ => throw "ReferenceError: readonly is not defined"
  end.

(** *** trigger, as each script has it *)

(** day-2: [dep.forEach((effect) => effect())], over the live set. *)
Fixpoint trigger_loop (steps : nat) (t : objid) (k : key) (i : nat) : M unit :=
  match steps with
  | 0 => timeout
  | S n =>
      fun s =>
        match nth_error (deps_of t k s) i with
        | None => Ok tt s
        | Some e => (i_call I e ;; trigger_loop n t k (S i)) s
        end
  end.

Definition do_trigger (t : objid) (k : key) : M unit :=
  match F with
  | Day2 => trigger_loop (i_depth I) t k 0
  | _ => modify (trigger t k)
  end.

Definition trigger_on (t : value) (k : key) : M unit :=
  match identity t with
  | Some i => do_trigger i k
  | None => ret tt
  end.

(** [!!(value && value.__v_isRef)] (day-7) *)
Definition isRef (v : value) : M bool :=
  if truthy v then (x <- i_get I v k_isRef ;; ret (truthy x))
  else ret false.

(** *** computed: the getter of [computedRef.value] *)

Definition computed_get (c : nat) : M value :=
  fun s =>
    match nth_error (computeds s) c with
    | None => Ok VUndef s
    | Some r =>
        ((if c_dirty r then
            modify (pushEffect (ComputedEffect c)) ;;
            modify (record (CGetter c)) ;;
            v <- i_run I (c_getter r) ;;
            modify (set_value c v) ;;
            modify popEffect ;;
            modify (set_dirty c false)
          else ret tt) ;;
         modify (track (OAddr (c_self r)) k_value) ;;
         gets (value_of c)) s
    end.

(** *** Property read *)

Definition raw_get (a : nat) (k : key) : M value :=
  fun s =>
    match heap_get a s with
    | None => Ok VUndef s
    | Some o =>
        match arr_length o, key_eqb k k_length with
        | Some n, true => Ok (VNum (Z.of_nat n)) s
        | _, _ =>
            match alist_get key_eqb k (props o) with
            | None => Ok VUndef s
            | Some (Data v) => Ok v s
            | Some (RefAccessor v) => Ok v (track (OAddr a) k_value s)
            | Some (ComputedAccessor c) => computed_get c s
            end
        end
    end.

(** The [get] trap of the proxies. *)
Definition proxy_get (kind : proxy_kind) (target : value) (k : key) : M value :=
  match F with
  | Day7 =>
      result <- i_get I target k ;;
      r <- isRef result ;;
      if r then i_get I result k_value
      else
        modify (track_on target k) ;;
        if isObject result then reactive result else ret result
  | Day4 =>
      result <- i_get I target k ;;
      modify (track_on target k) ;;
      reactive result
  | _ =>
      res <- i_get I target k ;;
      modify (track_on target k) ;;
      if truthy res && isObject res then
        match kind with
        | Reactive => reactive res
        | Readonly => readonly res
        end
      else ret res
  end.

Definition get_step (o : value) (k : key) : M value :=
  match o with
  | VObj a => raw_get a k
  | VProxy _ kind t => proxy_get kind t k
  | VUndef | VNull => throw "TypeError: Cannot read properties of undefined"
  | _ => ret VUndef
  end.

(** *** Property write *)

(** [o[k] = v] as a statement: the result of the write is dropped. *)
Definition assign (o : value) (k : key) (v : value) : M unit :=
  match o with
  | VObj _ | VProxy _ _ _ => i_set I o k v ;; ret tt
  | VUndef | VNull => throw "TypeError: Cannot set properties of undefined"
  | _ => ret tt
  end.

(** An array index is the canonical numeric string of a number below
    [2^32 - 1]; any other key, numeric or not, names an ordinary
    property of an array and leaves its [length] alone. *)
Definition is_index (i : nat) : bool := (Z.of_nat i <? 4294967295)%Z.

Definition digit (c : ascii) : option Z :=
  let n := nat_of_ascii c in
  if Nat.leb 48 n && Nat.leb n 57 then Some (Z.of_nat (n - 48)) else None.

(** The number a string of decimal digits denotes. *)
Fixpoint digits (s : string) (acc : Z) : option Z :=
  match s with
  | EmptyString => Some acc
  | String c r =>
      match digit c with
      | Some d => digits r (10 * acc + d)
      | None => None
      end
  end.

(** What a write to the [length] of an array makes of the value written
    ([ArraySetLength]): the value is converted to a number, which is
    the new length when it is an integer from 0 to [2^32 - 1], and a
    RangeError otherwise.  [undefined] converts to NaN, [null] to 0,
    [false] and [true] to 0 and 1, a string of decimal digits to the
    number it denotes and the empty string to 0.  The conversion of a
    string in any other form (signs, blanks, fractions, exponents and
    the other radices, which convert to floating-point numbers) and
    the conversion of an object (which calls its [valueOf] and
    [toString]) are not embedded. *)
Inductive new_length : Type :=
| Length (n : nat)
| BadLength
| Unconverted.

Definition length_of_number (z : Z) : new_length :=
  if ((0 <=? z) && (z <? 4294967296))%Z then Length (Z.to_nat z) else BadLength.

Definition to_length (v : value) : new_length :=
  match v with
  | VUndef => BadLength
  | VNull => Length 0
  | VBool b => Length (if b then 1 else 0)
  | VNum z => length_of_number z
  | VStr s =>
      match digits s 0 with
      | Some z => length_of_number z
      | None => Unconverted
      end
  | VObj _ | VProxy _ _ _ => Unconverted
  end.

(** The elements that a new length [m] leaves in an array. *)
Definition keeps_element (m : nat) (kv : key * slot) : bool :=
  match fst kv with
  | KIdx i => Nat.ltb i m || negb (is_index i)
  | KName _ => true
  end.

Definition write_data (a : nat) (o : obj) (k : key) (v : value) : M bool :=
  match arr_length o with
  | None =>
      modify (heap_set a (mkObj (alist_set key_eqb k (Data v) (props o)) None)) ;;
      ret true
  | Some n =>
      match k with
      | KIdx i =>
          modify (heap_set a (mkObj (alist_set key_eqb k (Data v) (props o))
                                (Some (if is_index i then Nat.max n (S i) else n)))) ;;
          ret true
      | KName _ =>
          if key_eqb k k_length then
            match to_length v with
            | Length m =>
                modify (heap_set a
                  (mkObj (filter (keeps_element m) (props o)) (Some m))) ;;
                ret true
            | BadLength => throw "RangeError: Invalid array length"
            | Unconverted => unconverted
            end
          else
            modify (heap_set a (mkObj (alist_set key_eqb k (Data v) (props o))
                                  (Some n))) ;;
            ret true
      end
  end.

Definition raw_set (a : nat) (k : key) (v : value) : M bool :=
  fun s =>
    match heap_get a s with
    | None => Ok false s
    | Some o =>
        match alist_get key_eqb k (props o) with
        | Some (RefAccessor _) =>
            (* set value(newValue) *)
            (nv <- (match F with Day6 => reactive v | _ => ret v end) ;;
             modify (heap_set a
               (mkObj (alist_set key_eqb k (RefAccessor nv) (props o))
                      (arr_length o))) ;;
             do_trigger (OAddr a) k_value ;;
             ret true) s
        | Some (ComputedAccessor _) => Ok false s
        | _ => write_data a o k v s
        end
    end.

(** The [set] trap of the proxies. *)
Definition proxy_set (kind : proxy_kind) (target : value) (k : key)
    (v : value) : M bool :=
  match kind with
  | Readonly =>
      modify (warn "Cannot set readonly property.") ;; ret true
  | Reactive =>
      match F with
      | Day7 =>
          arr <- gets (is_array target) ;;
          if arr then
            oldValue <- i_get I target k ;;
            result <- i_set I target k v ;;
            (if result && negb (strict_eq oldValue v) then
               trigger_on target k ;;
               if negb (key_eqb k k_length) then trigger_on target k_length
               else ret tt
             else ret tt) ;;
            ret result
          else
            oldValue <- i_get I target k ;;
            a <- isRef oldValue ;;
            b <- (if a then isRef v else ret false) ;;
            if a && negb b then
              assign oldValue k_value v ;; ret true
            else
              result <- i_set I target k v ;;
              (if result && negb (strict_eq oldValue v) then trigger_on target k
               else ret tt) ;;
              ret result
      | Day4 =>
          oldValue <- i_get I target k ;;
          result <- i_set I target k v ;;
          (if negb (strict_eq oldValue v) then trigger_on target k
           else ret tt) ;;
          ret result
      | _ =>
          oldValue <- i_get I target k ;;
          result <- i_set I target k v ;;
          (if result && negb (strict_eq oldValue v) then trigger_on target k
           else ret tt) ;;
          ret result
      end
  end.

Definition set_step (o : value) (k : key) (v : value) : M bool :=
  match o with
  | VObj a => raw_set a k v
  | VProxy _ kind t => proxy_set kind t k v
  | _ => throw "TypeError: Reflect.set called on non-object"
  end.

(** *** Property delete *)

Definition raw_delete (a : nat) (k : key) : M bool :=
  fun s =>
    match heap_get a s with
    | None => Ok true s
    | Some o =>
        match arr_length o, key_eqb k k_length with
        | Some _, true => Ok false s
        | _, _ =>
            Ok true (heap_set a (mkObj (alist_remove key_eqb k (props o))
                                       (arr_length o)) s)
        end
    end.

(** The target of a proxy owns [k] as a property that is not
    configurable: of what the scripts build, the [length] of an array.
    The proxies of the scripts do not trap the question, so it goes
    through them to the raw object. *)
Definition non_configurable (target : value) (k : key) (s : State) : bool :=
  is_array target s && key_eqb k k_length.

Definition delete_invariant_error : string :=
  "TypeError: 'deleteProperty' on proxy: trap returned truish for property which is non-configurable in the proxy target".

(** The [deleteProperty] trap; the proxies of day-4 have none.  When a
    trap answers true for a property that its target owns and that is
    not configurable, the proxy raises a TypeError in place of the
    answer; the trap of a reactive proxy answers what the target did,
    that of a readonly proxy answers true whatever the property. *)
Definition proxy_delete (kind : proxy_kind) (target : value) (k : key) : M bool :=
  match kind with
  | Readonly =>
      modify (warn "Cannot delete readonly property.") ;;
      fixed <- gets (non_configurable target k) ;;
      if fixed then throw delete_invariant_error else ret true
  | Reactive =>
      match F with
      | Day4 => i_delete I target k
      | _ =>
          hadKey <- gets (has_own target k) ;;
          result <- i_delete I target k ;;
          (if result && hadKey then trigger_on target k else ret tt) ;;
          ret result
      end
  end.

Definition delete_step (o : value) (k : key) : M bool :=
  match o with
  | VObj a => raw_delete a k
  | VProxy _ kind t => proxy_delete kind t k
  | VUndef | VNull => throw "TypeError: Cannot convert undefined or null to object"
  | _ => ret true
  end.
End Engine.

Section Closures.
Variable F : file.
Variable I : Interp.

(** *** wrappedEffect and computedEffect *)

(** [if (cleanup) cleanup()] *)
Definition run_cleanup (e : nat) : M unit :=
  fun s =>
    match cleanup_of e s with
    | Some c => (modify (record (CCleanup e)) ;; i_run I c ;; ret tt) s
    | None => Ok tt s
    end.

(** [effect(registerCleanup)] *)
Definition run_body (e : nat) (r : effect_rec) : M unit :=
  modify (record (CBody e)) ;; i_run I (e_body r e) ;; ret tt.

Definition wrappedEffect (e : nat) : M unit :=
  fun s =>
    match nth_error (effects s) e with
    | None => Throw "TypeError: job is not a function" s
    | Some r =>
        match F with
        | Day2 =>
            (modify (set_activeEffect (Some (Wrapped e))) ;;
             finally (run_body e r) (set_activeEffect None)) s
        | Part0 =>
            (run_cleanup e ;;
             modify (set_activeEffect (Some (Wrapped e))) ;;
             modify (set_cleanup e None) ;;
             finally (run_body e r) (set_activeEffect None)) s
        | _ =>
            (run_cleanup e ;;
             modify (pushEffect (Wrapped e)) ;;
             modify (set_cleanup e None) ;;
             finally (run_body e r) popEffect) s
        end
    end.

Definition computedEffect (c : nat) : M unit :=
  fun s =>
    match nth_error (computeds s) c with
    | None => Throw "TypeError: job is not a function" s
    | Some r =>
        (modify (set_dirty c true) ;;
         do_trigger F I (OAddr (c_self r)) k_value) s
    end.

Definition call_step (j : job) : M unit :=
  match j with
  | Wrapped e => wrappedEffect e
  | ComputedEffect c => computedEffect c
  end.

(** *** ref, computed, watchEffect, effect *)

Definition ref (v : value) : M value :=
  match F with
  | Day2 | Day4 | Part0 => alloc (mkObj [(k_value, RefAccessor v)] None)
  | Day6 =>
      w <- reactive F v ;;
      alloc (mkObj [(k_isRef, Data (VBool true)); (k_value, RefAccessor w)] None)
  | Day7 =>
      o <- alloc (mkObj [(k_isRef, Data (VBool true)); (k_value, Data v)] None) ;;
      reactive F o
  end.

Definition computed (getter : prog) : M value :=
  match F with
  | Day4 | Day6 | Day7 =>
      fun s =>
        let c := List.length (computeds s) in
        let a := List.length (heap s) in
        Ok (VObj a)
           (set_heap (heap s ++ [mkObj [(k_value, ComputedAccessor c)] None])
              (set_computeds (computeds s ++ [mkComputed getter VUndef true a]) s))
  | _ => throw "ReferenceError: computed is not defined"
  end.

(** The result stands for the [stop] closure of the call. *)
Definition watchEffect (body : nat -> prog) : M nat :=
  match F with
  | Day2 => throw "ReferenceError: watchEffect is not defined"
  | _ =>
      fun s =>
        let e := List.length (effects s) in
        Ok e (queueJob (Wrapped e)
                (set_effects (effects s ++ [mkEffect body None]) s))
  end.

(** The closure [watchEffect] returns. *)
Definition stop (e : nat) : M unit :=
  match F with
  | Day2 => throw "ReferenceError: stop is not defined"
  | _ =>
      fun s =>
        match nth_error (effects s) e with
        | None => Throw "TypeError: stop is not a function" s
        | Some _ =>
            (modify (fun s' => set_queue (queue_delete (Wrapped e) (queue s')) s') ;;
             run_cleanup e ;;
             match F with
             | Day7 => throw "ReferenceError: removeEffect is not defined"
             | _ => modify (removeEffect (Wrapped e))
             end) s
        end
  end.

(** day-2: [effect(fn)] runs the new closure at once. *)
Definition effect (body : prog) : M unit :=
  match F with
  | Day2 =>
      fun s =>
        let e := List.length (effects s) in
        wrappedEffect e (set_effects (effects s ++ [mkEffect (fun _ => body) None]) s)
  | _ => throw "ReferenceError: effect is not defined"
  end.

Definition array_obj (elems : list value) : obj :=
  mkObj (combine (map KIdx (seq 0 (List.length elems))) (map Data elems))
        (Some (List.length elems)).

Definition plain_obj (l : list (key * value)) : obj :=
  mkObj (fold_left (fun acc kv => alist_set key_eqb (fst kv) (Data (snd kv)) acc) l [])
        None.

(** *** Running a closure *)

Fixpoint exec (p : prog) : M value :=
  match p with
  | Ret v => ret v
  | Raise e => throw e
  | GetP o k cont => v <- i_get I o k ;; exec (cont v)
  | SetP o k v cont => assign I o k v ;; exec cont
  | DeleteP o k cont => i_delete I o k ;; exec cont
  | NewObject l cont => o <- alloc (plain_obj l) ;; exec (cont o)
  | NewArray l cont => o <- alloc (array_obj l) ;; exec (cont o)
  | CallRef v cont => r <- ref v ;; exec (cont r)
  | CallReactive v cont => r <- reactive F v ;; exec (cont r)
  | CallReadonly v cont => r <- readonly F v ;; exec (cont r)
  | CallComputed g cont => r <- computed g ;; exec (cont r)
  | CallWatchEffect body cont => e <- watchEffect body ;; exec (cont e)
  | CallStop e cont => stop e ;; exec cont
  | RegisterCleanup e fn cont =>
      modify (set_cleanup e (Some fn)) ;; exec cont
  | CallEffect body cont => effect body ;; exec cont
  | Log v cont => modify (log v) ;; exec cont
  end.
End Closures.

Definition stuck : Interp :=
  mkInterp 0 (fun _ _ => timeout) (fun _ _ _ => timeout) (fun _ _ => timeout)
    (fun _ => timeout) (fun _ => timeout).

Fixpoint interp (F : file) (depth : nat) : Interp :=
  match depth with
  | 0 => stuck
  | S n =>
      let I := interp F n in
      mkInterp n (get_step F I) (set_step F I) (delete_step F I)
        (call_step F I) (exec F I)
  end.

(** A top-level script, or an event handler. *)
Definition run (F : file) (depth : nat) (p : prog) : M value :=
  exec F (interp F depth) p.

(** ** Scheduler: flushJobs *)

(** [for (const job of queue) job()]: the iterator holds a position in
    the entries of the set; it skips holes and sees what is added while
    it runs.  The result lists the jobs called, each with the position
    it was found at, in the order of the calls. *)
Fixpoint flush_loop (I : Interp) (steps : nat) (i : nat) : M (list (nat * job)) :=
  match steps with
  | 0 => timeout
  | S n =>
      fun s =>
        match nth_error (queue s) i with
        | None => Ok [] s
        | Some None => flush_loop I n (S i) s
        | Some (Some j) =>
            (i_call I j ;;
             rest <- flush_loop I n (S i) ;;
             ret ((i, j) :: rest)) s
        end
  end.

Definition flush_with (I : Interp) (steps : nat) : M (list (nat * job)) :=
  visited <- flush_loop I steps 0 ;;
  modify (set_queue []) ;;
  modify (set_isFlushPending false) ;;
  ret visited.

Definition flushJobs (F : file) (depth : nat) : M (list (nat * job)) :=
  flush_with (interp F depth) depth.

(** The microtask checkpoint at the end of a turn: the scheduled calls
    of [flushJobs] run one after the other; an error ends the call that
    raised it and no other. *)
Fixpoint checkpoint (F : file) (depth : nat) (rounds : nat) (s : State) : option State :=
  match microtasks s with
  | 0 => Some s
  | S m =>
      match rounds with
      | 0 => None
      | S r =>
          match flushJobs F depth (set_microtasks m s) with
          | Ok _ s' | Throw _ s' => checkpoint F depth r s'
          | Timeout => None
          end
      end
  end.

(** One turn of the event loop: a script (or handler) runs to its end,
    then the microtasks. *)
Definition turn (F : file) (depth : nat) (p : prog) (s : State) : option State :=
  match run F depth p s with
  | Ok _ s' | Throw _ s' => checkpoint F depth depth s'
  | Timeout => None
  end.

(** A later turn whose handler closes over what an earlier script
    returned. *)
Definition then_turn (F : file) (depth : nat) (p : prog) (handler : value -> prog)
    (s : State) : option State :=
  match run F depth p s with
  | Ok v s1 =>
      match checkpoint F depth depth s1 with
      | Some s2 => turn F depth (handler v) s2
      | None => None
      end
  | _ => None
  end.

(** The first [count] positions of a pass: what [flush_loop] does before
    it arrives at position [i + count]. *)
Fixpoint advance (I : Interp) (count : nat) (i : nat) : M unit :=
  match count with
  | 0 => ret tt
  | S c =>
      fun s =>
        match nth_error (queue s) i with
        | None => Ok tt s
        | Some None => advance I c (S i) s
        | Some (Some j) => (i_call I j ;; advance I c (S i)) s
        end
  end.

Module Scenario.

(** [const c = ref(v0); watchEffect(() => log.push(c.value));
     c.value = v1; c.value = v2;] *)
Definition end_to_end (v0 v1 v2 : value) : prog :=
  CallRef v0 (fun c =>
  CallWatchEffect (fun _ => GetP c k_value (fun v => Log v (Ret VUndef))) (fun _ =>
  SetP c k_value v1 (SetP c k_value v2 (Ret VUndef)))).

(** The same, the two writes made by a handler of a later turn. *)
Definition create (v0 : value) : prog :=
  CallRef v0 (fun c =>
  CallWatchEffect (fun _ => GetP c k_value (fun v => Log v (Ret VUndef))) (fun _ =>
  Ret c)).

Definition write_twice (v1 v2 : value) (c : value) : prog :=
  SetP c k_value v1 (SetP c k_value v2 (Ret VUndef)).

End Scenario.

Module StopTwice.

(** [watchEffect((onCleanup) => { onCleanup(() => log.push("cleanup"));
     log.push("run") })] *)
Definition register : prog :=
  CallWatchEffect
    (fun self =>
       RegisterCleanup self (Log (VStr "cleanup") (Ret VUndef))
         (Log (VStr "run") (Ret VUndef)))
    (fun stop => Ret VUndef).

Definition stop_once : prog := CallStop 0 (Ret VUndef).
Definition stop_twice : prog := CallStop 0 (CallStop 0 (Ret VUndef)).

End StopTwice.

Module Faulty.

(** [watchEffect(() => { throw "boom" }); watchEffect(() => log.push(1))] *)
Definition two_effects : prog :=
  CallWatchEffect (fun _ => Raise "boom") (fun _ =>
  CallWatchEffect (fun _ => Log (VNum 1) (Ret VUndef)) (fun _ =>
  Ret VUndef)).

(** A later [watchEffect(() => log.push(3))]. *)
Definition one_more : prog :=
  CallWatchEffect (fun _ => Log (VNum 3) (Ret VUndef)) (fun _ => Ret VUndef).

(** The state [two_effects] leaves, before the microtask. *)
Definition queued : State :=
  Eval vm_compute in
    match run Part0 3 two_effects initial with
    | Ok _ s | Throw _ s => s
    | Timeout => initial
    end.

(** The state in which the first job raises. *)
Definition faulted : State :=
  Eval vm_compute in
    match i_call (interp Part0 3) (Wrapped 0) queued with
    | Ok _ s | Throw _ s => s
    | Timeout => initial
    end.

End Faulty.

(** The data property [k] of the object at address [a], if it has one
    (the [length] of an array is one). *)
Definition own_data (a : nat) (k : key) (s : State) : option value :=
  match heap_get a s with
  | None => None
  | Some o =>
      match arr_length o, key_eqb k k_length with
      | Some n, true => Some (VNum (Z.of_nat n))
      | _, _ =>
          match alist_get key_eqb k (props o) with
          | Some (Data v) => Some v
          | _ => None
          end
      end
  end.

(** The object at [a] has no property [k]. *)
Definition lacks (a : nat) (k : key) (s : State) : bool :=
  match heap_get a s with
  | None => false
  | Some o =>
      match arr_length o, key_eqb k k_length with
      | Some n, true => false
      | _, _ =>
          match alist_get key_eqb k (props o) with
          | Some _ => false
          | None => true
          end
      end
  end.

Module ReadonlyList.

(** [const ro = readonly([1, 2, 3])] (day-6) *)
Definition create : prog :=
  NewArray [VNum 1; VNum 2; VNum 3] (fun a => CallReadonly a (fun ro => Ret ro)).

Definition ro : value := VProxy 0 Readonly (VObj 0).

Definition built : State :=
  set_proxies 1 (set_heap [array_obj [VNum 1; VNum 2; VNum 3]] initial).

(** [ro.length = 0; log.push("after")] *)
Definition write_length (p : value) : prog :=
  SetP p k_length (VNum 0) (Log (VStr "after") (Ret VUndef)).

(** [delete ro.length; log.push("after")] *)
Definition delete_length (p : value) : prog :=
  DeleteP p k_length (Log (VStr "after") (Ret VUndef)).

(** [delete ro[0]; log.push("after")] *)
Definition delete_first (p : value) : prog :=
  DeleteP p (KIdx 0) (Log (VStr "after") (Ret VUndef)).

End ReadonlyList.

Module RefInObject.

(** [const s = reactive({ count: ref(0) });
     watchEffect(() => log.push(s.count))] (day-7) *)
Definition count : key := KName "count".

Definition watch_count : prog :=
  CallRef (VNum 0) (fun r =>
  NewObject [(count, r)] (fun o =>
  CallReactive o (fun p =>
  CallWatchEffect (fun _ => GetP p count (fun v => Log v (Ret VUndef))) (fun _ =>
  Ret p)))).

(** [s.count = 5] *)
Definition write_5 (p : value) : prog := SetP p count (VNum 5) (Ret VUndef).

(** [s.count = ref(7); log.push(s.count)] *)
Definition replace_ref (p : value) : prog :=
  CallRef (VNum 7) (fun r =>
  SetP p count r (GetP p count (fun v => Log v (Ret VUndef)))).

End RefInObject.

(** What a plain read of property [k] of [o] finds: the value of a data
    property, [undefined] when there is none; nothing for an accessor. *)
Definition slot_value (o : obj) (k : key) : option value :=
  match alist_get key_eqb k (props o) with
  | Some (Data v) => Some v
  | None => Some VUndef
  | Some _ => None
  end.

(** [o.push(v)], as the language defines it on an array-like: the method
    is looked up, [length] is read, the element is written at that
    index and [length] is written. *)
Definition push (o v : value) (cont : prog) : prog :=
  GetP o (KName "push") (fun _ =>
  GetP o k_length (fun len =>
  match len with
  | VNum z =>
      SetP o (KIdx (Z.to_nat z)) v (SetP o k_length (VNum (z + 1)) cont)
  | _ => SetP o (KIdx 0) v (SetP o k_length (VNum 1) cont)
  end)).

Module ArrayLength.

(** [const list = reactive([1, 2, 3]);
     watchEffect(() => log.push(list.length))] (day-7) *)
Definition watch_length : prog :=
  NewArray [VNum 1; VNum 2; VNum 3] (fun a =>
  CallReactive a (fun p =>
  CallWatchEffect (fun _ => GetP p k_length (fun v => Log v (Ret VUndef))) (fun _ =>
  Ret p))).

(** [list.push(4)] *)
Definition push_4 (p : value) : prog := push p (VNum 4) (Ret VUndef).

End ArrayLength.

Definition has_reactive (F : file) : bool :=
  match F with
  | Part0 => false
  | _ => true
  end.

Definition has_scheduler (F : file) : bool :=
  match F with
  | Day2 => false
  | _ => true
  end.

Module Nested.

Definition address : key := KName "address".
Definition street : key := KName "street".

(** day-2: [const p = reactive({ address: { street: "main" } });
     const w1 = p.address, w2 = p.address;
     effect(() => log.push(w1.street));
     w2.street = "elm"] *)
Definition two_wrappers : prog :=
  NewObject [(street, VStr "main")] (fun inner =>
  NewObject [(address, inner)] (fun o =>
  CallReactive o (fun p =>
  GetP p address (fun w1 =>
  GetP p address (fun w2 =>
  Log (VBool (strict_eq w1 w2))
    (CallEffect (GetP w1 street (fun v => Log v (Ret VUndef)))
       (SetP w2 street (VStr "elm") (Ret VUndef)))))))).

End Nested.

(** The state built by the first two statements of [Nested.two_wrappers],
    for any script. *)
Definition nested_built : State :=
  Eval vm_compute in
    match run Day7 2
            (NewObject [(Nested.street, VStr "main")] (fun inner =>
             NewObject [(Nested.address, inner)] (fun o => Ret o))) initial with
    | Ok _ s | Throw _ s => s
    | Timeout => initial
    end.

Definition has_computed (F : file) : bool :=
  match F with
  | Day4 | Day6 | Day7 => true
  | _ => false
  end.

Module Memo.

(** day-4: [const x = ref(1);
     const c = computed(() => { log.push("call"); return x.value });
     log.push(c.value); log.push(c.value); x.value = 2] *)
Definition read_twice_then_write : prog :=
  CallRef (VNum 1) (fun x =>
  CallComputed (Log (VStr "call") (GetP x k_value (fun v => Ret v))) (fun c =>
  GetP c k_value (fun v1 =>
  GetP c k_value (fun v2 =>
  Log v1 (Log v2 (SetP x k_value (VNum 2) (Ret c))))))).

(** A later [log.push(c.value)]. *)
Definition read_again (c : value) : prog :=
  GetP c k_value (fun v => Log v (Ret VUndef)).

(** The state after [const x = ref(1); const c = computed(...)]. *)
Definition created : State :=
  Eval vm_compute in
    match run Day4 2
            (CallRef (VNum 1) (fun x =>
             CallComputed (Log (VStr "call") (GetP x k_value (fun v => Ret v)))
               (fun c => Ret c))) initial with
    | Ok _ s | Throw _ s => s
    | Timeout => initial
    end.

(** The closure variables of [c] in that state, and the state in which
    its getter returns when called from there. *)
Definition cell : computed_rec :=
  mkComputed (Log (VStr "call") (GetP (VObj 0) k_value (fun v => Ret v)))
    VUndef true 1.

Definition getter_returned : State :=
  Eval vm_compute in
    match exec Day4 (interp Day4 1) (c_getter cell)
            (record (CGetter 0) (pushEffect (ComputedEffect 0) created)) with
    | Ok _ s | Throw _ s => s
    | Timeout => initial
    end.

End Memo.

(** ** Invariants of the interpreter

    [sound P R m]: from a state that satisfies [P], the computation [m]
    ends (normally or by an error) in a state that satisfies [P] and is
    related to the first by [R]. *)
Definition sound (P : State -> Prop) (R : State -> State -> Prop)
    {A : Type} (m : M A) : Prop :=
  forall s, P s ->
    match m s with
    | Ok _ s' | Throw _ s' => P s' /\ R s s'
    | Timeout => True
    end.

(** The same of every entry of an interpreter; only jobs that satisfy
    [ok] are called. *)
Definition sound_interp (P : State -> Prop) (R : State -> State -> Prop)
    (ok : job -> Prop) (I : Interp) : Prop :=
  (forall o k, sound P R (i_get I o k)) /\
  (forall o k v, sound P R (i_set I o k v)) /\
  (forall o k, sound P R (i_delete I o k)) /\
  (forall j, ok j -> sound P R (i_call I j)) /\
  (forall p, sound P R (i_run I p)).

(** Two states that differ in none of the fields the scheduler and the
    dependency graph are made of. *)
Definition same_engine (s s' : State) : Prop :=
  queue s' = queue s /\
  targetMap s' = targetMap s /\
  activeEffect s' = activeEffect s /\
  effectStack s' = effectStack s /\
  calls s' = calls s /\
  List.length (effects s') = List.length (effects s).

(** A call the engine may record: the body of an effect only if the
    effect may be called. *)
Definition ok_call (ok : job -> Prop) (c : call) : Prop :=
  match c with
  | CBody e => ok (Wrapped e)
  | _ => True
  end.

(** How the job queue changes while a pass runs: jobs are added at the
    end, entries are deleted in place. *)
Inductive evolves : list (option job) -> list (option job) -> Prop :=
| evolves_refl : forall q, evolves q q
| evolves_add : forall q j q', evolves (queue_add j q) q' -> evolves q q'
| evolves_delete : forall q j q', evolves (queue_delete j q) q' -> evolves q q'.

(** A queue from which nothing has been deleted. *)
Definition no_holes (q : list (option job)) : Prop :=
  forall i, nth_error q i <> Some None.

(** Job [j] is somewhere in the dependency graph. *)
Definition subscribed (j : job) (s : State) : Prop :=
  exists t m k dep, In (t, m) (targetMap s) /\ In (k, dep) m /\ In j dep.

(** Effect [e] is out of the engine: subscribed nowhere, not running,
    its body never called and, when [strict], not pending either. *)
Definition absent (strict : bool) (e : nat) (s : State) : Prop :=
  (strict = true -> ~ In (Wrapped e) (pending (queue s))) /\
  ~ subscribed (Wrapped e) s /\
  activeEffect s <> Some (Wrapped e) /\
  ~ In (Wrapped e) (effectStack s) /\
  count_calls (CBody e) s = 0.

(** The effect exists and is out of the engine. *)
Definition stopped (strict : bool) (e : nat) (s : State) : Prop :=
  e < List.length (effects s) /\ absent strict e s.

(** A run of turns, each a script or a handler with its microtasks. *)
Fixpoint turns (F : file) (depth : nat) (ps : list prog) (s : State) : option State :=
  match ps with
  | [] => Some s
  | p :: rest =>
      match turn F depth p s with
      | Some s' => turns F depth rest s'
      | None => None
      end
  end.

Module Cascade.

(** part_000: [const a = ref(0), b = ref(0);
     watchEffect(() => { b.value = a.value + 1 });   // effect 0
     watchEffect(() => log.push(100));               // effect 1
     watchEffect(() => log.push(b.value))]           // effect 2
    and a later handler that writes [a.value] twice. *)
Definition succ_of (v : value) : value :=
  match v with
  | VNum z => VNum (z + 1)
  | _ => VUndef
  end.

Definition three_effects : prog :=
  CallRef (VNum 0) (fun a =>
  CallRef (VNum 0) (fun b =>
  CallWatchEffect (fun _ => GetP a k_value (fun v =>
                            SetP b k_value (succ_of v) (Ret VUndef))) (fun _ =>
  CallWatchEffect (fun _ => Log (VNum 100) (Ret VUndef)) (fun _ =>
  CallWatchEffect (fun _ => GetP b k_value (fun v => Log v (Ret VUndef))) (fun _ =>
  Ret a))))).

Definition write_a (a : value) : prog :=
  SetP a k_value (VNum 5) (SetP a k_value (VNum 7) (Ret VUndef)).

(** The state after the first turn and the two writes: effect 0 is
    queued once, a flush is scheduled. *)
Definition written : State :=
  Eval vm_compute in
    match turn Part0 4 three_effects initial with
    | Some s =>
        match run Part0 4 (write_a (VObj 0)) s with
        | Ok _ s' | Throw _ s' => s'
        | Timeout => initial
        end
    | None => initial
    end.

(** The state when the loop of the pass ends, and after the pass. *)
Definition loop_end : State :=
  Eval vm_compute in
    match flush_loop (interp Part0 4) 4 0 written with
    | Ok _ s | Throw _ s => s
    | Timeout => initial
    end.

Definition flushed : State :=
  Eval vm_compute in
    match flushJobs Part0 4 written with
    | Ok _ s | Throw _ s => s
    | Timeout => initial
    end.

End Cascade.

Module SelfStop.

(** part_000: [const c = ref(0);
     const stop = watchEffect(() => {
       stop();
       const v = c.value;
       log.push(v);
       if (v === 0) c.value = 1;
     })] *)
Definition body (c : value) (self : nat) : prog :=
  CallStop self
    (GetP c k_value (fun v =>
     Log v
       (if strict_eq v (VNum 0) then SetP c k_value (VNum 1) (Ret VUndef)
        else Ret VUndef))).

Definition script : prog :=
  CallRef (VNum 0) (fun c => CallWatchEffect (body c) (fun _ => Ret VUndef)).

(** The state after the script, before the flush: the effect is queued
    once. *)
Definition queued : State :=
  Eval vm_compute in
    match run Part0 2 script initial with
    | Ok _ s | Throw _ s => s
    | Timeout => initial
    end.

Definition flushed : State :=
  Eval vm_compute in
    match flushJobs Part0 4 queued with
    | Ok _ s | Throw _ s => s
    | Timeout => initial
    end.

End SelfStop.

Module Unrun.

(** part_000: [const stop = watchEffect(() => log.push(1)); stop()] *)
Definition body : nat -> prog := fun _ => Log (VNum 1) (Ret VUndef).

Definition created_and_stopped : prog :=
  CallWatchEffect body (fun stop => CallStop stop (Ret VUndef)).

(** The state after [watchEffect], and after [stop]. *)
Definition queued : State :=
  Eval vm_compute in
    match watchEffect Part0 body initial with
    | Ok _ s | Throw _ s => s
    | Timeout => initial
    end.

Definition stopped_state : State :=
  Eval vm_compute in
    match stop Part0 (interp Part0 3) 0 queued with
    | Ok _ s | Throw _ s => s
    | Timeout => initial
    end.

End Unrun.

(** What a day-7 proxy returns for a value [v] it has read and found to
    be no ref: [v] itself, or a new proxy of [v] when [v] is an
    object. *)
Definition wrapped_result (v : value) (s : State) : value :=
  if isObject v then VProxy (proxies s) Reactive v else v.

Definition after_wrapping (v : value) (s : State) : State :=
  if isObject v then set_proxies (S (proxies s)) s else s.

(** A value that is no ref and whose [__v_isRef] can be read without a
    trap: no object at all, or a raw object without that property. *)
Definition plainly_no_ref (v : value) (s : State) : Prop :=
  isObject v = false \/ exists a, v = VObj a /\ lacks a k_isRef s = true.

(** ** Helpers of day-6 and day-7 *)

Definition k_isReadonly : key := KName "__v_isReadonly".

(** day-6: [!!(obj && obj.__v_isReadonly)] *)
Definition isReadonly (F : file) (I : Interp) (v : value) : M bool :=
  match F with
  | Day6 =>
      if truthy v then (x <- i_get I v k_isReadonly ;; ret (truthy x))
      else ret false
  | _ => throw "ReferenceError: isReadonly is not defined"
  end.

(** day-7: [isRef(ref) ? ref.value : ref] *)
Definition unref (F : file) (I : Interp) (v : value) : M value :=
  match F with
  | Day7 => r <- isRef I v ;; if r then i_get I v k_value else ret v
  | _ => throw "ReferenceError: unref is not defined"
  end.

(** day-7: [reactive(setup())] *)
Definition createStore (F : file) (I : Interp) (setup : prog) : M value :=
  match F with
  | Day7 => o <- i_run I setup ;; reactive F o
  | _ => throw "ReferenceError: createStore is not defined"
  end.

(** ** Shapes of the dependency graph and of the effect context *)

(** A graph as [Map]s and [Set]s hold it and as the engine leaves it:
    every target and every key of a target is there once, no set holds
    an effect twice, and no set and no map of keys is empty. *)
Definition graph_ok (s : State) : Prop :=
  NoDup (map fst (targetMap s)) /\
  forall t m, In (t, m) (targetMap s) ->
    m <> [] /\ NoDup (map fst m) /\
    forall k dep, In (k, dep) m -> dep <> [] /\ NoDup dep.

(** [activeEffect] is the top of [effectStack], and undefined when the
    stack is empty. *)
Definition consistent (s : State) : Prop :=
  activeEffect s = last (map Some (effectStack s)) None.

(** Effect [e] exists and the engine holds it nowhere: not in the queue,
    not in the graph, not running. *)
Definition retired (e : nat) (s : State) : Prop :=
  e < List.length (effects s) /\
  ~ In (Wrapped e) (pending (queue s)) /\
  ~ subscribed (Wrapped e) s /\
  activeEffect s <> Some (Wrapped e) /\
  ~ In (Wrapped e) (effectStack s).

(** At most one call of [flushJobs] waits on the microtask queue, and
    only while the flag is set. *)
Definition one_flush (s : State) : Prop :=
  microtasks s = 0 \/ (microtasks s = 1 /\ isFlushPending s = true).

(** What the inner loop of [removeEffect] leaves of one set, and what
    the outer loop leaves of one map of keys: nothing when it is left
    empty. *)
Definition purge (w : job) (dep : list job) : option (list job) :=
  if dep_has w dep then
    match dep_delete w dep with
    | [] => None
    | d => Some d
    end
  else Some dep.

Definition purge_map (w : job) (m : depsMap_t) : option depsMap_t :=
  match remove_from_depsMap w m with
  | [] => None
  | m' => Some m'
  end.

(** ** What a script does without a flush (scripts with a scheduler) *)

(** Two states with the same globals of the script and the same
    computed cells. *)
Definition same_globals (s s' : State) : Prop :=
  activeEffect s' = activeEffect s /\
  effectStack s' = effectStack s /\
  targetMap s' = targetMap s /\
  queue s' = queue s /\
  isFlushPending s' = isFlushPending s /\
  microtasks s' = microtasks s /\
  computeds s' = computeds s.

Definition leaves_globals {A : Type} (m : M A) : Prop :=
  forall s,
    match m s with
    | Ok _ s' | Throw _ s' => same_globals s s'
    | Timeout => True
    end.

(** The four entries of an interpreter that a script uses. *)
Definition script_entries (T : forall A : Type, M A -> Prop) (I : Interp) : Prop :=
  (forall o k, T _ (i_get I o k)) /\
  (forall o k v, T _ (i_set I o k v)) /\
  (forall o k, T _ (i_delete I o k)) /\
  (forall p, T _ (i_run I p)).

(** A computation that returns leaves the effect context as it found
    it; one that raises leaves at most more on the stack. *)
Definition keeps_context {A : Type} (m : M A) : Prop :=
  forall s, consistent s ->
    match m s with
    | Ok _ s' =>
        effectStack s' = effectStack s /\ activeEffect s' = activeEffect s
    | Throw _ s' =>
        consistent s' /\ exists ext, effectStack s' = effectStack s ++ ext
    | Timeout => True
    end.

(** One step of the schedule: no flush is scheduled while one is
    pending, and never more than one. *)
Definition sched_step (s s' : State) : Prop :=
  (isFlushPending s = true ->
   isFlushPending s' = true /\ microtasks s' = microtasks s) /\
  (one_flush s -> one_flush s').

(** A computation makes steps of the schedule only. *)
Definition keeps_one_flush {A : Type} (m : M A) : Prop :=
  forall s,
    match m s with
    | Ok _ s' | Throw _ s' => sched_step s s'
    | Timeout => True
    end.

(** The computed cell [c] is clean and holds [v]. *)
Definition cached (c : nat) (v : value) (s : State) : Prop :=
  exists r,
    nth_error (computeds s) c = Some r /\ c_dirty r = false /\ c_value r = v.

Definition keeps_cached (c : nat) (v : value) {A : Type} (m : M A) : Prop :=
  forall s, cached c v s ->
    match m s with
    | Ok _ s' | Throw _ s' => cached c v s'
    | Timeout => True
    end.


(** ** States of some small scripts *)

Module Reached.

(** part_000, after the turn of [Cascade.three_effects]: every effect
    has run once; effect 0 has read [a], effect 2 has read [b]. *)
Definition three_effects_settled : State :=
  Eval vm_compute in
    match turn Part0 4 Cascade.three_effects initial with
    | Some s => s
    | None => initial
    end.

(** part_000, after the turn of [Scenario.create (VNum 0)]: the effect
    has logged 0 and is subscribed to the ref. *)
Definition ran_once : State :=
  Eval vm_compute in
    match turn Part0 3 (Scenario.create (VNum 0)) initial with
    | Some s => s
    | None => initial
    end.

(** day-7, after the turn of [RefInObject.watch_count]: object 0 is the
    ref, object 1 holds its proxy under [count], and the effect is
    subscribed to the keys of the ref. *)
Definition watching_count : State :=
  Eval vm_compute in
    match turn Day7 5 RefInObject.watch_count initial with
    | Some s => s
    | None => initial
    end.

(** day-7: [createStore(() => ({ count: ref(0) }))]. *)
Definition store_setup : prog :=
  CallRef (VNum 0) (fun r =>
  NewObject [(RefInObject.count, r)] (fun o => Ret o)).

Definition store_built : State :=
  Eval vm_compute in
    match createStore Day7 (interp Day7 3) store_setup initial with
    | Ok _ s | Throw _ s => s
    | Timeout => initial
    end.

(** day-2: [const p = reactive({ x: 1 }); effect(() => log.push(p.x))],
    and then, as if inside another effect (number 1), the state in
    which that effect is the active one. *)
Definition k_x : key := KName "x".

Definition day2_watching : State :=
  Eval vm_compute in
    match turn Day2 4
            (NewObject [(k_x, VNum 1)] (fun o =>
             CallReactive o (fun p =>
             CallEffect (GetP p k_x (fun v => Log v (Ret VUndef)))
               (CallEffect (Ret VUndef) (Ret p))))) initial with
    | Some s => set_activeEffect (Some (Wrapped 1)) s
    | None => initial
    end.

(** day-4: [const c = computed(() => { throw "boom" })]. *)
Definition raising_cell : State :=
  Eval vm_compute in
    match run Day4 2 (CallComputed (Raise "boom") (fun c => Ret c)) initial with
    | Ok _ s | Throw _ s => s
    | Timeout => initial
    end.

(** day-4: the state of [Memo.created] after one read of [c.value],
    made inside effect 0. *)
Definition memo_read : State :=
  Eval vm_compute in
    match run Day4 3 (GetP (VObj 1) k_value (fun v => Ret v))
            (pushEffect (Wrapped 0) Memo.created) with
    | Ok _ s | Throw _ s => s
    | Timeout => initial
    end.

End Reached.

(** ** A ref with one effect that logs it *)

Module Logging.

(** [() => log.push(c.value)] *)
Definition logger (c : value) : prog :=
  GetP c k_value (fun v => Log v (Ret VUndef)).

(** [c.value = v1; c.value = v2; ...] *)
Fixpoint write_all (c : value) (vs : list value) : prog :=
  match vs with
  | [] => Ret VUndef
  | v :: rest => SetP c k_value v (write_all c rest)
  end.

(** day-2: [const c = ref(v0); effect(() => log.push(c.value));
     c.value = v1; ...] *)
Definition day2_script (v0 : value) (vs : list value) : prog :=
  CallRef v0 (fun c => CallEffect (logger c) (write_all c vs)).

(** The states such a script goes through: the ref is object 0 and
    holds [cur], the effect is effect 0 and is its one subscriber. *)
Definition watched (cur : value) (q : list (option job)) (pending : bool)
    (tasks : nat) (out : list value) (cs : list call) : State :=
  mkState [mkObj [(k_value, RefAccessor cur)] None] 0
    [mkEffect (fun _ => logger (VObj 0)) None] [] None []
    [(OAddr 0, [(k_value, [Wrapped 0])])] q pending tasks [] out cs.

End Logging.

(** * Properties *)

(** ** Keys, identities and the insertion-ordered maps *)

Lemma key_eqb_eq : forall a b : key, key_eqb a b = true <-> a = b.
Proof.
  intros [s|i] [t|j]; cbn; split; intros H; try discriminate.
  - apply String.eqb_eq in H. now subst.
  - injection H as ->. apply String.eqb_refl.
  - apply Nat.eqb_eq in H. now subst.
  - injection H as ->. apply Nat.eqb_refl.
Qed.

Lemma objid_eqb_eq : forall a b : objid, objid_eqb a b = true <-> a = b.
Proof.
  intros [x|x] [y|y]; cbn; split; intros H; try discriminate.
  - apply Nat.eqb_eq in H. now subst.
  - injection H as ->. apply Nat.eqb_refl.
  - apply Nat.eqb_eq in H. now subst.
  - injection H as ->. apply Nat.eqb_refl.
Qed.

Lemma job_eqb_eq : forall a b : job, job_eqb a b = true <-> a = b.
Proof.
  intros [x|x] [y|y]; cbn; split; intros H; try discriminate.
  - apply Nat.eqb_eq in H. now subst.
  - injection H as ->. apply Nat.eqb_refl.
  - apply Nat.eqb_eq in H. now subst.
  - injection H as ->. apply Nat.eqb_refl.
Qed.

Lemma key_eqb_refl : forall a : key, key_eqb a a = true.
Proof. intros a. now apply key_eqb_eq. Qed.

Lemma objid_eqb_refl : forall a : objid, objid_eqb a a = true.
Proof. intros a. now apply objid_eqb_eq. Qed.

Lemma job_eqb_refl : forall a : job, job_eqb a a = true.
Proof. intros a. now apply job_eqb_eq. Qed.

Lemma key_eqb_neq : forall a b : key, a <> b -> key_eqb a b = false.
Proof.
  intros a b H. destruct (key_eqb a b) eqn:E; [|reflexivity].
  now apply key_eqb_eq in E.
Qed.

Lemma objid_eqb_neq : forall a b : objid, a <> b -> objid_eqb a b = false.
Proof.
  intros a b H. destruct (objid_eqb a b) eqn:E; [|reflexivity].
  now apply objid_eqb_eq in E.
Qed.

Section AlistFacts.
Variables K V : Type.
Variable eqb : K -> K -> bool.
Hypothesis eqb_eq : forall a b, eqb a b = true <-> a = b.

Lemma alist_get_set_same :
  forall (k : K) (v : V) (l : list (K * V)),
    alist_get eqb k (alist_set eqb k v l) = Some v.
Proof.
  intros k v l. induction l as [|[k' v'] r IH]; cbn.
  - now rewrite (proj2 (eqb_eq k k) eq_refl).
  - destruct (eqb k k') eqn:E; cbn.
    + now rewrite (proj2 (eqb_eq k k) eq_refl).
    + now rewrite E.
Qed.

Lemma alist_get_set_other :
  forall (k k' : K) (v : V) (l : list (K * V)),
    k <> k' ->
    alist_get eqb k (alist_set eqb k' v l) = alist_get eqb k l.
Proof.
  intros k k' v l Hne.
  assert (Hf : eqb k k' = false).
  { destruct (eqb k k') eqn:E; [|reflexivity]. now apply eqb_eq in E. }
  induction l as [|[k2 v2] r IH]; cbn.
  - now rewrite Hf.
  - destruct (eqb k' k2) eqn:E; cbn.
    + apply eqb_eq in E. subst k2. now rewrite Hf.
    + destruct (eqb k k2); [reflexivity|exact IH].
Qed.
End AlistFacts.

(** ** track, trigger, queueJob *)

Lemma dep_add_in : forall (j : job) (dep : list job), In j (dep_add j dep).
Proof.
  intros j dep. unfold dep_add, dep_has.
  destruct (existsb (job_eqb j) dep) eqn:E.
  - apply existsb_exists in E. destruct E as (x & Hx & Hjx).
    apply job_eqb_eq in Hjx. now subst.
  - apply in_or_app. right. now left.
Qed.

Lemma dep_add_keeps :
  forall (j x : job) (dep : list job), In x dep -> In x (dep_add j dep).
Proof.
  intros j x dep H. unfold dep_add.
  destruct (dep_has j dep); [exact H|]. apply in_or_app. now left.
Qed.

Lemma deps_of_track_same :
  forall (t : objid) (k : key) (e : job) (s : State),
    activeEffect s = Some e ->
    deps_of t k (track t k s) = dep_add e (deps_of t k s).
Proof.
  intros t k e s Ha. unfold track, deps_of. rewrite Ha. cbn.
  rewrite (alist_get_set_same objid_eqb objid_eqb_eq).
  rewrite (alist_get_set_same key_eqb key_eqb_eq).
  destruct (alist_get objid_eqb t (targetMap s)) as [m|]; [|reflexivity].
  now destruct (alist_get key_eqb k m).
Qed.

Lemma track_subscribes :
  forall (t : objid) (k : key) (e : job) (s : State),
    activeEffect s = Some e -> In e (deps_of t k (track t k s)).
Proof.
  intros t k e s Ha. rewrite (deps_of_track_same t k s Ha). apply dep_add_in.
Qed.

Lemma deps_of_track_other :
  forall (t t' : objid) (k k' : key) (s : State),
    (t, k) <> (t', k') ->
    deps_of t k (track t' k' s) = deps_of t k s.
Proof.
  intros t t' k k' s Hne. unfold track.
  destruct (activeEffect s) as [e|]; [|reflexivity].
  unfold deps_of. cbn.
  destruct (objid_eqb t t') eqn:Et.
  - apply objid_eqb_eq in Et. subst t'.
    rewrite (alist_get_set_same objid_eqb objid_eqb_eq).
    assert (Hk : k <> k') by (intros ->; now apply Hne).
    rewrite (alist_get_set_other key_eqb key_eqb_eq _ _ Hk).
    now destruct (alist_get objid_eqb t (targetMap s)).
  - assert (Ht : t <> t').
    { intros ->. now rewrite objid_eqb_refl in Et. }
    now rewrite (alist_get_set_other objid_eqb objid_eqb_eq _ _ Ht).
Qed.

Lemma pending_app :
  forall q r : list (option job), pending (q ++ r) = pending q ++ pending r.
Proof.
  intros q r. induction q as [|[j|] q IH]; cbn; [reflexivity| |exact IH].
  now rewrite IH.
Qed.

Lemma queue_has_pending :
  forall (j : job) (q : list (option job)),
    queue_has j q = true <-> In j (pending q).
Proof.
  intros j q. unfold queue_has. induction q as [|[x|] q IH]; cbn.
  - split; [discriminate|contradiction].
  - rewrite orb_true_iff, IH, job_eqb_eq. split; intros [H|H]; auto.
  - exact IH.
Qed.

Lemma queue_add_in :
  forall (j : job) (q : list (option job)), In j (pending (queue_add j q)).
Proof.
  intros j q. unfold queue_add. destruct (queue_has j q) eqn:E.
  - now apply queue_has_pending.
  - rewrite pending_app. apply in_or_app. right. now left.
Qed.

Lemma queue_add_keeps :
  forall (j x : job) (q : list (option job)),
    In x (pending q) -> In x (pending (queue_add j q)).
Proof.
  intros j x q H. unfold queue_add. destruct (queue_has j q); [exact H|].
  rewrite pending_app. apply in_or_app. now left.
Qed.

Lemma queue_queueJob :
  forall (j : job) (s : State), queue (queueJob j s) = queue_add j (queue s).
Proof. intros j s. unfold queueJob. cbn. now destruct (isFlushPending s). Qed.

Lemma targetMap_queueJob :
  forall (j : job) (s : State), targetMap (queueJob j s) = targetMap s.
Proof. intros j s. unfold queueJob. cbn. now destruct (isFlushPending s). Qed.

Lemma heap_queueJob :
  forall (j : job) (s : State), heap (queueJob j s) = heap s.
Proof. intros j s. unfold queueJob. cbn. now destruct (isFlushPending s). Qed.

Lemma queueJob_all_pending :
  forall (dep : list job) (s : State) (x : job),
    In x dep \/ In x (pending (queue s)) ->
    In x (pending (queue (fold_left (fun s' e => queueJob e s') dep s))).
Proof.
  intros dep. induction dep as [|d dep IH]; intros s x H; cbn.
  - destruct H as [[]|H]. exact H.
  - apply IH. rewrite queue_queueJob. destruct H as [[->|H]|H].
    + right. apply queue_add_in.
    + now left.
    + right. now apply queue_add_keeps.
Qed.

Lemma trigger_queues :
  forall (t : objid) (k : key) (s : State) (e : job),
    In e (deps_of t k s) -> In e (pending (queue (trigger t k s))).
Proof.
  intros t k s e H. unfold trigger. unfold deps_of in H.
  destruct (alist_get objid_eqb t (targetMap s)) as [m|]; [|contradiction].
  destruct (alist_get key_eqb k m) as [dep|]; [|contradiction].
  apply queueJob_all_pending. now left.
Qed.

Lemma trigger_keeps_pending :
  forall (t : objid) (k : key) (s : State) (e : job),
    In e (pending (queue s)) -> In e (pending (queue (trigger t k s))).
Proof.
  intros t k s e H. unfold trigger.
  destruct (alist_get objid_eqb t (targetMap s)) as [m|]; [|exact H].
  destruct (alist_get key_eqb k m) as [dep|]; [|exact H].
  apply queueJob_all_pending. now right.
Qed.

Lemma fold_queueJob_frame :
  forall (dep : list job) (s : State),
    targetMap (fold_left (fun s' e => queueJob e s') dep s) = targetMap s /\
    heap (fold_left (fun s' e => queueJob e s') dep s) = heap s.
Proof.
  intros dep. induction dep as [|d dep IH]; intros s; cbn; [now split|].
  destruct (IH (queueJob d s)) as [H1 H2].
  rewrite H1, H2, targetMap_queueJob, heap_queueJob. now split.
Qed.

Lemma trigger_frame :
  forall (t : objid) (k : key) (s : State),
    targetMap (trigger t k s) = targetMap s /\ heap (trigger t k s) = heap s.
Proof.
  intros t k s. unfold trigger.
  destruct (alist_get objid_eqb t (targetMap s)) as [m|]; [|now split].
  destruct (alist_get key_eqb k m) as [dep|]; [|now split].
  apply fold_queueJob_frame.
Qed.

Lemma deps_of_trigger :
  forall (t t' : objid) (k k' : key) (s : State),
    deps_of t k (trigger t' k' s) = deps_of t k s.
Proof.
  intros. unfold deps_of. now rewrite (proj1 (trigger_frame t' k' s)).
Qed.

(** C1, as the spec has it, fails: with [ref(0)], the effect and the
    writes of 1 and 2 in one synchronous run, no depth of evaluation
    gives the log [0, 2]. *)
Lemma end_to_end_log_is_not_0_2 :
  ~ exists depth s,
      turn Part0 depth
        (Scenario.end_to_end (VNum 0) (VNum 1) (VNum 2)) initial = Some s /\
      output s = [VNum 0; VNum 2].
Proof.
  intros (depth & s & Hrun & Hout).
  destruct depth as [|[|[|n]]]; vm_compute in Hrun; try discriminate.
  injection Hrun as <-. discriminate Hout.
Qed.

(** C1, amended: the first run of the effect is itself queued, so it
    happens in the flush that follows the two writes; the writes find no
    subscriber and the effect runs once, logging the last value: the log
    is [v2].  When a flush separates the creation from the writes, the
    first run logs [v0], the two writes queue the effect once and the
    log is [v0, v2]. *)
Theorem end_to_end_log :
  forall (v0 v1 v2 : value) (n : nat),
    (exists s,
        turn Part0 (3 + n) (Scenario.end_to_end v0 v1 v2) initial = Some s /\
        output s = [v2] /\
        count_calls (CBody 0) s = 1) /\
    (exists s,
        then_turn Part0 (3 + n) (Scenario.create v0)
          (Scenario.write_twice v1 v2) initial = Some s /\
        output s = [v0; v2] /\
        count_calls (CBody 0) s = 2).
Proof.
  intros v0 v1 v2 n. split.
  - eexists. split; [vm_compute; reflexivity|]. split; reflexivity.
  - eexists. split; [vm_compute; reflexivity|]. split; reflexivity.
Qed.

(** C2: the code at the failing input.  After the effect has run and
    registered a cleanup, one call of [stop] runs the cleanup once; a
    second call runs it again, since [stop] leaves the [cleanup]
    variable set.  In day-7 each call of [stop] ends in an error after
    the cleanup has run, so the second call is that of another handler;
    the cleanup has run twice there too. *)
Theorem stop_twice_runs_cleanup_twice :
  forall (n : nat),
    (exists s,
        turns Part0 (2 + n) [StopTwice.register; StopTwice.stop_once] initial
          = Some s /\
        count_calls (CCleanup 0) s = 1 /\
        output s = [VStr "run"; VStr "cleanup"]) /\
    (exists s,
        turns Part0 (2 + n) [StopTwice.register; StopTwice.stop_twice] initial
          = Some s /\
        count_calls (CCleanup 0) s = 2 /\
        output s = [VStr "run"; VStr "cleanup"; VStr "cleanup"]) /\
    (exists s,
        turns Day7 (2 + n)
          [StopTwice.register; StopTwice.stop_once; StopTwice.stop_once] initial
          = Some s /\
        count_calls (CCleanup 0) s = 2 /\
        output s = [VStr "run"; VStr "cleanup"; VStr "cleanup"]).
Proof.
  intros n. split; [|split].
  - eexists. split; [vm_compute; reflexivity|]. split; reflexivity.
  - eexists. split; [vm_compute; reflexivity|]. split; reflexivity.
  - eexists. split; [vm_compute; reflexivity|]. split; reflexivity.
Qed.

(** ** A job that raises (every script with a scheduler) *)

Lemma nth_error_none_later :
  forall (A : Type) (l : list A) (i k : nat),
    nth_error l i = None -> nth_error l (i + k) = None.
Proof.
  intros A l i k H. apply nth_error_None. apply nth_error_None in H. lia.
Qed.

Lemma flush_loop_after_advance :
  forall (I : Interp) (k n i : nat) (s sk s' : State) (err : string),
    advance I k i s = Ok tt sk ->
    nth_error (queue sk) (i + k) <> None ->
    flush_loop I n (i + k) sk = Throw err s' ->
    flush_loop I (k + n) i s = Throw err s'.
Proof.
  intros I k. induction k as [|k IH]; intros n i s sk s' err Hadv Hpos Hloop.
  - cbn in Hadv. injection Hadv as <-. rewrite Nat.add_0_r in Hloop. exact Hloop.
  - cbn in Hadv. cbn [Nat.add flush_loop].
    destruct (nth_error (queue s) i) as [[j|]|] eqn:Hi.
    + unfold bind in Hadv |- *.
      destruct (i_call I j s) as [[] s1| |]; try discriminate.
      rewrite (IH n (S i) s1 sk s' err Hadv); [reflexivity| |].
      * now rewrite Nat.add_succ_comm.
      * now rewrite Nat.add_succ_comm.
    + apply (IH n (S i) s sk s' err Hadv); now rewrite Nat.add_succ_comm.
    + injection Hadv as <-. exfalso. apply Hpos.
      now apply nth_error_none_later.
Qed.

Lemma queueJob_when_pending :
  forall (j : job) (s : State),
    isFlushPending s = true ->
    microtasks (queueJob j s) = microtasks s /\
    isFlushPending (queueJob j s) = true.
Proof.
  intros j s H. unfold queueJob. cbn. rewrite H. cbn. now split.
Qed.

(** C3, as the spec has it, fails: of two queued effects the first
    raises; the pass ends there, the second body is not run, the queue
    keeps both entries and the flag stays set with no flush scheduled,
    so that an effect created later is never run either. *)
Lemma fault_skips_the_rest_of_the_queue :
  exists s1 s2,
    turn Part0 3 Faulty.two_effects initial = Some s1 /\
    count_calls (CBody 1) s1 = 0 /\
    queue s1 = [Some (Wrapped 0); Some (Wrapped 1)] /\
    isFlushPending s1 = true /\
    microtasks s1 = 0 /\
    turn Part0 3 Faulty.one_more s1 = Some s2 /\
    microtasks s2 = 0 /\
    output s2 = [].
Proof.
  eexists. eexists. split; [vm_compute; reflexivity|].
  do 4 (split; [reflexivity|]).
  split; [vm_compute; reflexivity|]. split; reflexivity.
Qed.

(** C3, amended: when the job at position [k] of a pass raises, having
    been reached with every job before it returned, [flushJobs] raises
    the same error in the state that job left: nothing after it is
    called, the queue is not cleared and the flag is not reset; and
    while the flag is set [queueJob] schedules no flush. *)
Theorem flushJobs_fault_ends_the_pass :
  forall (F : file) (depth k : nat) (s sk s' : State) (j : job) (err : string),
    advance (interp F depth) k 0 s = Ok tt sk ->
    nth_error (queue sk) k = Some (Some j) ->
    i_call (interp F depth) j sk = Throw err s' ->
    k < depth ->
    flushJobs F depth s = Throw err s' /\
    (isFlushPending s' = true ->
     forall j', microtasks (queueJob j' s') = microtasks s' /\
                isFlushPending (queueJob j' s') = true).
Proof.
  intros F depth k s sk s' j err Hadv Hk Hcall Hlt. split.
  - unfold flushJobs, flush_with, bind.
    replace depth with (k + S (depth - S k)) at 2 by lia.
    rewrite (@flush_loop_after_advance (interp F depth) k (S (depth - S k)) 0 s sk s' err Hadv);
      [reflexivity| |].
    + cbn. rewrite Hk. discriminate.
    + cbn. rewrite Hk. unfold bind. now rewrite Hcall.
  - intros Hp j'. now apply queueJob_when_pending.
Qed.

Lemma flushJobs_fault_ends_the_pass_witness :
  advance (interp Part0 3) 0 0 Faulty.queued = Ok tt Faulty.queued /\
  nth_error (queue Faulty.queued) 0 = Some (Some (Wrapped 0)) /\
  i_call (interp Part0 3) (Wrapped 0) Faulty.queued = Throw "boom" Faulty.faulted /\
  0 < 3 /\
  flushJobs Part0 3 Faulty.queued = Throw "boom" Faulty.faulted /\
  queue Faulty.faulted = [Some (Wrapped 0); Some (Wrapped 1)] /\
  isFlushPending Faulty.faulted = true /\
  microtasks (queueJob (Wrapped 2) Faulty.faulted) = microtasks Faulty.faulted.
Proof.
  assert (H1 : advance (interp Part0 3) 0 0 Faulty.queued = Ok tt Faulty.queued)
    by reflexivity.
  assert (H2 : nth_error (queue Faulty.queued) 0 = Some (Some (Wrapped 0)))
    by reflexivity.
  assert (H3 : i_call (interp Part0 3) (Wrapped 0) Faulty.queued =
               Throw "boom" Faulty.faulted) by (vm_compute; reflexivity).
  assert (H4 : 0 < 3) by lia.
  do 4 (split; [assumption|]).
  destruct (@flushJobs_fault_ends_the_pass Part0 3 0 Faulty.queued Faulty.queued
              Faulty.faulted (Wrapped 0) "boom" H1 H2 H3 H4) as [Hflush Hstuck].
  split; [exact Hflush|]. split; [reflexivity|]. split; [reflexivity|].
  exact (proj1 (Hstuck eq_refl (Wrapped 2))).
Defined.

(** ** readonly (day-6) *)

(** On a readonly proxy the [set] trap reports success, adds one warning
    to the console and changes nothing else, whatever the key; an
    assignment statement goes on with the next statement.  The
    [deleteProperty] trap does the same, and its answer stands for
    every property but one that the target owns and that is not
    configurable: there the proxy raises a TypeError after the
    warning. *)
Lemma readonly_absorbs_writes :
  forall (n id : nat) (target : value) (k : key) (v : value) (s : State),
    i_set (interp Day6 (S n)) (VProxy id Readonly target) k v s
      = Ok true (warn "Cannot set readonly property." s) /\
    (non_configurable target k s = false ->
     i_delete (interp Day6 (S n)) (VProxy id Readonly target) k s
       = Ok true (warn "Cannot delete readonly property." s)) /\
    (non_configurable target k s = true ->
     i_delete (interp Day6 (S n)) (VProxy id Readonly target) k s
       = Throw delete_invariant_error (warn "Cannot delete readonly property." s)) /\
    (forall cont,
        run Day6 (S (S n)) (SetP (VProxy id Readonly target) k v cont) s =
        run Day6 (S (S n)) cont (warn "Cannot set readonly property." s)).
Proof.
  intros n id target k v s.
  assert (Hw : forall l, non_configurable target k
                           (set_console l s) = non_configurable target k s).
  { intros l. unfold non_configurable. f_equal. clear.
    induction target as [| | | | |a|p kind t IH]; try reflexivity. exact IH. }
  split; [reflexivity|]. split; [|split].
  - intros H. cbn [interp i_delete]. unfold delete_step, proxy_delete.
    unfold bind, modify, gets, warn. now rewrite Hw, H.
  - intros H. cbn [interp i_delete]. unfold delete_step, proxy_delete.
    unfold bind, modify, gets, warn. now rewrite Hw, H.
  - intros cont. reflexivity.
Qed.

(** What a warning leaves alone. *)
Lemma warn_changes_the_console_only :
  forall (msg : string) (s : State),
    heap (warn msg s) = heap s /\ targetMap (warn msg s) = targetMap s /\
    queue (warn msg s) = queue s /\
    isFlushPending (warn msg s) = isFlushPending s /\
    microtasks (warn msg s) = microtasks s /\ calls (warn msg s) = calls s /\
    output (warn msg s) = output s /\
    console (warn msg s) = console s ++ [msg].
Proof. intros msg s. repeat split. Qed.

(** C7: the code at the failing input.  After
    [const ro = readonly([1, 2, 3])], the write [ro.length = 0] and the
    delete [delete ro[0]] are absorbed: one warning, the array as it
    was, and the next statement runs.  [delete ro.length] is not: the
    trap warns and answers true like the others, but [length] is not
    configurable, so the proxy raises a TypeError; the array is as it
    was, and the next statement does not run. *)
Theorem readonly_delete_of_length_raises :
  forall (n : nat),
    run Day6 (1 + n) ReadonlyList.create initial
      = Ok ReadonlyList.ro ReadonlyList.built /\
    run Day6 (2 + n) (ReadonlyList.write_length ReadonlyList.ro) ReadonlyList.built
      = Ok VUndef
          (log (VStr "after")
             (warn "Cannot set readonly property." ReadonlyList.built)) /\
    run Day6 (2 + n) (ReadonlyList.delete_first ReadonlyList.ro) ReadonlyList.built
      = Ok VUndef
          (log (VStr "after")
             (warn "Cannot delete readonly property." ReadonlyList.built)) /\
    run Day6 (2 + n) (ReadonlyList.delete_length ReadonlyList.ro) ReadonlyList.built
      = Throw delete_invariant_error
          (warn "Cannot delete readonly property." ReadonlyList.built) /\
    output (warn "Cannot delete readonly property." ReadonlyList.built) = [] /\
    heap (warn "Cannot delete readonly property." ReadonlyList.built)
      = [array_obj [VNum 1; VNum 2; VNum 3]].
Proof.
  intros n. repeat split; vm_compute; reflexivity.
Qed.

(** ** One level of the interpreter *)

Lemma i_get_S :
  forall (F : file) (n : nat), i_get (interp F (S n)) = get_step F (interp F n).
Proof. reflexivity. Qed.

Lemma i_set_S :
  forall (F : file) (n : nat), i_set (interp F (S n)) = set_step F (interp F n).
Proof. reflexivity. Qed.

Lemma i_delete_S :
  forall (F : file) (n : nat),
    i_delete (interp F (S n)) = delete_step F (interp F n).
Proof. reflexivity. Qed.

Lemma i_call_S :
  forall (F : file) (n : nat), i_call (interp F (S n)) = call_step F (interp F n).
Proof. reflexivity. Qed.

Lemma i_run_S :
  forall (F : file) (n : nat), i_run (interp F (S n)) = exec F (interp F n).
Proof. reflexivity. Qed.

Lemma i_depth_S :
  forall (F : file) (n : nat), i_depth (interp F (S n)) = n.
Proof. reflexivity. Qed.

(** ** Reads and writes of raw objects *)

Lemma raw_get_own_data :
  forall (I : Interp) (a : nat) (k : key) (v : value) (s : State),
    own_data a k s = Some v -> raw_get I a k s = Ok v s.
Proof.
  intros I a k v s H. unfold own_data in H. unfold raw_get.
  destruct (heap_get a s) as [o|]; [|discriminate].
  destruct (arr_length o) as [n|].
  - destruct (key_eqb k k_length).
    + now injection H as <-.
    + destruct (alist_get key_eqb k (props o)) as [[x|x|x]|]; try discriminate.
      now injection H as <-.
  - destruct (alist_get key_eqb k (props o)) as [[x|x|x]|]; try discriminate.
    now injection H as <-.
Qed.

Lemma raw_get_lacks :
  forall (I : Interp) (a : nat) (k : key) (s : State),
    lacks a k s = true -> raw_get I a k s = Ok VUndef s.
Proof.
  intros I a k s H. unfold lacks in H. unfold raw_get.
  destruct (heap_get a s) as [o|]; [|discriminate].
  destruct (arr_length o) as [n|].
  - destruct (key_eqb k k_length); [discriminate|].
    now destruct (alist_get key_eqb k (props o)).
  - now destruct (alist_get key_eqb k (props o)).
Qed.

Lemma own_data_track :
  forall (a : nat) (k : key) (t : objid) (k' : key) (s : State),
    own_data a k (track t k' s) = own_data a k s.
Proof.
  intros. unfold track. now destruct (activeEffect s).
Qed.

(** [isRef] of a value that is no object, at any depth that allows one
    read. *)
Lemma isRef_primitive :
  forall (F : file) (n : nat) (v : value) (s : State),
    isObject v = false ->
    isRef (interp F (S n)) v s = Ok false s.
Proof.
  intros F n v s Hv. unfold isRef.
  destruct v; try discriminate; cbn; try reflexivity.
  - now destruct b.
  - now destruct (n0 =? 0)%Z.
  - now destruct (String.eqb s0 EmptyString).
Qed.

Lemma heap_track :
  forall (t : objid) (k : key) (s : State), heap (track t k s) = heap s.
Proof. intros. unfold track. now destruct (activeEffect s). Qed.

Lemma proxies_track :
  forall (t : objid) (k : key) (s : State), proxies (track t k s) = proxies s.
Proof. intros. unfold track. now destruct (activeEffect s). Qed.

Lemma own_data_heap :
  forall (a : nat) (k : key) (s s' : State),
    heap s' = heap s -> own_data a k s' = own_data a k s.
Proof. intros a k s s' H. unfold own_data, heap_get. now rewrite H. Qed.

Lemma lacks_heap :
  forall (a : nat) (k : key) (s s' : State),
    heap s' = heap s -> lacks a k s' = lacks a k s.
Proof. intros a k s s' H. unfold lacks, heap_get. now rewrite H. Qed.

Lemma isRef_plain_object :
  forall (F : file) (n a : nat) (s : State),
    lacks a k_isRef s = true ->
    isRef (interp F (S n)) (VObj a) s = Ok false s.
Proof.
  intros F n a s H. unfold isRef. cbn [truthy]. unfold bind.
  rewrite i_get_S. unfold get_step. now rewrite (raw_get_lacks _ _ _ _ H).
Qed.

(** ** A ref inside a reactive object (day-7) *)


(** [isRef] of such a value is false and changes nothing. *)
Lemma isRef_plainly_no_ref :
  forall (F : file) (n : nat) (v : value) (s : State),
    plainly_no_ref v s -> isRef (interp F (S n)) v s = Ok false s.
Proof.
  intros F n v s [H|(a & -> & H)].
  - now apply isRef_primitive.
  - now apply isRef_plain_object.
Qed.

Lemma plainly_no_ref_heap :
  forall (v : value) (s s' : State),
    heap s' = heap s -> plainly_no_ref v s -> plainly_no_ref v s'.
Proof.
  intros v s s' Hh [H|(a & -> & H)]; [now left|right].
  exists a. split; [reflexivity|]. now rewrite (lacks_heap a k_isRef s s' Hh).
Qed.



(** ** Writes to a reactive array (day-7) *)

Lemma is_array_raw :
  forall (a len : nat) (o : obj) (s : State),
    heap_get a s = Some o -> arr_length o = Some len ->
    is_array (VObj a) s = true.
Proof. intros a len o s Ho Hl. cbn. now rewrite Ho, Hl. Qed.

Lemma raw_get_slot_value :
  forall (I : Interp) (a : nat) (k : key) (o : obj) (v : value) (s : State),
    heap_get a s = Some o ->
    (arr_length o = None \/ key_eqb k k_length = false) ->
    slot_value o k = Some v ->
    raw_get I a k s = Ok v s.
Proof.
  intros I a k o v s Ho Hk Hs. unfold raw_get. rewrite Ho.
  unfold slot_value in Hs.
  assert (E : match alist_get key_eqb k (props o) with
              | Some (Data v0) => Ok v0 s
              | Some (RefAccessor v0) => Ok v0 (track (OAddr a) k_value s)
              | Some (ComputedAccessor c) => computed_get I c s
              | None => Ok VUndef s
              end = Ok v s).
  { destruct (alist_get key_eqb k (props o)) as [[x|x|x]|]; try discriminate;
      now injection Hs as <-. }
  destruct Hk as [Hk|Hk]; rewrite Hk; [exact E|].
  now destruct (arr_length o).
Qed.

Lemma raw_set_slot_value :
  forall (F : file) (I : Interp) (a : nat) (k : key) (o : obj) (old v : value)
         (s : State),
    heap_get a s = Some o ->
    slot_value o k = Some old ->
    raw_set F I a k v s = write_data a o k v s.
Proof.
  intros F I a k o old v s Ho Hs. unfold raw_set. rewrite Ho.
  unfold slot_value in Hs.
  now destruct (alist_get key_eqb k (props o)) as [[x|x|x]|].
Qed.



(** ** Wrappers of a nested object (day-2, day-4, day-6, day-7) *)

(** One read of a nested plain object through a reactive proxy: a new
    proxy of the raw object. *)
Lemma read_nested_wraps :
  forall (F : file) (n id t a : nat) (k : key) (s : State),
    has_reactive F = true ->
    own_data t k s = Some (VObj a) ->
    lacks a k_isRef s = true ->
    i_get (interp F (2 + n)) (VProxy id Reactive (VObj t)) k s
      = Ok (VProxy (proxies s) Reactive (VObj a))
           (set_proxies (S (proxies s)) (track (OAddr t) k s)).
Proof.
  intros F n id t a k s HF Hk Hplain.
  cbn [Nat.add]. rewrite i_get_S. unfold get_step, proxy_get.
  destruct F; try discriminate HF.
  - (* day-2 *)
    unfold bind at 1. rewrite i_get_S. unfold get_step.
    rewrite (raw_get_own_data _ _ _ _ Hk). unfold bind, modify.
    cbn [truthy isObject andb track_on identity reactive]. unfold new_proxy.
    now rewrite proxies_track.
  - (* day-4 *)
    unfold bind at 1. rewrite i_get_S. unfold get_step.
    rewrite (raw_get_own_data _ _ _ _ Hk). unfold bind, modify.
    cbn [truthy isObject andb track_on identity reactive]. unfold new_proxy.
    now rewrite proxies_track.
  - (* day-6 *)
    unfold bind at 1. rewrite i_get_S. unfold get_step.
    rewrite (raw_get_own_data _ _ _ _ Hk). unfold bind, modify.
    cbn [truthy isObject andb track_on identity reactive]. unfold new_proxy.
    now rewrite proxies_track.
  - (* day-7 *)
    unfold bind at 1. rewrite i_get_S. unfold get_step.
    rewrite (raw_get_own_data _ _ _ _ Hk). unfold bind at 1.
    rewrite (isRef_plain_object Day7 n a s Hplain). unfold bind, modify.
    cbn [truthy isObject andb track_on identity reactive]. unfold new_proxy.
    now rewrite proxies_track.
Qed.

(** A read of a property that holds no object, through any proxy of a
    raw object. *)
Lemma read_through_wrapper :
  forall (F : file) (n w a : nat) (k : key) (v : value) (s : State),
    has_reactive F = true ->
    own_data a k s = Some v ->
    isObject v = false ->
    i_get (interp F (2 + n)) (VProxy w Reactive (VObj a)) k s
      = Ok v (track (OAddr a) k s).
Proof.
  intros F n w a k v s HF Hk Hv.
  cbn [Nat.add]. rewrite i_get_S. unfold get_step, proxy_get.
  destruct F; try discriminate HF.
  - unfold bind at 1. rewrite i_get_S. unfold get_step.
    rewrite (raw_get_own_data _ _ _ _ Hk). unfold bind, modify.
    rewrite Hv, andb_false_r. reflexivity.
  - unfold bind at 1. rewrite i_get_S. unfold get_step.
    rewrite (raw_get_own_data _ _ _ _ Hk). unfold bind, modify.
    unfold reactive. rewrite Hv. reflexivity.
  - unfold bind at 1. rewrite i_get_S. unfold get_step.
    rewrite (raw_get_own_data _ _ _ _ Hk). unfold bind, modify.
    rewrite Hv, andb_false_r. reflexivity.
  - unfold bind at 1. rewrite i_get_S. unfold get_step.
    rewrite (raw_get_own_data _ _ _ _ Hk). unfold bind at 1.
    rewrite (isRef_primitive Day7 n v s Hv). unfold bind, modify.
    rewrite Hv. reflexivity.
Qed.

Lemma is_array_plain :
  forall (a : nat) (o : obj) (s : State),
    heap_get a s = Some o -> arr_length o = None ->
    is_array (VObj a) s = false.
Proof. intros a o s Ho Hl. cbn. now rewrite Ho, Hl. Qed.

(** A write that changes a data property of a plain object, through any
    proxy of it: the value is stored and the key of the raw object is
    triggered, as the script triggers. *)
Lemma write_through_wrapper :
  forall (F : file) (n w a : nat) (k : key) (o : obj) (old v : value) (s : State),
    has_reactive F = true ->
    heap_get a s = Some o ->
    arr_length o = None ->
    slot_value o k = Some old ->
    isObject old = false ->
    strict_eq old v = false ->
    i_set (interp F (2 + n)) (VProxy w Reactive (VObj a)) k v s
      = (do_trigger F (interp F (S n)) (OAddr a) k ;; ret true)
          (heap_set a (mkObj (alist_set key_eqb k (Data v) (props o)) None) s).
Proof.
  intros F n w a k o old v s HF Ho Hplain Hold Hprim Hneq.
  cbn [Nat.add]. rewrite i_set_S. unfold set_step, proxy_set.
  destruct F; try discriminate HF.
  - unfold bind at 1. rewrite i_get_S. unfold get_step.
    rewrite (raw_get_slot_value _ a k s Ho (or_introl Hplain) Hold).
    unfold bind at 1. rewrite i_set_S. unfold set_step.
    rewrite (raw_set_slot_value Day2 _ a k v s Ho Hold).
    unfold write_data. rewrite Hplain. unfold bind at 1 2. unfold modify at 1.
    unfold ret at 1. rewrite Hneq. cbn [andb negb]. unfold trigger_on.
    cbn [identity]. reflexivity.
  - unfold bind at 1. rewrite i_get_S. unfold get_step.
    rewrite (raw_get_slot_value _ a k s Ho (or_introl Hplain) Hold).
    unfold bind at 1. rewrite i_set_S. unfold set_step.
    rewrite (raw_set_slot_value Day4 _ a k v s Ho Hold).
    unfold write_data. rewrite Hplain. unfold bind at 1 2. unfold modify at 1.
    unfold ret at 1. rewrite Hneq. cbn [andb negb]. unfold trigger_on.
    cbn [identity]. reflexivity.
  - unfold bind at 1. rewrite i_get_S. unfold get_step.
    rewrite (raw_get_slot_value _ a k s Ho (or_introl Hplain) Hold).
    unfold bind at 1. rewrite i_set_S. unfold set_step.
    rewrite (raw_set_slot_value Day6 _ a k v s Ho Hold).
    unfold write_data. rewrite Hplain. unfold bind at 1 2. unfold modify at 1.
    unfold ret at 1. rewrite Hneq. cbn [andb negb]. unfold trigger_on.
    cbn [identity]. reflexivity.
  - unfold bind at 1. unfold gets at 1. rewrite (is_array_plain a s Ho Hplain).
    unfold bind at 1. rewrite i_get_S. unfold get_step.
    rewrite (raw_get_slot_value _ a k s Ho (or_introl Hplain) Hold).
    unfold bind at 1. rewrite (isRef_primitive Day7 n old s Hprim).
    unfold bind at 1. unfold ret at 1. cbn [andb].
    unfold bind at 1. rewrite i_set_S. unfold set_step.
    rewrite (raw_set_slot_value Day7 _ a k v s Ho Hold).
    unfold write_data. rewrite Hplain. unfold bind at 1 2. unfold modify at 1.
    unfold ret at 1. rewrite Hneq. cbn [andb negb]. unfold trigger_on.
    cbn [identity]. reflexivity.
Qed.



(** ** computed (day-4, day-6, day-7) *)

Lemma calls_track :
  forall (t : objid) (k : key) (s : State), calls (track t k s) = calls s.
Proof. intros. unfold track. now destruct (activeEffect s). Qed.

Lemma computeds_track :
  forall (t : objid) (k : key) (s : State), computeds (track t k s) = computeds s.
Proof. intros. unfold track. now destruct (activeEffect s). Qed.

Lemma calls_queueJob :
  forall (j : job) (s : State), calls (queueJob j s) = calls s.
Proof. intros j s. unfold queueJob. cbn. now destruct (isFlushPending s). Qed.

Lemma computeds_queueJob :
  forall (j : job) (s : State), computeds (queueJob j s) = computeds s.
Proof. intros j s. unfold queueJob. cbn. now destruct (isFlushPending s). Qed.

Lemma trigger_frame_calls :
  forall (t : objid) (k : key) (s : State),
    calls (trigger t k s) = calls s /\ computeds (trigger t k s) = computeds s.
Proof.
  intros t k s. unfold trigger.
  destruct (alist_get objid_eqb t (targetMap s)) as [m|]; [|now split].
  destruct (alist_get key_eqb k m) as [dep|]; [|now split].
  revert s. induction dep as [|d dep IH]; intros s; cbn; [now split|].
  destruct (IH (queueJob d s)) as [H1 H2].
  now rewrite H1, H2, calls_queueJob, computeds_queueJob.
Qed.

Lemma calls_set_dirty :
  forall (c : nat) (d : bool) (s : State), calls (set_dirty c d s) = calls s.
Proof. intros. unfold set_dirty. now destruct (nth_error (computeds s) c). Qed.

Lemma calls_set_value :
  forall (c : nat) (v : value) (s : State), calls (set_value c v s) = calls s.
Proof. intros. unfold set_value. now destruct (nth_error (computeds s) c). Qed.

Lemma calls_popEffect : forall (s : State), calls (popEffect s) = calls s.
Proof. reflexivity. Qed.

Lemma computeds_popEffect : forall (s : State), computeds (popEffect s) = computeds s.
Proof. reflexivity. Qed.

Lemma nth_error_list_update_same :
  forall (A : Type) (l : list A) (i : nat) (x y : A),
    nth_error l i = Some y -> nth_error (list_update i x l) i = Some x.
Proof.
  intros A l. induction l as [|a l IH]; intros [|i] x y H; cbn in *;
    try discriminate; [reflexivity|]. now apply (IH i x y).
Qed.

Lemma dirty_of_set_dirty :
  forall (c : nat) (d : bool) (s : State),
    dirty_of c (set_dirty c d s) = match nth_error (computeds s) c with
                                   | Some _ => d
                                   | None => false
                                   end.
Proof.
  intros c d s. unfold set_dirty, dirty_of.
  destruct (nth_error (computeds s) c) as [r|] eqn:E; cbn.
  - now rewrite (nth_error_list_update_same _ _ _ E).
  - now rewrite E.
Qed.

(** A read of a cell that is not dirty: no call, the stored value. *)
Lemma computed_get_clean :
  forall (I : Interp) (c : nat) (s : State),
    dirty_of c s = false ->
    exists s', computed_get I c s = Ok (value_of c s) s' /\
               calls s' = calls s /\ computeds s' = computeds s.
Proof.
  intros I c s Hd. unfold computed_get, dirty_of, value_of in *.
  destruct (nth_error (computeds s) c) as [r|] eqn:E.
  - rewrite Hd. unfold bind, ret, modify, gets. eexists. split; [|split].
    + unfold value_of. rewrite computeds_track, E. reflexivity.
    + apply calls_track.
    + apply computeds_track.
  - eexists. split; [reflexivity|]. now split.
Qed.



(** ** What every operation of the interpreter preserves *)

Section Preservation.
Variable F : file.
Variable P : State -> Prop.
Variable R : State -> State -> Prop.
Variable ok : job -> Prop.

Hypothesis R_refl : forall s, R s s.
Hypothesis R_trans : forall a b c, R a b -> R b c -> R a c.
Hypothesis H_frame : forall s s', P s -> same_engine s s' -> P s' /\ R s s'.
Hypothesis H_track : forall t k s, P s -> P (track t k s) /\ R s (track t k s).
Hypothesis H_trigger : forall t k s, P s -> P (trigger t k s) /\ R s (trigger t k s).
Hypothesis H_push : forall j s, ok j -> P s -> P (pushEffect j s) /\ R s (pushEffect j s).
Hypothesis H_pop : forall s, P s -> P (popEffect s) /\ R s (popEffect s).
Hypothesis H_active :
  forall j s, ok j -> P s ->
    P (set_activeEffect (Some j) s) /\ R s (set_activeEffect (Some j) s).
Hypothesis H_idle :
  forall s, P s -> P (set_activeEffect None s) /\ R s (set_activeEffect None s).
Hypothesis H_record :
  forall c s, ok_call ok c -> P s -> P (record c s) /\ R s (record c s).
Hypothesis H_new_effect :
  forall body s, P s ->
    let s' := set_effects (effects s ++ [mkEffect body None]) s in
    P s' /\ R s s' /\ ok (Wrapped (List.length (effects s))).
Hypothesis H_queueJob :
  forall j s, ok j -> P s -> P (queueJob j s) /\ R s (queueJob j s).
Hypothesis H_queue_delete :
  forall j s, P s ->
    let s' := set_queue (queue_delete j (queue s)) s in P s' /\ R s s'.
Hypothesis H_removeEffect :
  forall j s, P s -> P (removeEffect j s) /\ R s (removeEffect j s).
Hypothesis H_deps_ok :
  forall t k i j s, P s -> nth_error (deps_of t k s) i = Some j -> ok j.
Hypothesis ok_computed : forall c, ok (ComputedEffect c).

Lemma sound_ret : forall (A : Type) (a : A), sound P R (ret a).
Proof. intros A a s HP. cbn. auto. Qed.

Lemma sound_throw : forall (A : Type) (e : string), sound P R (@throw A e).
Proof. intros A e s HP. cbn. auto. Qed.

Lemma sound_timeout : forall (A : Type), sound P R (@timeout A).
Proof. intros A s HP. exact Logic.I. Qed.

Lemma sound_gets : forall (A : Type) (f : State -> A), sound P R (gets f).
Proof. intros A f s HP. cbn. auto. Qed.

Lemma sound_bind :
  forall (A B : Type) (m : M A) (k : A -> M B),
    sound P R m -> (forall a, sound P R (k a)) -> sound P R (bind m k).
Proof.
  intros A B m k Hm Hk s HP. unfold bind. specialize (Hm s HP).
  destruct (m s) as [a s1|e s1|]; [|exact Hm|exact Logic.I].
  destruct Hm as [HP1 HR1]. specialize (Hk a s1 HP1).
  destruct (k a s1) as [b s2|e s2|]; [| |exact Logic.I];
    (split; [apply Hk|apply (R_trans HR1); apply Hk]).
Qed.

Lemma sound_modify :
  forall (f : State -> State),
    (forall s, P s -> P (f s) /\ R s (f s)) -> sound P R (modify f).
Proof. intros f Hf s HP. cbn. now apply Hf. Qed.

Lemma sound_finally :
  forall (A : Type) (m : M A) (h : State -> State),
    sound P R m -> (forall s, P s -> P (h s) /\ R s (h s)) -> sound P R (finally m h).
Proof.
  intros A m h Hm Hh s HP. unfold finally. specialize (Hm s HP).
  destruct (m s) as [a s1|e s1|]; [| |exact Logic.I];
    destruct Hm as [HP1 HR1]; destruct (Hh s1 HP1) as [HP2 HR2];
    (split; [exact HP2|exact (R_trans HR1 HR2)]).
Qed.

Lemma sound_frame :
  forall (f : State -> State),
    (forall s, same_engine s (f s)) -> sound P R (modify f).
Proof. intros f Hf. apply sound_modify. intros s HP. now apply H_frame. Qed.

Lemma same_engine_refl : forall s, same_engine s s.
Proof. intros s. now repeat split. Qed.

Lemma sound_alloc : forall (o : obj), sound P R (alloc o).
Proof. intros o s HP. unfold alloc. apply H_frame; [exact HP|]. now repeat split. Qed.

Lemma sound_new_proxy :
  forall (kind : proxy_kind) (t : value), sound P R (new_proxy kind t).
Proof.
  intros kind t s HP. unfold new_proxy. apply H_frame; [exact HP|]. now repeat split.
Qed.

Lemma sound_reactive : forall (v : value), sound P R (reactive F v).
Proof.
  intros v. unfold reactive.
  destruct F; destruct (isObject v);
    first [apply sound_new_proxy | apply sound_throw | apply sound_ret].
Qed.

Lemma sound_readonly : forall (v : value), sound P R (readonly F v).
Proof.
  intros v. unfold readonly.
  destruct F; try apply sound_throw. destruct (isObject v);
    first [apply sound_new_proxy | apply sound_throw].
Qed.

Lemma sound_track_on : forall (t : value) (k : key), sound P R (modify (track_on t k)).
Proof.
  intros t k. apply sound_modify. intros s HP. unfold track_on.
  destruct (identity t); [now apply H_track|auto].
Qed.

Lemma same_engine_heap_set :
  forall (a : nat) (o : obj) (s : State), same_engine s (heap_set a o s).
Proof. intros. now repeat split. Qed.

Lemma same_engine_set_value :
  forall (c : nat) (v : value) (s : State), same_engine s (set_value c v s).
Proof.
  intros. unfold set_value. destruct (nth_error (computeds s) c); now repeat split.
Qed.

Lemma same_engine_set_dirty :
  forall (c : nat) (d : bool) (s : State), same_engine s (set_dirty c d s).
Proof.
  intros. unfold set_dirty. destruct (nth_error (computeds s) c); now repeat split.
Qed.

Lemma length_list_update :
  forall (A : Type) (l : list A) (i : nat) (x : A),
    List.length (list_update i x l) = List.length l.
Proof.
  intros A l. induction l as [|a l IH]; intros [|i] x; cbn; try reflexivity.
  now rewrite IH.
Qed.

Lemma same_engine_set_cleanup :
  forall (e : nat) (c : option prog) (s : State), same_engine s (set_cleanup e c s).
Proof.
  intros. unfold set_cleanup. destruct (nth_error (effects s) e).
  - repeat split. cbn. apply length_list_update.
  - now repeat split.
Qed.

Lemma same_engine_warn : forall (m : string) (s : State), same_engine s (warn m s).
Proof. intros. now repeat split. Qed.

Lemma same_engine_log : forall (v : value) (s : State), same_engine s (log v s).
Proof. intros. now repeat split. Qed.

Section OneLevel.
Variable I : Interp.
Hypothesis H_get : forall o k, sound P R (i_get I o k).
Hypothesis H_set : forall o k v, sound P R (i_set I o k v).
Hypothesis H_del : forall o k, sound P R (i_delete I o k).
Hypothesis H_call : forall j, ok j -> sound P R (i_call I j).
Hypothesis H_run : forall p, sound P R (i_run I p).

Lemma sound_trigger_loop :
  forall (steps : nat) (t : objid) (k : key) (i : nat),
    sound P R (trigger_loop I steps t k i).
Proof.
  intros steps. induction steps as [|n IH]; intros t k i; [apply sound_timeout|].
  intros s HP. cbn [trigger_loop].
  destruct (nth_error (deps_of t k s) i) as [e|] eqn:E; [|cbn; auto].
  exact (@sound_bind _ _ _ _ (@H_call e (@H_deps_ok t k i e s HP E))
           (fun _ => IH t k (S i)) s HP).
Qed.

Lemma sound_do_trigger : forall (t : objid) (k : key), sound P R (do_trigger F I t k).
Proof.
  intros t k. unfold do_trigger.
  destruct F; first [apply sound_trigger_loop | apply sound_modify; apply H_trigger].
Qed.

Lemma sound_trigger_on : forall (t : value) (k : key), sound P R (trigger_on F I t k).
Proof.
  intros t k. unfold trigger_on.
  destruct (identity t); [apply sound_do_trigger|apply sound_ret].
Qed.

Lemma sound_isRef : forall (v : value), sound P R (isRef I v).
Proof.
  intros v. unfold isRef. destruct (truthy v); [|apply sound_ret].
  apply sound_bind; [apply H_get|intros; apply sound_ret].
Qed.

Lemma sound_computed_get : forall (c : nat), sound P R (computed_get I c).
Proof.
  intros c s HP. unfold computed_get.
  destruct (nth_error (computeds s) c) as [r|]; [|cbn; auto].
  revert s HP. change (sound P R ((if c_dirty r then
              modify (pushEffect (ComputedEffect c)) ;;
              modify (record (CGetter c)) ;;
              v <- i_run I (c_getter r) ;;
              modify (set_value c v) ;;
              modify popEffect ;;
              modify (set_dirty c false)
            else ret tt) ;;
           modify (track (OAddr (c_self r)) k_value) ;;
           gets (value_of c))%engine).
  apply sound_bind.
  - destruct (c_dirty r); [|apply sound_ret].
    apply sound_bind; [apply sound_modify; intros; now apply H_push|intros _].
    apply sound_bind; [apply sound_modify; intros; now apply H_record|intros _].
    apply sound_bind; [apply H_run|intros v].
    apply sound_bind; [apply sound_frame; apply same_engine_set_value|intros _].
    apply sound_bind; [apply sound_modify; apply H_pop|intros _].
    apply sound_frame; apply same_engine_set_dirty.
  - intros _. apply sound_bind; [apply sound_modify; apply H_track|intros _].
    apply sound_gets.
Qed.

Lemma sound_raw_get : forall (a : nat) (k : key), sound P R (raw_get I a k).
Proof.
  intros a k s HP. unfold raw_get.
  destruct (heap_get a s) as [o|]; [|cbn; auto].
  assert (Hslot : match match alist_get key_eqb k (props o) with
                        | Some (Data v) => Ok v s
                        | Some (RefAccessor v) => Ok v (track (OAddr a) k_value s)
                        | Some (ComputedAccessor c) => computed_get I c s
                        | None => Ok VUndef s
                        end with
                  | Ok _ s' | Throw _ s' => P s' /\ R s s'
                  | Timeout => True
                  end).
  { destruct (alist_get key_eqb k (props o)) as [[v|v|c]|];
      [cbn; auto|now apply H_track|exact (@sound_computed_get c s HP)|cbn; auto]. }
  destruct (arr_length o); [destruct (key_eqb k k_length)|]; cbn; auto.
Qed.

Lemma sound_proxy_get :
  forall (kind : proxy_kind) (t : value) (k : key), sound P R (proxy_get F I kind t k).
Proof.
  intros kind t k. unfold proxy_get.
  pose proof sound_reactive as Hre. pose proof sound_readonly as Hro.
  destruct F.
  1, 3, 5:
    (apply sound_bind; [apply H_get|intros res];
     apply sound_bind; [apply sound_track_on|intros _];
     destruct (truthy res && isObject res); [|apply sound_ret];
     destruct kind; [apply Hre|apply Hro]).
  - apply sound_bind; [apply H_get|intros res].
    apply sound_bind; [apply sound_track_on|intros _]. apply Hre.
  - apply sound_bind; [apply H_get|intros res].
    apply sound_bind; [apply sound_isRef|intros r].
    destruct r; [apply H_get|].
    apply sound_bind; [apply sound_track_on|intros _].
    destruct (isObject res); [apply Hre|apply sound_ret].
Qed.

Lemma sound_get_step : forall (o : value) (k : key), sound P R (get_step F I o k).
Proof.
  intros o k. unfold get_step.
  destruct o; first [apply sound_raw_get | apply sound_proxy_get
                    | apply sound_throw | apply sound_ret].
Qed.

Lemma sound_assign : forall (o : value) (k : key) (v : value), sound P R (assign I o k v).
Proof.
  intros o k v. unfold assign.
  destruct o; try apply sound_throw; try apply sound_ret;
    (apply sound_bind; [apply H_set|intros; apply sound_ret]).
Qed.

Lemma sound_write_data :
  forall (a : nat) (o : obj) (k : key) (v : value), sound P R (write_data a o k v).
Proof.
  intros a o k v. unfold write_data.
  destruct (arr_length o) as [n|].
  - destruct k as [name|i].
    + destruct (key_eqb (KName name) k_length).
      * destruct (to_length v) as [m| |];
          [|apply sound_throw|apply sound_timeout].
        apply sound_bind; [apply sound_frame; intros; apply same_engine_heap_set
                          |intros; apply sound_ret].
      * apply sound_bind; [apply sound_frame; intros; apply same_engine_heap_set
                          |intros; apply sound_ret].
    + apply sound_bind; [apply sound_frame; intros; apply same_engine_heap_set
                        |intros; apply sound_ret].
  - apply sound_bind; [apply sound_frame; intros; apply same_engine_heap_set
                      |intros; apply sound_ret].
Qed.

Lemma sound_raw_set :
  forall (a : nat) (k : key) (v : value), sound P R (raw_set F I a k v).
Proof.
  intros a k v s HP. unfold raw_set.
  destruct (heap_get a s) as [o|]; [|cbn; auto].
  destruct (alist_get key_eqb k (props o)) as [[x|x|c]|];
    try exact (@sound_write_data a o k v s HP); [|cbn; auto].
  revert s HP.
  change (sound P R (nv <- (match F with Day6 => reactive F v | _ => ret v end) ;;
                modify (heap_set a
                  (mkObj (alist_set key_eqb k (RefAccessor nv) (props o))
                         (arr_length o))) ;;
                do_trigger F I (OAddr a) k_value ;;
                ret true)%engine).
  apply sound_bind.
  - pose proof sound_reactive as Hre.
    destruct F; first [apply sound_ret | apply Hre].
  - intros nv. apply sound_bind;
      [apply sound_frame; intros; apply same_engine_heap_set|intros _].
    apply sound_bind; [apply sound_do_trigger|intros; apply sound_ret].
Qed.

Lemma sound_after_write :
  forall (b : bool) (t : value) (k : key),
    sound P R (if b then trigger_on F I t k else ret tt).
Proof. intros [] t k; [apply sound_trigger_on|apply sound_ret]. Qed.

Lemma sound_proxy_set :
  forall (kind : proxy_kind) (t : value) (k : key) (v : value),
    sound P R (proxy_set F I kind t k v).
Proof.
  intros kind t k v. unfold proxy_set. destruct kind.
  2: { apply sound_bind; [apply sound_frame; intros; apply same_engine_warn
                         |intros; apply sound_ret]. }
  pose proof sound_after_write as Haw. pose proof sound_trigger_on as Hto.
  destruct F.
  1, 3, 5:
    (apply sound_bind; [apply H_get|intros old];
     apply sound_bind; [apply H_set|intros result];
     apply sound_bind; [apply Haw|intros; apply sound_ret]).
  - apply sound_bind; [apply H_get|intros old].
    apply sound_bind; [apply H_set|intros result].
    apply sound_bind; [apply Haw|intros; apply sound_ret].
  - apply sound_bind; [apply sound_gets|intros arr]. destruct arr.
    + apply sound_bind; [apply H_get|intros old].
      apply sound_bind; [apply H_set|intros result].
      apply sound_bind; [|intros; apply sound_ret].
      destruct (result && negb (strict_eq old v)); [|apply sound_ret].
      apply sound_bind; [apply Hto|intros _].
      destruct (negb (key_eqb k k_length)); [apply Hto|apply sound_ret].
    + apply sound_bind; [apply H_get|intros old].
      apply sound_bind; [apply sound_isRef|intros a].
      apply sound_bind; [destruct a; [apply sound_isRef|apply sound_ret]|intros b].
      destruct (a && negb b).
      * apply sound_bind; [apply sound_assign|intros; apply sound_ret].
      * apply sound_bind; [apply H_set|intros result].
        apply sound_bind; [apply Haw|intros; apply sound_ret].
Qed.

Lemma sound_set_step :
  forall (o : value) (k : key) (v : value), sound P R (set_step F I o k v).
Proof.
  intros o k v. unfold set_step.
  destruct o; first [apply sound_raw_set | apply sound_proxy_set | apply sound_throw].
Qed.

Lemma sound_raw_delete : forall (a : nat) (k : key), sound P R (raw_delete a k).
Proof.
  intros a k s HP. unfold raw_delete.
  destruct (heap_get a s) as [o|]; [|cbn; auto].
  destruct (arr_length o); [destruct (key_eqb k k_length)|]; cbn; auto;
    apply H_frame; auto; apply same_engine_heap_set.
Qed.

Lemma sound_proxy_delete :
  forall (kind : proxy_kind) (t : value) (k : key), sound P R (proxy_delete F I kind t k).
Proof.
  intros kind t k. unfold proxy_delete. destruct kind.
  2: { apply sound_bind; [apply sound_frame; intros; apply same_engine_warn
                         |intros _].
       apply sound_bind; [apply sound_gets|intros fixed].
       destruct fixed; [apply sound_throw|apply sound_ret]. }
  pose proof sound_after_write as Haw.
  destruct F; try apply H_del;
    (apply sound_bind; [apply sound_gets|intros had];
     apply sound_bind; [apply H_del|intros result];
     apply sound_bind; [apply Haw|intros; apply sound_ret]).
Qed.

Lemma sound_delete_step : forall (o : value) (k : key), sound P R (delete_step F I o k).
Proof.
  intros o k. unfold delete_step.
  destruct o; first [apply sound_raw_delete | apply sound_proxy_delete
                    | apply sound_throw | apply sound_ret].
Qed.

Lemma sound_run_cleanup : forall (e : nat), sound P R (run_cleanup I e).
Proof.
  intros e s HP. unfold run_cleanup.
  destruct (cleanup_of e s) as [c|]; [|cbn; auto].
  revert s HP. change (sound P R (modify (record (CCleanup e)) ;; i_run I c ;; ret tt)%engine).
  apply sound_bind; [apply sound_modify; intros; now apply H_record|intros _].
  apply sound_bind; [apply H_run|intros; apply sound_ret].
Qed.

Lemma sound_run_body :
  forall (e : nat) (r : effect_rec), ok (Wrapped e) -> sound P R (run_body I e r).
Proof.
  intros e r He. unfold run_body.
  apply sound_bind; [apply sound_modify; intros; now apply H_record|intros _].
  apply sound_bind; [apply H_run|intros; apply sound_ret].
Qed.

Lemma sound_wrappedEffect :
  forall (e : nat), ok (Wrapped e) -> sound P R (wrappedEffect F I e).
Proof.
  intros e He s HP. unfold wrappedEffect.
  destruct (nth_error (effects s) e) as [r|]; [|cbn; auto].
  assert (Hstack : sound P R (run_cleanup I e ;;
                         modify (pushEffect (Wrapped e)) ;;
                         modify (set_cleanup e None) ;;
                         finally (run_body I e r) popEffect)%engine).
  { apply sound_bind; [apply sound_run_cleanup|intros _].
    apply sound_bind; [apply sound_modify; intros; now apply H_push|intros _].
    apply sound_bind; [apply sound_frame; intros; apply same_engine_set_cleanup|intros _].
    apply sound_finally; [now apply sound_run_body|apply H_pop]. }
  destruct F; try exact (Hstack s HP).
  - revert s HP.
    change (sound P R (modify (set_activeEffect (Some (Wrapped e))) ;;
                  finally (run_body I e r) (set_activeEffect None))%engine).
    apply sound_bind; [apply sound_modify; intros; now apply H_active|intros _].
    apply sound_finally; [now apply sound_run_body|apply H_idle].
  - revert s HP.
    change (sound P R (run_cleanup I e ;;
                  modify (set_activeEffect (Some (Wrapped e))) ;;
                  modify (set_cleanup e None) ;;
                  finally (run_body I e r) (set_activeEffect None))%engine).
    apply sound_bind; [apply sound_run_cleanup|intros _].
    apply sound_bind; [apply sound_modify; intros; now apply H_active|intros _].
    apply sound_bind; [apply sound_frame; intros; apply same_engine_set_cleanup|intros _].
    apply sound_finally; [now apply sound_run_body|apply H_idle].
Qed.

Lemma sound_computedEffect : forall (c : nat), sound P R (computedEffect F I c).
Proof.
  intros c s HP. unfold computedEffect.
  destruct (nth_error (computeds s) c) as [r|]; [|cbn; auto].
  revert s HP.
  change (sound P R (modify (set_dirty c true) ;;
                do_trigger F I (OAddr (c_self r)) k_value)%engine).
  apply sound_bind; [apply sound_frame; intros; apply same_engine_set_dirty|intros _].
  apply sound_do_trigger.
Qed.

Lemma sound_call_step : forall (j : job), ok j -> sound P R (call_step F I j).
Proof.
  intros [e|c] Hj; cbn [call_step];
    [now apply sound_wrappedEffect|apply sound_computedEffect].
Qed.

Lemma sound_ref : forall (v : value), sound P R (ref F v).
Proof.
  intros v. unfold ref. pose proof sound_reactive as Hre.
  destruct F; try apply sound_alloc.
  - apply sound_bind; [apply Hre|intros; apply sound_alloc].
  - apply sound_bind; [apply sound_alloc|intros; apply Hre].
Qed.

Lemma sound_computed : forall (g : prog), sound P R (computed F g).
Proof.
  intros g. unfold computed.
  destruct F; try apply sound_throw;
    (intros s HP; apply H_frame; [exact HP|now repeat split]).
Qed.

Lemma sound_watchEffect : forall (body : nat -> prog), sound P R (watchEffect F body).
Proof.
  intros body. unfold watchEffect.
  destruct F; try apply sound_throw;
    (intros s HP; destruct (@H_new_effect body s HP) as (HP1 & HR1 & Hok);
     destruct (@H_queueJob (Wrapped (List.length (effects s))) _ Hok HP1) as [HP2 HR2];
     split; [exact HP2|exact (R_trans HR1 HR2)]).
Qed.

Lemma sound_stop : forall (e : nat), sound P R (stop F I e).
Proof.
  intros e. unfold stop.
  assert (Hq : sound P R (modify (fun s' => set_queue (queue_delete (Wrapped e) (queue s')) s'))).
  { apply sound_modify. intros s HP. exact (@H_queue_delete (Wrapped e) s HP). }
  destruct F; try apply sound_throw;
    (intros s HP; destruct (nth_error (effects s) e); [|cbn; auto];
     revert s HP;
     match goal with
     | |- forall s, P s -> match ?m s with _ => _ end => change (sound P R m)
     end;
     apply sound_bind; [exact Hq|intros _];
     apply sound_bind; [apply sound_run_cleanup|intros _];
     first [apply sound_throw | apply sound_modify; apply H_removeEffect]).
Qed.

Lemma sound_effect : forall (body : prog), sound P R (effect F I body).
Proof.
  intros body. unfold effect. pose proof sound_wrappedEffect as Hw.
  destruct F; try apply sound_throw.
  intros s HP. destruct (@H_new_effect (fun _ => body) s HP) as (HP1 & HR1 & Hok).
  pose proof (Hw _ Hok _ HP1) as H.
  destruct (wrappedEffect Day2 I _ _) as [x s2|x s2|]; [| |exact Logic.I];
    (split; [apply H|apply (R_trans HR1); apply H]).
Qed.

Lemma sound_exec : forall (p : prog), sound P R (exec F I p).
Proof.
  intros p. induction p; cbn [exec].
  - apply sound_ret.
  - apply sound_throw.
  - apply sound_bind; [apply H_get|auto].
  - apply sound_bind; [apply sound_assign|auto].
  - apply sound_bind; [apply H_del|auto].
  - apply sound_bind; [apply sound_alloc|auto].
  - apply sound_bind; [apply sound_alloc|auto].
  - apply sound_bind; [apply sound_ref|auto].
  - apply sound_bind; [apply sound_reactive|auto].
  - apply sound_bind; [apply sound_readonly|auto].
  - apply sound_bind; [apply sound_computed|auto].
  - apply sound_bind; [apply sound_watchEffect|auto].
  - apply sound_bind; [apply sound_stop|auto].
  - apply sound_bind; [apply sound_frame; intros; apply same_engine_set_cleanup|auto].
  - apply sound_bind; [apply sound_effect|auto].
  - apply sound_bind; [apply sound_frame; intros; apply same_engine_log|auto].
Qed.

Lemma sound_one_level :
  forall (n : nat),
    sound_interp P R ok
      (mkInterp n (get_step F I) (set_step F I) (delete_step F I)
         (call_step F I) (exec F I)).
Proof.
  intros n. repeat split; cbn [i_get i_set i_delete i_call i_run].
  - apply sound_get_step.
  - apply sound_set_step.
  - apply sound_delete_step.
  - apply sound_call_step.
  - apply sound_exec.
Qed.
End OneLevel.

(** Every entry of the interpreter, at every depth. *)
Lemma interp_sound : forall (n : nat), sound_interp P R ok (interp F n).
Proof.
  induction n as [|n IH].
  - repeat split; intros; apply sound_timeout.
  - cbn [interp]. destruct IH as (Hg & Hs & Hd & Hc & Hr).
    now apply sound_one_level.
Qed.

Lemma run_sound : forall (n : nat) (p : prog), sound P R (run F n p).
Proof.
  intros n p. unfold run. destruct (interp_sound n) as (Hg & Hs & Hd & Hc & Hr).
  now apply sound_exec.
Qed.
End Preservation.

(** ** The job queue during a pass *)

Lemma evolves_trans :
  forall q1 q2 q3, evolves q1 q2 -> evolves q2 q3 -> evolves q1 q3.
Proof.
  intros q1 q2 q3 H12 H23. induction H12.
  - exact H23.
  - apply evolves_add with (j := j). now apply IHevolves.
  - apply evolves_delete with (j := j). now apply IHevolves.
Qed.

Lemma evolves_queue_add : forall j q, evolves q (queue_add j q).
Proof. intros j q. apply evolves_add with (j := j). apply evolves_refl. Qed.

Lemma evolves_queue_delete : forall j q, evolves q (queue_delete j q).
Proof. intros j q. apply evolves_delete with (j := j). apply evolves_refl. Qed.

Lemma queue_add_nth :
  forall j q i x, nth_error q i = Some x -> nth_error (queue_add j q) i = Some x.
Proof.
  intros j q i x H. unfold queue_add. destruct (queue_has j q); [exact H|].
  rewrite nth_error_app1; [exact H|]. apply nth_error_Some. now rewrite H.
Qed.

Lemma queue_delete_nth :
  forall j q i x,
    nth_error q i = Some x ->
    nth_error (queue_delete j q) i = Some x \/
    nth_error (queue_delete j q) i = Some None.
Proof.
  intros j q i x H. unfold queue_delete. rewrite nth_error_map, H. cbn.
  destruct (is_job j x); auto.
Qed.

(** Positions are stable: an entry stays where it is, or becomes a hole;
    a hole stays a hole. *)
Lemma evolves_nth :
  forall q q', evolves q q' ->
    forall i x, nth_error q i = Some x ->
      nth_error q' i = Some x \/ nth_error q' i = Some None.
Proof.
  intros q q' H. induction H; intros i x Hx.
  - now left.
  - apply IHevolves. now apply queue_add_nth.
  - destruct (queue_delete_nth j _ _ Hx) as [H1|H1].
    + now apply IHevolves.
    + right. destruct (IHevolves _ _ H1) as [H2|H2]; exact H2.
Qed.

Lemma evolves_length :
  forall q q', evolves q q' -> List.length q <= List.length q'.
Proof.
  intros q q' H. induction H.
  - lia.
  - etransitivity; [|exact IHevolves]. unfold queue_add.
    destruct (queue_has j q); [lia|]. rewrite length_app. lia.
  - etransitivity; [|exact IHevolves]. unfold queue_delete.
    now rewrite length_map.
Qed.

Lemma queue_delete_no_holes :
  forall j q, no_holes (queue_delete j q) -> queue_delete j q = q.
Proof.
  intros j q. induction q as [|x q IH]; intros H; [reflexivity|].
  cbn. pose proof (H 0) as H0. cbn in H0.
  destruct (is_job j x) eqn:E; [now contradiction H0|].
  f_equal. apply IH. intros i. apply (H (S i)).
Qed.

Lemma no_holes_app_l : forall q r, no_holes (q ++ r) -> no_holes q.
Proof.
  intros q r H i Hi. apply (H i). rewrite nth_error_app1; [exact Hi|].
  apply nth_error_Some. now rewrite Hi.
Qed.

(** When the queue has no hole in the end, nothing was deleted: the
    queue has only grown. *)
Lemma evolves_no_holes :
  forall q q', evolves q q' -> no_holes q' -> exists r, q' = q ++ r.
Proof.
  intros q q' H. induction H; intros Hn.
  - exists []. now rewrite app_nil_r.
  - destruct (IHevolves Hn) as [r Hr]. unfold queue_add in Hr.
    destruct (queue_has j q); [now exists r|].
    exists ([Some j] ++ r). now rewrite app_assoc.
  - destruct (IHevolves Hn) as [r Hr].
    assert (Hd : no_holes (queue_delete j q))
      by (apply no_holes_app_l with (r := r); now rewrite <- Hr).
    rewrite (@queue_delete_no_holes j q Hd) in Hr. now exists r.
Qed.

Lemma pending_queue_delete :
  forall j q,
    pending (queue_delete j q) = filter (fun x => negb (job_eqb j x)) (pending q).
Proof.
  intros j q. unfold queue_delete.
  induction q as [|[x|] q IH]; cbn [map pending is_job filter];
    [reflexivity| |exact IH].
  destruct (job_eqb j x); cbn [pending negb filter]; [exact IH|now rewrite IH].
Qed.

Lemma evolves_nodup :
  forall q q', evolves q q' -> NoDup (pending q) -> NoDup (pending q').
Proof.
  intros q q' H. induction H; intros Hn.
  - exact Hn.
  - apply IHevolves. unfold queue_add. destruct (queue_has j q) eqn:E; [exact Hn|].
    rewrite pending_app. cbn. apply NoDup_app; [exact Hn|repeat constructor; auto|].
    intros x Hx [<-|[]].
    apply queue_has_pending in Hx. congruence.
  - apply IHevolves. rewrite pending_queue_delete. now apply NoDup_filter.
Qed.

Lemma fold_queueJob_evolves :
  forall (dep : list job) (s : State),
    evolves (queue s) (queue (fold_left (fun s' e => queueJob e s') dep s)).
Proof.
  intros dep. induction dep as [|d dep IH]; intros s; cbn; [apply evolves_refl|].
  apply evolves_trans with (q2 := queue (queueJob d s)); [|apply IH].
  rewrite queue_queueJob. apply evolves_queue_add.
Qed.

Lemma trigger_evolves :
  forall t k s, evolves (queue s) (queue (trigger t k s)).
Proof.
  intros t k s. unfold trigger.
  destruct (alist_get objid_eqb t (targetMap s)) as [m|]; [|apply evolves_refl].
  destruct (alist_get key_eqb k m) as [dep|]; [|apply evolves_refl].
  apply fold_queueJob_evolves.
Qed.

Lemma queue_track : forall t k s, queue (track t k s) = queue s.
Proof. intros. unfold track. now destruct (activeEffect s). Qed.

(** Whatever a job, a read, a write or a closure of script [F] does, it
    changes the queue by additions and deletions only. *)
Lemma interp_evolves :
  forall (F : file) (n : nat),
    sound_interp (fun _ => True) (fun s s' => evolves (queue s) (queue s'))
      (fun _ => True) (interp F n).
Proof.
  intros F n. apply interp_sound.
  - intros s. apply evolves_refl.
  - intros a b c. apply evolves_trans.
  - intros s s' _ H. split; [exact Logic.I|]. destruct H as [-> _]. apply evolves_refl.
  - intros t k s _. split; [exact Logic.I|]. rewrite queue_track. apply evolves_refl.
  - intros t k s _. split; [exact Logic.I|]. apply trigger_evolves.
  - intros j s _ _. split; [exact Logic.I|]. apply evolves_refl.
  - intros s _. split; [exact Logic.I|]. apply evolves_refl.
  - intros j s _ _. split; [exact Logic.I|]. apply evolves_refl.
  - intros s _. split; [exact Logic.I|]. apply evolves_refl.
  - intros c s _ _. split; [exact Logic.I|]. apply evolves_refl.
  - intros body s _. cbn. split; [exact Logic.I|]. split; [apply evolves_refl|exact Logic.I].
  - intros j s _ _. split; [exact Logic.I|]. rewrite queue_queueJob.
    apply evolves_queue_add.
  - intros j s _. cbn. split; [exact Logic.I|]. apply evolves_queue_delete.
  - intros j s _. split; [exact Logic.I|]. apply evolves_refl.
  - intros. exact Logic.I.
  - intros. exact Logic.I.
Qed.

Lemma call_evolves :
  forall (F : file) (n : nat) (j : job) (s : State),
    match i_call (interp F n) j s with
    | Ok _ s' | Throw _ s' => evolves (queue s) (queue s')
    | Timeout => True
    end.
Proof.
  intros F n j s.
  pose proof (proj1 (proj2 (proj2 (proj2 (interp_evolves F n)))) j Logic.I s Logic.I) as H.
  destruct (i_call (interp F n) j s); [apply H|apply H|exact Logic.I].
Qed.

(** ** A pass of flushJobs *)

Section Pass.
Variable I : Interp.
Hypothesis I_evolves :
  forall j s,
    match i_call I j s with
    | Ok _ s' | Throw _ s' => evolves (queue s) (queue s')
    | Timeout => True
    end.

Lemma flush_loop_spec :
  forall (steps i : nat) (s s' : State) (visited : list (nat * job)),
    flush_loop I steps i s = Ok visited s' ->
    evolves (queue s) (queue s') /\
    StronglySorted lt (map fst visited) /\
    Forall (fun p => i <= p) (map fst visited) /\
    (forall p j, i <= p -> nth_error (queue s') p = Some (Some j) ->
                 In (p, j) visited) /\
    (forall p j, In (p, j) visited -> p < List.length (queue s) ->
                 nth_error (queue s) p = Some (Some j)) /\
    (no_holes (queue s') -> map snd visited = pending (skipn i (queue s'))).
Proof.
  induction steps as [|n IH]; intros i s s' visited H; [discriminate|].
  cbn [flush_loop] in H.
  destruct (nth_error (queue s) i) as [[j|]|] eqn:Ei.
  - (* a job *)
    unfold bind in H. pose proof (I_evolves j s) as Hev.
    destruct (i_call I j s) as [[] s1| |]; try discriminate.
    destruct (flush_loop I n (S i) s1) as [rest s2| |] eqn:Hrest; try discriminate.
    cbn in H. injection H as <- <-.
    destruct (IH _ _ _ _ Hrest) as (Hev2 & Hsort & Hbound & Hall & Hinit & Hfull).
    assert (Hevs : evolves (queue s) (queue s2)) by exact (evolves_trans Hev Hev2).
    split; [exact Hevs|]. split; [|split; [|split; [|split]]].
    + cbn. constructor; [exact Hsort|].
      eapply Forall_impl; [|exact Hbound]. cbn. intros p Hp. lia.
    + cbn. constructor; [lia|].
      eapply Forall_impl; [|exact Hbound]. cbn. intros p Hp. lia.
    + intros p j' Hp Hq. destruct (Nat.eq_dec p i) as [->|Hne].
      * left. destruct (evolves_nth Hevs _ Ei) as [E|E]; rewrite E in Hq;
          [now injection Hq as <-|discriminate].
      * right. apply Hall; [lia|exact Hq].
    + intros p j' [E|Hin] Hp.
      * injection E as <- <-. exact Ei.
      * assert (Hp1 : p < List.length (queue s1))
          by (pose proof (evolves_length Hev); lia).
        pose proof (Hinit _ _ Hin Hp1) as H1.
        destruct (nth_error (queue s) p) as [x|] eqn:Ex;
          [|apply nth_error_None in Ex; lia].
        destruct (evolves_nth Hev _ Ex) as [E|E]; rewrite E in H1;
          [now injection H1 as ->|discriminate].
    + intros Hn. cbn [map snd].
      assert (E : nth_error (queue s2) i = Some (Some j)).
      { destruct (evolves_nth Hevs _ Ei) as [E|E]; [exact E|]. now apply Hn in E. }
      rewrite (Hfull Hn).
      clear - E. revert i E. generalize (queue s2) as q.
      induction q as [|x q IHq]; intros [|i] E; cbn in *; try discriminate.
      * now injection E as ->.
      * now apply IHq.
  - (* a hole *)
    destruct (IH _ _ _ _ H) as (Hev & Hsort & Hbound & Hall & Hinit & Hfull).
    split; [exact Hev|]. split; [exact Hsort|]. split; [|split; [|split]].
    + eapply Forall_impl; [|exact Hbound]. cbn. intros p Hp. lia.
    + intros p j Hp Hq. destruct (Nat.eq_dec p i) as [->|Hne].
      * destruct (evolves_nth Hev _ Ei) as [E|E]; rewrite E in Hq; discriminate.
      * apply Hall; [lia|exact Hq].
    + exact Hinit.
    + intros Hn. exfalso.
      destruct (evolves_nth Hev _ Ei) as [E|E]; now apply Hn in E.
  - (* the end of the queue *)
    cbn in H. injection H as <- <-.
    split; [apply evolves_refl|]. split; [constructor|]. split; [constructor|].
    split; [|split].
    + intros p j Hp Hq. apply nth_error_None in Ei.
      assert (Hlt : p < List.length (queue s))
        by (apply nth_error_Some; now rewrite Hq).
      lia.
    + intros p j [].
    + intros _. apply nth_error_None in Ei. now rewrite skipn_all2.
Qed.
End Pass.




(** ** An effect that is stopped before it has run *)

Lemma alist_set_in :
  forall (K V : Type) (eqb : K -> K -> bool) (k : K) (v : V) (l : list (K * V))
         (x : K * V),
    In x (alist_set eqb k v l) -> x = (k, v) \/ In x l.
Proof.
  intros K V eqb k v l x. induction l as [|[k' v'] r IH]; cbn.
  - intros [H|[]]. now left.
  - destruct (eqb k k'); cbn; intros [H|H]; auto.
    destruct (IH H); auto.
Qed.

Lemma alist_get_in :
  forall (K V : Type) (eqb : K -> K -> bool) (k : K) (v : V) (l : list (K * V)),
    alist_get eqb k l = Some v -> exists k', In (k', v) l.
Proof.
  intros K V eqb k v l. induction l as [|[k' v'] r IH]; cbn; [discriminate|].
  destruct (eqb k k').
  - intros H. injection H as ->. exists k'. now left.
  - intros H. destruct (IH H) as [k2 H2]. exists k2. now right.
Qed.

Lemma deps_of_subscribed :
  forall (t : objid) (k : key) (j : job) (s : State),
    In j (deps_of t k s) -> subscribed j s.
Proof.
  intros t k j s H. unfold deps_of in H.
  destruct (alist_get objid_eqb t (targetMap s)) as [m|] eqn:Et; [|contradiction].
  destruct (alist_get key_eqb k m) as [dep|] eqn:Ek; [|contradiction].
  destruct (alist_get_in _ _ _ Et) as [t' Ht].
  destruct (alist_get_in _ _ _ Ek) as [k' Hk].
  now exists t', m, k', dep.
Qed.

Lemma dep_add_inv :
  forall (j x : job) (dep : list job), In x (dep_add j dep) -> x = j \/ In x dep.
Proof.
  intros j x dep. unfold dep_add. destruct (dep_has j dep); [now right|].
  intros H. apply in_app_or in H. destruct H as [H|[H|[]]]; auto.
Qed.

Lemma subscribed_track :
  forall (x : job) (t : objid) (k : key) (s : State),
    subscribed x (track t k s) -> subscribed x s \/ activeEffect s = Some x.
Proof.
  intros x t k s. unfold track.
  destruct (activeEffect s) as [e|] eqn:Ea; [|now left].
  intros (t' & m' & k' & dep' & Ht & Hk & Hx). cbn in Ht.
  apply alist_set_in in Ht. destruct Ht as [Ht|Ht].
  2: { left. now exists t', m', k', dep'. }
  injection Ht as -> ->.
  apply alist_set_in in Hk. destruct Hk as [Hk|Hk].
  - injection Hk as -> ->. apply dep_add_inv in Hx. destruct Hx as [->|Hx].
    + now right.
    + left. apply (@deps_of_subscribed t k x s). unfold deps_of.
      destruct (alist_get objid_eqb t (targetMap s)) as [m|]; [|contradiction].
      now destruct (alist_get key_eqb k m).
  - left. destruct (alist_get objid_eqb t (targetMap s)) as [m|] eqn:Et;
      [|contradiction].
    destruct (alist_get_in _ _ _ Et) as [t2 Ht2]. now exists t2, m, k', dep'.
Qed.

Lemma remove_from_depsMap_in :
  forall (w : job) (m : depsMap_t) (k : key) (dep : list job) (x : job),
    In (k, dep) (remove_from_depsMap w m) -> In x dep ->
    exists dep0, In (k, dep0) m /\ In x dep0.
Proof.
  intros w m k dep x H Hx. unfold remove_from_depsMap in H.
  apply in_flat_map in H. destruct H as ([k0 d0] & Hin & H).
  destruct (dep_has w d0).
  - destruct (dep_delete w d0) as [|y d] eqn:E; [contradiction|].
    destruct H as [H|[]]. injection H as <- <-.
    exists d0. split; [exact Hin|].
    assert (Hf : In x (dep_delete w d0)) by (rewrite E; exact Hx).
    unfold dep_delete in Hf. now apply filter_In in Hf.
  - destruct H as [H|[]]. injection H as <- <-. now exists d0.
Qed.

Lemma subscribed_removeEffect :
  forall (x w : job) (s : State),
    subscribed x (removeEffect w s) -> subscribed x s.
Proof.
  intros x w s (t & m & k & dep & Ht & Hk & Hx). cbn in Ht.
  apply in_flat_map in Ht. destruct Ht as ([t0 m0] & Hin & H).
  destruct (remove_from_depsMap w m0) as [|y r] eqn:E; [contradiction|].
  destruct H as [H|[]]. injection H as <- <-.
  rewrite <- E in Hk.
  destruct (remove_from_depsMap_in _ _ _ _ x Hk Hx) as (dep0 & H0 & Hx0).
  now exists t0, m0, k, dep0.
Qed.

Lemma queue_add_inv :
  forall (j x : job) (q : list (option job)),
    In x (pending (queue_add j q)) -> x = j \/ In x (pending q).
Proof.
  intros j x q. unfold queue_add. destruct (queue_has j q); [now right|].
  rewrite pending_app. intros H. apply in_app_or in H.
  destruct H as [H|[H|[]]]; auto.
Qed.

Lemma queueJob_fields :
  forall (j : job) (s : State),
    targetMap (queueJob j s) = targetMap s /\
    activeEffect (queueJob j s) = activeEffect s /\
    effectStack (queueJob j s) = effectStack s /\
    calls (queueJob j s) = calls s /\
    effects (queueJob j s) = effects s.
Proof. intros j s. unfold queueJob. cbn. now destruct (isFlushPending s). Qed.

Lemma subscribed_same_graph :
  forall (x : job) (s s' : State),
    targetMap s' = targetMap s -> subscribed x s' -> subscribed x s.
Proof. intros x s s' E. unfold subscribed. now rewrite E. Qed.

Lemma stopped_queueJob :
  forall (q : bool) (e : nat) (j : job) (s : State),
    j <> Wrapped e -> stopped q e s -> stopped q e (queueJob j s).
Proof.
  intros q e j s Hj (Hlt & Hq & Hsub & Hact & Hst & Hc).
  destruct (queueJob_fields j s) as (Et & Ea & Es & Ec & Ee).
  split; [now rewrite Ee|]. split; [|split; [|split; [|split]]].
  - intros Hs Hin. rewrite queue_queueJob in Hin.
    apply queue_add_inv in Hin. destruct Hin as [E|Hin]; [congruence|].
    now apply Hq.
  - intros H. apply Hsub. exact (subscribed_same_graph _ Et H).
  - now rewrite Ea.
  - now rewrite Es.
  - unfold count_calls. now rewrite Ec.
Qed.

Lemma stopped_trigger :
  forall (q : bool) (e : nat) (t : objid) (k : key) (s : State),
    stopped q e s -> stopped q e (trigger t k s).
Proof.
  intros q e t k s H. unfold trigger.
  destruct (alist_get objid_eqb t (targetMap s)) as [m|] eqn:Et; [|exact H].
  destruct (alist_get key_eqb k m) as [dep|] eqn:Ek; [|exact H].
  assert (Hdep : forall j, In j dep -> j <> Wrapped e).
  { intros j Hj ->. destruct H as (_ & _ & Hsub & _). apply Hsub.
    apply (@deps_of_subscribed t k (Wrapped e) s). unfold deps_of.
    now rewrite Et, Ek. }
  clear Et Ek. revert s H. induction dep as [|d dep IH]; intros s H; [exact H|].
  cbn. apply IH.
  - intros j Hj. apply Hdep. now right.
  - apply stopped_queueJob; [apply Hdep; now left|exact H].
Qed.

Lemma stopped_same_engine :
  forall (q : bool) (e : nat) (s s' : State),
    stopped q e s -> same_engine s s' -> stopped q e s'.
Proof.
  intros q e s s' (Hlt & Hq & Hsub & Hact & Hst & Hc) (Eq & Et & Ea & Es & Ec & Ee).
  split; [now rewrite Ee|]. split; [|split; [|split; [|split]]].
  - now rewrite Eq.
  - intros H. apply Hsub. exact (subscribed_same_graph _ Et H).
  - now rewrite Ea.
  - now rewrite Es.
  - unfold count_calls. now rewrite Ec.
Qed.

Lemma last_some_in :
  forall (l : list job) (x : job), last (map Some l) None = Some x -> In x l.
Proof.
  intros l x. induction l as [|a l IH]; [discriminate|].
  cbn [map]. destruct l as [|b l].
  - cbn. intros H. injection H as ->. now left.
  - intros H. right. apply IH. exact H.
Qed.

Lemma removelast_in :
  forall (A : Type) (l : list A) (x : A), In x (removelast l) -> In x l.
Proof.
  intros A l x. induction l as [|a l IH]; [intros []|].
  destruct l as [|b l]; [intros []|].
  intros [H|H]; [now left|right; now apply IH].
Qed.

Lemma count_calls_record :
  forall (c d : call) (s : State),
    count_calls c (record d s)
    = count_calls c s + (if call_eqb c d then 1 else 0).
Proof.
  intros c d s. unfold count_calls, record. cbn.
  rewrite filter_app, length_app. cbn. now destruct (call_eqb c d).
Qed.

(** The invariant of such an effect, through every operation of the
    interpreter. *)
Lemma interp_keeps_stopped :
  forall (F : file) (q : bool) (e : nat) (n : nat),
    sound_interp (stopped q e) (fun _ _ => True) (fun j => j <> Wrapped e)
      (interp F n).
Proof.
  intros F q e n. apply interp_sound.
  - intros s. exact Logic.I.
  - intros a b c _ _. exact Logic.I.
  - intros s s' H Hs. split; [exact (stopped_same_engine H Hs)|exact Logic.I].
  - (* track *)
    intros t k s (Hlt & Hq & Hsub & Hact & Hst & Hc). split; [|exact Logic.I].
    assert (E : queue (track t k s) = queue s /\
                activeEffect (track t k s) = activeEffect s /\
                effectStack (track t k s) = effectStack s /\
                calls (track t k s) = calls s /\
                effects (track t k s) = effects s).
    { unfold track. destruct (activeEffect s) eqn:Ea; [|now rewrite Ea].
      cbn. now rewrite Ea. }
    destruct E as (Eq & Ea & Es & Ec & Ee).
    split; [now rewrite Ee|]. split; [|split; [|split; [|split]]].
    + now rewrite Eq.
    + intros H. apply subscribed_track in H. destruct H as [H|H]; auto.
    + now rewrite Ea.
    + now rewrite Es.
    + unfold count_calls. now rewrite Ec.
  - intros t k s H. split; [now apply stopped_trigger|exact Logic.I].
  - (* pushEffect *)
    intros j s Hj (Hlt & Hq & Hsub & Hact & Hst & Hc). split; [|exact Logic.I].
    split; [exact Hlt|]. split; [exact Hq|]. split; [exact Hsub|].
    split; [cbn; congruence|]. split; [|exact Hc].
    cbn. intros H. apply in_app_or in H. destruct H as [H|[H|[]]]; auto.
  - (* popEffect *)
    intros s (Hlt & Hq & Hsub & Hact & Hst & Hc). split; [|exact Logic.I].
    split; [exact Hlt|]. split; [exact Hq|]. split; [exact Hsub|].
    split; [|split; [|exact Hc]].
    + cbn. intros H. apply last_some_in in H. apply Hst.
      now apply removelast_in.
    + cbn. intros H. apply Hst. now apply removelast_in.
  - (* activeEffect = a job *)
    intros j s Hj (Hlt & Hq & Hsub & Hact & Hst & Hc). split; [|exact Logic.I].
    split; [exact Hlt|]. split; [exact Hq|]. split; [exact Hsub|].
    split; [cbn; congruence|]. split; [exact Hst|exact Hc].
  - (* activeEffect = null *)
    intros s (Hlt & Hq & Hsub & Hact & Hst & Hc). split; [|exact Logic.I].
    split; [exact Hlt|]. split; [exact Hq|]. split; [exact Hsub|].
    split; [cbn; discriminate|]. split; [exact Hst|exact Hc].
  - (* a recorded call *)
    intros c s Hok (Hlt & Hq & Hsub & Hact & Hst & Hc). split; [|exact Logic.I].
    split; [exact Hlt|]. split; [exact Hq|]. split; [exact Hsub|].
    split; [exact Hact|]. split; [exact Hst|].
    rewrite count_calls_record, Hc.
    destruct c as [e'|e'|c']; cbn; try reflexivity.
    destruct (Nat.eqb e e') eqn:E; [|reflexivity].
    apply Nat.eqb_eq in E. subst e'. now contradiction Hok.
  - (* a new effect *)
    intros body s (Hlt & Hq & Hsub & Hact & Hst & Hc). cbn.
    split; [|split; [exact Logic.I|]].
    + split; [cbn; rewrite length_app; cbn; lia|].
      split; [exact Hq|]. split; [exact Hsub|].
      split; [exact Hact|]. split; [exact Hst|exact Hc].
    + intros E. injection E as E. lia.
  - intros j s Hj H. split; [now apply stopped_queueJob|exact Logic.I].
  - (* queue.delete *)
    intros j s (Hlt & Hq & Hsub & Hact & Hst & Hc). cbn. split; [|exact Logic.I].
    split; [exact Hlt|]. split; [|split; [exact Hsub|]].
    + intros Hs H. cbn in H. rewrite pending_queue_delete in H.
      apply filter_In in H. now apply (Hq Hs).
    + split; [exact Hact|]. split; [exact Hst|exact Hc].
  - (* removeEffect *)
    intros j s (Hlt & Hq & Hsub & Hact & Hst & Hc). split; [|exact Logic.I].
    split; [exact Hlt|]. split; [exact Hq|]. split; [|split; [exact Hact|]].
    + intros H. apply Hsub. now apply subscribed_removeEffect in H.
    + split; [exact Hst|exact Hc].
  - (* the subscribers of a key *)
    intros t k i j s (Hlt & Hq & Hsub & _) Hn ->. apply Hsub.
    apply (@deps_of_subscribed t k (Wrapped e) s). eapply nth_error_In. exact Hn.
  - intros c. discriminate.
Qed.

Lemma call_keeps_stopped :
  forall (F : file) (e n : nat) (j : job),
    j <> Wrapped e ->
    sound (stopped true e) (fun _ _ => True) (i_call (interp F n) j).
Proof.
  intros F e n j Hj.
  exact (proj1 (proj2 (proj2 (proj2 (interp_keeps_stopped F true e n)))) j Hj).
Qed.

Lemma exec_keeps_stopped :
  forall (F : file) (q : bool) (e n : nat) (p : prog),
    sound (stopped q e) (fun _ _ => True) (exec F (interp F n) p).
Proof.
  intros F q e n p.
  exact (proj2 (proj2 (proj2 (proj2 (interp_keeps_stopped F q e (S n))))) p).
Qed.

Lemma nth_error_pending :
  forall (q : list (option job)) (i : nat) (j : job),
    nth_error q i = Some (Some j) -> In j (pending q).
Proof.
  intros q. induction q as [|x q IH]; intros [|i] j H; cbn in H; try discriminate.
  - injection H as ->. now left.
  - destruct x; [right|]; now apply (IH i).
Qed.

Lemma flush_loop_keeps_stopped :
  forall (F : file) (e n steps i : nat),
    sound (stopped true e) (fun _ _ => True) (flush_loop (interp F n) steps i).
Proof.
  intros F e n steps. induction steps as [|m IH]; intros i s Hs; [exact Logic.I|].
  cbn [flush_loop]. destruct (nth_error (queue s) i) as [[j|]|] eqn:Ei.
  - assert (Hj : j <> Wrapped e).
    { intros ->. destruct Hs as (_ & Hq & _). apply (Hq eq_refl).
      exact (nth_error_pending _ _ Ei). }
    unfold bind. pose proof (@call_keeps_stopped F e n j Hj s Hs) as H1.
    destruct (i_call (interp F n) j s) as [[] s1|x s1|]; [| exact H1|exact Logic.I].
    destruct H1 as [H1 _]. pose proof (IH (S i) s1 H1) as H2.
    destruct (flush_loop (interp F n) m (S i) s1) as [rest s2|x s2|];
      [|exact H2|exact Logic.I].
    cbn. exact H2.
  - exact (IH (S i) s Hs).
  - cbn. now split.
Qed.

Lemma flushJobs_keeps_stopped :
  forall (F : file) (e depth : nat),
    sound (stopped true e) (fun _ _ => True) (flushJobs F depth).
Proof.
  intros F e depth s Hs. unfold flushJobs, flush_with, bind.
  pose proof (@flush_loop_keeps_stopped F e depth depth 0 s Hs) as H.
  destruct (flush_loop (interp F depth) depth 0 s) as [v s1|x s1|];
    [|exact H|exact Logic.I].
  cbn. split; [|exact Logic.I]. destruct H as [(Hlt & Hq & Hsub & Hact & Hst & Hc) _].
  split; [exact Hlt|]. split; [intros _ []|]. split; [exact Hsub|].
  split; [exact Hact|]. split; [exact Hst|exact Hc].
Qed.

Lemma checkpoint_keeps_stopped :
  forall (F : file) (e depth rounds : nat) (s s' : State),
    stopped true e s -> checkpoint F depth rounds s = Some s' -> stopped true e s'.
Proof.
  intros F e depth rounds. induction rounds as [|r IH]; intros s s' Hs H.
  - cbn in H. destruct (microtasks s); [now injection H as <-|discriminate].
  - cbn [checkpoint] in H. destruct (microtasks s) as [|m] eqn:Em;
      [now injection H as <-|].
    assert (Hm : stopped true e (set_microtasks m s)).
    { apply (@stopped_same_engine true e s _ Hs). now repeat split. }
    pose proof (@flushJobs_keeps_stopped F e depth _ Hm) as Hf.
    destruct (flushJobs F depth (set_microtasks m s)) as [v s1|x s1|];
      [| |discriminate]; exact (IH _ _ (proj1 Hf) H).
Qed.

Lemma turn_keeps_stopped :
  forall (F : file) (e depth : nat) (p : prog) (s s' : State),
    stopped true e s -> turn F depth p s = Some s' -> stopped true e s'.
Proof.
  intros F e depth p s s' Hs H. unfold turn, run in H.
  pose proof (@exec_keeps_stopped F true e depth p s Hs) as Hr.
  destruct (exec F (interp F depth) p s) as [v s1|x s1|]; [| |discriminate];
    exact (@checkpoint_keeps_stopped F e depth depth _ _ (proj1 Hr) H).
Qed.

Lemma turns_keep_stopped :
  forall (F : file) (e depth : nat) (ps : list prog) (s s' : State),
    stopped true e s -> turns F depth ps s = Some s' -> stopped true e s'.
Proof.
  intros F e depth ps. induction ps as [|p ps IH]; intros s s' Hs H.
  - cbn in H. now injection H as <-.
  - cbn [turns] in H. destruct (turn F depth p s) as [s1|] eqn:E; [|discriminate].
    exact (IH _ _ (@turn_keeps_stopped F e depth p _ _ Hs E) H).
Qed.

Lemma queue_delete_twice :
  forall (j : job) (q : list (option job)),
    queue_delete j (queue_delete j q) = queue_delete j q.
Proof.
  intros j q. unfold queue_delete. rewrite map_map. apply map_ext.
  intros [x|]; cbn; [|reflexivity]. destruct (job_eqb j x) eqn:E; cbn;
    [reflexivity|now rewrite E].
Qed.

Lemma pending_queue_delete_out :
  forall (j : job) (q : list (option job)), ~ In j (pending (queue_delete j q)).
Proof.
  intros j q H. rewrite pending_queue_delete in H. apply filter_In in H.
  destruct H as [_ H]. now rewrite job_eqb_refl in H.
Qed.

(** [stop] begins with [queue.delete(wrappedEffect)]; what follows sees
    the queue without the effect. *)
Lemma stop_after_delete :
  forall (F : file) (I : Interp) (e : nat) (s : State),
    has_scheduler F = true ->
    e < List.length (effects s) ->
    stop F I e s
    = stop F I e (set_queue (queue_delete (Wrapped e) (queue s)) s).
Proof.
  intros F I e s HF Hlt. unfold stop.
  destruct (nth_error (effects s) e) as [r|] eqn:Er;
    [|apply nth_error_None in Er; lia].
  destruct F; try discriminate HF;
    (cbn [effects set_queue]; rewrite Er;
     unfold bind, modify; cbn [queue set_queue]; rewrite queue_delete_twice;
     reflexivity).
Qed.

Lemma stop_keeps_stopped :
  forall (F : file) (e n : nat) (s : State),
    has_scheduler F = true ->
    stopped false e s ->
    match stop F (interp F n) e s with
    | Ok _ s' | Throw _ s' => stopped true e s'
    | Timeout => True
    end.
Proof.
  intros F e n s HF (Hlt & Hq & Hsub & Hact & Hst & Hc).
  rewrite (stop_after_delete F (interp F n) s HF Hlt).
  assert (Hd : stopped true e (set_queue (queue_delete (Wrapped e) (queue s)) s)).
  { split; [exact Hlt|]. split; [intros _; apply pending_queue_delete_out|].
    split; [exact Hsub|]. split; [exact Hact|]. split; [exact Hst|exact Hc]. }
  pose proof (@exec_keeps_stopped F true e n (CallStop e (Ret VUndef)) _ Hd) as H.
  cbn [exec] in H. unfold bind in H.
  destruct (stop F (interp F n) e _) as [x s1|x s1|]; [|apply H|exact Logic.I].
  cbn in H. apply H.
Qed.

(** C10: [watchEffect] queues the first run of the new effect and
    nothing else.  When [stop] is called before the flush, at once or
    after any other code of the same synchronous run, it takes the
    pending run out of the queue; the effect is then in no dependency
    set, its body has not been called, and no cleanup is called when
    none was registered.  In every state that later turns reach, flushes
    included, this is still so: the body is never called.  (In day-7
    the call of [stop] ends in an error, [removeEffect] not being
    declared there; the effect is out of the queue all the same.) *)
Theorem stop_before_first_flush :
  forall (F : file) (depth : nat) (body : nat -> prog) (s : State),
    has_scheduler F = true ->
    absent true (List.length (effects s)) s ->
    let e := List.length (effects s) in
    let s1 := queueJob (Wrapped e)
                (set_effects (effects s ++ [mkEffect body None]) s) in
    let sd := set_queue (queue_delete (Wrapped e) (queue s1)) s1 in
    watchEffect F body s = Ok e s1 /\
    In (Wrapped e) (pending (queue s1)) /\
    calls s1 = calls s /\
    stop F (interp F depth) e s1
      = match F with
        | Day7 => Throw "ReferenceError: removeEffect is not defined" sd
        | _ => Ok tt (removeEffect (Wrapped e) sd)
        end /\
    (forall between : prog,
        match run F depth between s1 with
        | Ok _ sb | Throw _ sb =>
            match stop F (interp F depth) e sb with
            | Ok _ s2 | Throw _ s2 =>
                ~ In (Wrapped e) (pending (queue s2)) /\
                ~ subscribed (Wrapped e) s2 /\
                count_calls (CBody e) s2 = 0 /\
                (cleanup_of e sb = None -> calls s2 = calls sb) /\
                (forall (later : list prog) (s3 : State),
                    turns F depth later s2 = Some s3 ->
                    count_calls (CBody e) s3 = 0 /\
                    ~ subscribed (Wrapped e) s3 /\
                    ~ In (Wrapped e) (pending (queue s3)))
            | Timeout => True
            end
        | Timeout => True
        end).
Proof.
  intros F depth body s HF Habs e s1 sd.
  destruct (queueJob_fields (Wrapped e)
              (set_effects (effects s ++ [mkEffect body None]) s))
    as (Et & Ea & Es & Ec & Ee). fold s1 in Et, Ea, Es, Ec, Ee.
  cbn in Et, Ea, Es, Ec, Ee.
  assert (Hnth : nth_error (effects s1) e = Some (mkEffect body None)).
  { rewrite Ee. subst e. rewrite nth_error_app2 by lia.
    now rewrite Nat.sub_diag. }
  assert (Hs1 : stopped false e s1).
  { destruct Habs as (Hq & Hsub & Hact & Hst & Hc).
    split; [rewrite Ee, length_app; cbn; subst e; lia|].
    split; [discriminate|]. split; [|split; [|split]].
    - intros H. apply Hsub. exact (subscribed_same_graph _ Et H).
    - now rewrite Ea.
    - now rewrite Es.
    - unfold count_calls. now rewrite Ec. }
  split; [destruct F; try discriminate HF; reflexivity|].
  split; [subst s1; rewrite queue_queueJob; apply queue_add_in|].
  split; [exact Ec|]. split.
  - unfold stop, run_cleanup, cleanup_of.
    destruct F; try discriminate HF; rewrite Hnth; unfold bind, modify;
      cbn [effects set_queue]; rewrite Hnth; reflexivity.
  - intros between.
    pose proof (@exec_keeps_stopped F false e depth between s1 Hs1) as Hb.
    unfold run.
    destruct (exec F (interp F depth) between s1) as [v sb|x sb|];
      [| |exact Logic.I].
    + destruct Hb as [Hb _]. pose proof (@stop_keeps_stopped F e depth sb HF Hb) as H2.
      assert (Hcalls : cleanup_of e sb = None ->
                match stop F (interp F depth) e sb with
                | Ok _ s2 | Throw _ s2 => calls s2 = calls sb
                | Timeout => True
                end).
      { intros Hnone. unfold stop, run_cleanup.
        destruct Hb as (Hlt & _).
        destruct (nth_error (effects sb) e) as [r|] eqn:Er;
          [|apply nth_error_None in Er; lia].
        unfold cleanup_of in *. cbn [effects set_queue].
        destruct F; try discriminate HF; unfold bind, modify;
          cbn [effects set_queue]; rewrite Er in *; rewrite Hnone; reflexivity. }
      destruct (stop F (interp F depth) e sb) as [x s2|x s2|]; [| |exact Logic.I];
        (destruct H2 as (Hlt2 & Hq2 & Hsub2 & Hact2 & Hst2 & Hc2);
         split; [exact (Hq2 eq_refl)|]; split; [exact Hsub2|];
         split; [exact Hc2|]; split; [exact Hcalls|];
         intros later s3 Hl;
         destruct (@turns_keep_stopped F e depth later s2 s3
                     (conj Hlt2 (conj Hq2 (conj Hsub2 (conj Hact2 (conj Hst2 Hc2))))) Hl)
           as (_ & Hq3 & Hsub3 & _ & _ & Hc3);
         split; [exact Hc3|]; split; [exact Hsub3|exact (Hq3 eq_refl)]).
    + destruct Hb as [Hb _]. pose proof (@stop_keeps_stopped F e depth sb HF Hb) as H2.
      assert (Hcalls : cleanup_of e sb = None ->
                match stop F (interp F depth) e sb with
                | Ok _ s2 | Throw _ s2 => calls s2 = calls sb
                | Timeout => True
                end).
      { intros Hnone. unfold stop, run_cleanup.
        destruct Hb as (Hlt & _).
        destruct (nth_error (effects sb) e) as [r|] eqn:Er;
          [|apply nth_error_None in Er; lia].
        unfold cleanup_of in *. cbn [effects set_queue].
        destruct F; try discriminate HF; unfold bind, modify;
          cbn [effects set_queue]; rewrite Er in *; rewrite Hnone; reflexivity. }
      destruct (stop F (interp F depth) e sb) as [y s2|y s2|]; [| |exact Logic.I];
        (destruct H2 as (Hlt2 & Hq2 & Hsub2 & Hact2 & Hst2 & Hc2);
         split; [exact (Hq2 eq_refl)|]; split; [exact Hsub2|];
         split; [exact Hc2|]; split; [exact Hcalls|];
         intros later s3 Hl;
         destruct (@turns_keep_stopped F e depth later s2 s3
                     (conj Hlt2 (conj Hq2 (conj Hsub2 (conj Hact2 (conj Hst2 Hc2))))) Hl)
           as (_ & Hq3 & Hsub3 & _ & _ & Hc3);
         split; [exact Hc3|]; split; [exact Hsub3|exact (Hq3 eq_refl)]).
Qed.

Lemma initial_has_no_effect : forall e, absent true e initial.
Proof.
  intros e. split; [intros _ []|]. split; [|split; [discriminate|split]].
  - intros (t & m & k & dep & [] & _).
  - intros [].
  - reflexivity.
Qed.

Lemma stop_before_first_flush_witness :
  has_scheduler Part0 = true /\
  absent true (List.length (effects initial)) initial /\
  watchEffect Part0 Unrun.body initial = Ok 0 Unrun.queued /\
  queue Unrun.queued = [Some (Wrapped 0)] /\
  stop Part0 (interp Part0 3) 0 Unrun.queued = Ok tt Unrun.stopped_state /\
  queue Unrun.stopped_state = [None] /\
  calls Unrun.stopped_state = [] /\
  exists s3,
    turns Part0 3 [Unrun.created_and_stopped; Faulty.one_more] initial = Some s3 /\
    output s3 = [VNum 3] /\
    count_calls (CBody 0) s3 = 0.
Proof.
  assert (H1 : has_scheduler Part0 = true) by reflexivity.
  assert (H2 : absent true (List.length (effects initial)) initial)
    by apply initial_has_no_effect.
  destruct (@stop_before_first_flush Part0 3 Unrun.body initial H1 H2)
    as (Hw & _ & _ & Hstop & Hlater).
  split; [exact H1|]. split; [exact H2|]. split; [exact Hw|].
  split; [reflexivity|]. split; [exact Hstop|].
  split; [reflexivity|]. split; [reflexivity|].
  eexists. split; [vm_compute; reflexivity|]. split; reflexivity.
Defined.

(** * Further properties of the engine *)

(** ** Laws of queueJob, trigger and track *)

Lemma state_eta :
  forall s : State,
    mkState (heap s) (proxies s) (effects s) (computeds s) (activeEffect s)
      (effectStack s) (targetMap s) (queue s) (isFlushPending s)
      (microtasks s) (console s) (output s) (calls s) = s.
Proof. now intros []. Qed.

Lemma queueJob_again :
  forall (j : job) (s : State),
    In j (pending (queue s)) -> isFlushPending s = true -> queueJob j s = s.
Proof.
  intros j s Hin Hflag. unfold queueJob, queue_add.
  rewrite (proj2 (queue_has_pending j (queue s)) Hin). cbn. rewrite Hflag.
  unfold set_queue. apply state_eta.
Qed.

Lemma isFlushPending_queueJob :
  forall (j : job) (s : State), isFlushPending (queueJob j s) = true.
Proof.
  intros j s. unfold queueJob. cbn. now destruct (isFlushPending s) eqn:E.
Qed.

Lemma microtasks_queueJob :
  forall (j : job) (s : State),
    microtasks (queueJob j s)
    = if isFlushPending s then microtasks s else S (microtasks s).
Proof. intros j s. unfold queueJob. cbn. now destruct (isFlushPending s). Qed.

Lemma fold_queueJob_again :
  forall (dep : list job) (s : State),
    (forall x, In x dep -> In x (pending (queue s))) ->
    (dep <> [] -> isFlushPending s = true) ->
    fold_left (fun s' e => queueJob e s') dep s = s.
Proof.
  intros dep. induction dep as [|d dep IH]; intros s Hin Hflag; [reflexivity|].
  cbn. rewrite (queueJob_again d s); [|apply Hin; now left|apply Hflag; discriminate].
  apply IH.
  - intros x Hx. apply Hin. now right.
  - intros _. apply Hflag. discriminate.
Qed.

Lemma fold_queueJob_schedule :
  forall (dep : list job) (s : State),
    dep <> [] ->
    let s' := fold_left (fun s' e => queueJob e s') dep s in
    isFlushPending s' = true /\
    microtasks s' = if isFlushPending s then microtasks s else S (microtasks s).
Proof.
  intros dep. induction dep as [|d dep IH]; intros s Hne; [contradiction|].
  cbn. destruct dep as [|d' dep].
  - cbn. split; [apply isFlushPending_queueJob|apply microtasks_queueJob].
  - destruct (IH (queueJob d s)) as [H1 H2]; [discriminate|].
    split; [exact H1|]. rewrite H2, isFlushPending_queueJob. apply microtasks_queueJob.
Qed.

(** X1: a second [trigger] of a key before the flush is the first one
    over again and changes nothing: no job enters the queue twice and no
    second flush is scheduled.  The first one, when the key has
    subscribers, leaves the flag set and has scheduled one flush, unless
    one was pending already. *)
Theorem trigger_twice_is_trigger_once :
  forall (t : objid) (k : key) (s : State),
    trigger t k (trigger t k s) = trigger t k s /\
    (isFlushPending s = true -> microtasks (trigger t k s) = microtasks s) /\
    (deps_of t k s <> [] ->
     isFlushPending (trigger t k s) = true /\
     (isFlushPending s = false ->
      microtasks (trigger t k s) = S (microtasks s))).
Proof.
  intros t k s. split; [|split].
  - unfold trigger at 1. rewrite (proj1 (trigger_frame t k s)).
    destruct (alist_get objid_eqb t (targetMap s)) as [m|] eqn:Et; [|reflexivity].
    destruct (alist_get key_eqb k m) as [dep|] eqn:Ek; [|reflexivity].
    assert (Hd : deps_of t k s = dep) by (unfold deps_of; now rewrite Et, Ek).
    apply fold_queueJob_again.
    + intros x Hx. apply trigger_queues. now rewrite Hd.
    + intros Hne. unfold trigger. rewrite Et, Ek.
      exact (proj1 (fold_queueJob_schedule s Hne)).
  - intros Hflag. unfold trigger.
    destruct (alist_get objid_eqb t (targetMap s)) as [m|]; [|reflexivity].
    destruct (alist_get key_eqb k m) as [[|d dep]|]; try reflexivity.
    rewrite (proj2 (@fold_queueJob_schedule (d :: dep) s ltac:(discriminate))).
    now rewrite Hflag.
  - intros Hne. unfold trigger. unfold deps_of in Hne.
    destruct (alist_get objid_eqb t (targetMap s)) as [m|]; [|contradiction].
    destruct (alist_get key_eqb k m) as [dep|]; [|contradiction].
    destruct (fold_queueJob_schedule s Hne) as [H1 H2].
    split; [exact H1|]. intros Hflag. now rewrite H2, Hflag.
Qed.

Section AlistLaws.
Variables K V : Type.
Variable eqb : K -> K -> bool.
Hypothesis eqb_eq : forall a b, eqb a b = true <-> a = b.

Lemma alist_set_set :
  forall (k : K) (v v' : V) (l : list (K * V)),
    alist_set eqb k v' (alist_set eqb k v l) = alist_set eqb k v' l.
Proof.
  intros k v v' l. induction l as [|[k' x] r IH]; cbn.
  - now rewrite (proj2 (eqb_eq k k) eq_refl).
  - destruct (eqb k k') eqn:E; cbn.
    + now rewrite (proj2 (eqb_eq k k) eq_refl).
    + now rewrite E, IH.
Qed.

Lemma alist_set_get :
  forall (k : K) (v : V) (l : list (K * V)),
    alist_get eqb k l = Some v -> alist_set eqb k v l = l.
Proof.
  intros k v l. induction l as [|[k' x] r IH]; cbn; [discriminate|].
  destruct (eqb k k') eqn:E.
  - intros H. injection H as ->. apply eqb_eq in E. now subst.
  - intros H. now rewrite IH.
Qed.

Lemma alist_get_some_in :
  forall (k : K) (v : V) (l : list (K * V)),
    alist_get eqb k l = Some v -> In (k, v) l.
Proof.
  intros k v l. induction l as [|[k' x] r IH]; cbn; [discriminate|].
  destruct (eqb k k') eqn:E.
  - intros H. injection H as ->. apply eqb_eq in E. subst. now left.
  - intros H. right. now apply IH.
Qed.

Lemma alist_get_none_keys :
  forall (k : K) (l : list (K * V)),
    ~ In k (map fst l) -> alist_get eqb k l = None.
Proof.
  intros k l. induction l as [|[k' x] r IH]; cbn; [reflexivity|].
  intros H. destruct (eqb k k') eqn:E.
  - apply eqb_eq in E. subst. exfalso. apply H. now left.
  - apply IH. intros Hin. apply H. now right.
Qed.

(** An entry-wise filter and map of an insertion-ordered map with unique
    keys: the shape of both loops of [removeEffect]. *)
Lemma alist_get_flat_map :
  forall (h : K * V -> list (K * V)) (g : V -> option V),
    (forall k v, h (k, v) = match g v with Some v' => [(k, v')] | None => [] end) ->
    forall (k : K) (l : list (K * V)),
      NoDup (map fst l) ->
      alist_get eqb k (flat_map h l)
      = match alist_get eqb k l with Some v => g v | None => None end.
Proof.
  intros h g Hh k l. induction l as [|[k' x] r IH]; cbn; [reflexivity|].
  intros Hnd. inversion Hnd as [|? ? Hnotin Hnd']; subst.
  rewrite Hh. destruct (eqb k k') eqn:E.
  - apply eqb_eq in E. subst k'. destruct (g x) as [v'|]; cbn.
    + now rewrite (proj2 (eqb_eq k k) eq_refl).
    + apply alist_get_none_keys. intros Hin. apply Hnotin.
      apply in_map_iff in Hin. destruct Hin as ([k2 v2] & Hk & Hin). cbn in Hk. subst k2.
      apply in_flat_map in Hin. destruct Hin as ([k3 v3] & Hin3 & Hin).
      rewrite Hh in Hin. destruct (g v3); [|contradiction].
      destruct Hin as [Heq|[]]. injection Heq as -> ->.
      apply in_map_iff. now exists (k, v3).
  - destruct (g x) as [v'|]; cbn; [rewrite E|]; now apply IH.
Qed.

Lemma flat_map_keys :
  forall (h : K * V -> list (K * V)) (g : V -> option V),
    (forall k v, h (k, v) = match g v with Some v' => [(k, v')] | None => [] end) ->
    forall (l : list (K * V)),
      NoDup (map fst l) -> NoDup (map fst (flat_map h l)).
Proof.
  intros h g Hh l. induction l as [|[k x] r IH]; cbn; [constructor|].
  intros Hnd. inversion Hnd as [|? ? Hnotin Hnd']; subst.
  rewrite Hh. destruct (g x) as [v'|]; cbn; [|now apply IH].
  constructor; [|now apply IH].
  intros Hin. apply Hnotin.
  apply in_map_iff in Hin. destruct Hin as ([k2 v2] & Hk & Hin). cbn in Hk. subst k2.
  apply in_flat_map in Hin. destruct Hin as ([k3 v3] & Hin3 & Hin).
  rewrite Hh in Hin. destruct (g v3); [|contradiction].
  destruct Hin as [Heq|[]]. injection Heq as -> ->.
  apply in_map_iff. now exists (k, v3).
Qed.

Lemma alist_set_keys :
  forall (k : K) (v : V) (l : list (K * V)),
    NoDup (map fst l) -> NoDup (map fst (alist_set eqb k v l)).
Proof.
  intros k v l. induction l as [|[k' x] r IH]; cbn.
  - intros _. constructor; [intros []|constructor].
  - intros Hnd. inversion Hnd as [|? ? Hnotin Hnd']; subst.
    destruct (eqb k k') eqn:E; cbn.
    + apply eqb_eq in E. subst. now constructor.
    + constructor; [|now apply IH].
      intros Hin. apply Hnotin.
      apply in_map_iff in Hin. destruct Hin as ([k2 v2] & Hk & Hin). cbn in Hk. subst k2.
      clear IH Hnd Hnotin Hnd'. induction r as [|[k3 v3] r IHr]; cbn in Hin.
      * destruct Hin as [Heq|[]]. injection Heq as -> ->.
        now rewrite (proj2 (eqb_eq k' k') eq_refl) in E.
      * destruct (eqb k k3) eqn:E3.
        -- destruct Hin as [Heq|Hin].
           ++ injection Heq as -> ->. apply eqb_eq in E3. subst.
              now rewrite (proj2 (eqb_eq k3 k3) eq_refl) in E.
           ++ right. apply in_map_iff. now exists (k', v2).
        -- destruct Hin as [Heq|Hin].
           ++ injection Heq as -> ->. now left.
           ++ right. now apply IHr.
Qed.

Lemma alist_set_inv :
  forall (k k' : K) (v v' : V) (l : list (K * V)),
    In (k', v') (alist_set eqb k v l) -> (k' = k /\ v' = v) \/ In (k', v') l.
Proof.
  intros k k' v v' l. induction l as [|[k2 v2] r IH]; cbn.
  - intros [H|[]]. injection H as -> ->. now left.
  - destruct (eqb k k2); cbn.
    + intros [H|H]; [injection H as -> ->; now left|right; now right].
    + intros [H|H]; [right; now left|].
      destruct (IH H) as [?|?]; [now left|right; now right].
Qed.
End AlistLaws.

Lemma dep_add_again :
  forall (j : job) (dep : list job), In j dep -> dep_add j dep = dep.
Proof.
  intros j dep H. unfold dep_add, dep_has.
  replace (existsb (job_eqb j) dep) with true; [reflexivity|].
  symmetry. apply existsb_exists. exists j. split; [exact H|apply job_eqb_refl].
Qed.

(** X2: [track] of a pair the active effect is subscribed to already
    changes nothing, so that an effect which reads a property many times
    is subscribed once: [track] twice is [track] once; and outside of
    any effect [track] does nothing. *)
Theorem track_twice_is_track_once :
  forall (t : objid) (k : key) (s : State),
    (forall e, activeEffect s = Some e -> In e (deps_of t k s) -> track t k s = s) /\
    track t k (track t k s) = track t k s /\
    (activeEffect s = None -> track t k s = s).
Proof.
  intros t k s.
  assert (H1 : forall s e, activeEffect s = Some e -> In e (deps_of t k s) ->
                           track t k s = s).
  { clear s. intros s e Ha Hin. unfold track. rewrite Ha. unfold deps_of in Hin.
    destruct (alist_get objid_eqb t (targetMap s)) as [m|] eqn:Et; [|contradiction].
    destruct (alist_get key_eqb k m) as [dep|] eqn:Ek; [|contradiction].
    rewrite (dep_add_again e dep Hin).
    rewrite (alist_set_get key_eqb key_eqb_eq k m Ek).
    rewrite (@alist_set_get objid (list (key * list job)) objid_eqb objid_eqb_eq
               t m (targetMap s) Et).
    unfold set_targetMap. apply state_eta. }
  split; [exact (H1 s)|]. split.
  - destruct (activeEffect s) as [e|] eqn:Ha.
    + apply H1 with (e := e).
      * unfold track. rewrite Ha. exact Ha.
      * now apply track_subscribes.
    + assert (E : track t k s = s) by (unfold track; now rewrite Ha).
      now rewrite !E.
  - intros Ha. unfold track. now rewrite Ha.
Qed.

(** ** removeEffect *)

Lemma dep_has_in :
  forall (w : job) (dep : list job), dep_has w dep = true <-> In w dep.
Proof.
  intros w dep. unfold dep_has. rewrite existsb_exists. split.
  - intros (x & Hx & E). apply job_eqb_eq in E. now subst.
  - intros H. exists w. split; [exact H|apply job_eqb_refl].
Qed.

Lemma dep_delete_in :
  forall (w x : job) (dep : list job),
    In x (dep_delete w dep) <-> In x dep /\ x <> w.
Proof.
  intros w x dep. unfold dep_delete. rewrite filter_In. split.
  - intros [H1 H2]. split; [exact H1|]. intros ->. now rewrite job_eqb_refl in H2.
  - intros [H1 H2]. split; [exact H1|].
    destruct (job_eqb w x) eqn:E; [|reflexivity].
    apply job_eqb_eq in E. now subst.
Qed.

Lemma dep_delete_absent :
  forall (w : job) (dep : list job), ~ In w dep -> dep_delete w dep = dep.
Proof.
  intros w dep. unfold dep_delete. induction dep as [|d dep IH]; cbn; [reflexivity|].
  intros H. destruct (job_eqb w d) eqn:E; cbn.
  - apply job_eqb_eq in E. subst. exfalso. apply H. now left.
  - rewrite IH; [reflexivity|]. intros Hin. apply H. now right.
Qed.

Lemma dep_delete_last :
  forall (w : job) (dep : list job),
    ~ In w dep -> dep_delete w (dep ++ [w]) = dep.
Proof.
  intros w dep H. unfold dep_delete. rewrite filter_app. cbn.
  rewrite job_eqb_refl. cbn. rewrite app_nil_r. now apply dep_delete_absent.
Qed.

Lemma dep_delete_nodup :
  forall (w : job) (dep : list job), NoDup dep -> NoDup (dep_delete w dep).
Proof. intros w dep. apply NoDup_filter. Qed.

Lemma remove_from_depsMap_purge :
  forall (w : job) (m : depsMap_t),
    remove_from_depsMap w m
    = flat_map (fun kd : key * list job =>
                  match purge w (snd kd) with
                  | Some d => [(fst kd, d)]
                  | None => []
                  end) m.
Proof.
  intros w m. unfold remove_from_depsMap. apply flat_map_ext. intros [k dep]. cbn.
  unfold purge. destruct (dep_has w dep); [|reflexivity].
  now destruct (dep_delete w dep).
Qed.

Lemma removeEffect_purge :
  forall (w : job) (s : State),
    targetMap (removeEffect w s)
    = flat_map (fun td : objid * depsMap_t =>
                  match purge_map w (snd td) with
                  | Some m => [(fst td, m)]
                  | None => []
                  end) (targetMap s).
Proof.
  intros w s. unfold removeEffect. cbn. apply flat_map_ext. intros [t m]. cbn.
  unfold purge_map. now destruct (remove_from_depsMap w m).
Qed.

Lemma purge_deps :
  forall (w : job) (dep : list job),
    match purge w dep with Some d => d | None => [] end = dep_delete w dep.
Proof.
  intros w dep. unfold purge. destruct (dep_has w dep) eqn:E.
  - now destruct (dep_delete w dep).
  - symmetry. apply dep_delete_absent. intros H. apply dep_has_in in H. congruence.
Qed.

Lemma purge_some :
  forall (w : job) (dep d : list job),
    purge w dep = Some d -> d = dep_delete w dep /\ (dep <> [] -> d <> []).
Proof.
  intros w dep d. unfold purge. destruct (dep_has w dep) eqn:E.
  - destruct (dep_delete w dep) as [|x r] eqn:Ed; [discriminate|].
    intros H. injection H as <-. split; [reflexivity|discriminate].
  - intros H. injection H as <-. split; [|auto].
    symmetry. apply dep_delete_absent. intros H. apply dep_has_in in H. congruence.
Qed.

Lemma remove_from_depsMap_get :
  forall (w : job) (k : key) (m : depsMap_t),
    NoDup (map fst m) ->
    alist_get key_eqb k (remove_from_depsMap w m)
    = match alist_get key_eqb k m with
      | Some dep => purge w dep
      | None => None
      end.
Proof.
  intros w k m Hnd. rewrite remove_from_depsMap_purge.
  apply (alist_get_flat_map key_eqb key_eqb_eq) with (g := purge w); [|exact Hnd].
  reflexivity.
Qed.

Lemma remove_from_depsMap_entries :
  forall (w : job) (k : key) (d : list job) (m : depsMap_t),
    In (k, d) (remove_from_depsMap w m) ->
    exists dep, In (k, dep) m /\ purge w dep = Some d.
Proof.
  intros w k d m. rewrite remove_from_depsMap_purge. intros H.
  apply in_flat_map in H. destruct H as ([k' dep] & Hin & H). cbn in H.
  destruct (purge w dep) as [d'|] eqn:E; [|contradiction].
  destruct H as [H|[]]. injection H as -> ->. now exists dep.
Qed.

Lemma remove_from_depsMap_nil :
  forall (w : job) (k : key) (m : depsMap_t),
    remove_from_depsMap w m = [] ->
    match alist_get key_eqb k m with
    | Some dep => dep_delete w dep
    | None => []
    end = [].
Proof.
  intros w k m. rewrite remove_from_depsMap_purge.
  induction m as [|[k' dep] r IH]; cbn; [reflexivity|].
  intros H. apply app_eq_nil in H. destruct H as [H1 H2].
  destruct (key_eqb k k'); [|now apply IH].
  rewrite <- purge_deps. now destruct (purge w dep).
Qed.

Lemma deps_of_removeEffect :
  forall (w : job) (t : objid) (k : key) (s : State),
    NoDup (map fst (targetMap s)) ->
    (forall t m, In (t, m) (targetMap s) -> NoDup (map fst m)) ->
    deps_of t k (removeEffect w s) = dep_delete w (deps_of t k s).
Proof.
  intros w t k s Hnd Hkeys. unfold deps_of. rewrite removeEffect_purge.
  rewrite (alist_get_flat_map objid_eqb objid_eqb_eq) with (g := purge_map w);
    [|reflexivity|exact Hnd].
  destruct (alist_get objid_eqb t (targetMap s)) as [m|] eqn:Et; [|reflexivity].
  unfold purge_map. destruct (remove_from_depsMap w m) as [|x r] eqn:Em.
  - pose proof (remove_from_depsMap_nil w k m Em) as Hn.
    destruct (alist_get key_eqb k m) as [dep|]; [now symmetry|reflexivity].
  - rewrite <- Em. rewrite remove_from_depsMap_get.
    + destruct (alist_get key_eqb k m) as [dep|]; [apply purge_deps|reflexivity].
    + apply (Hkeys t). now apply (alist_get_some_in objid_eqb objid_eqb_eq).
Qed.

Lemma purge_again :
  forall (w : job) (dep d : list job), purge w dep = Some d -> purge w d = Some d.
Proof.
  intros w dep d H. unfold purge.
  replace (dep_has w d) with false; [reflexivity|].
  symmetry. destruct (dep_has w d) eqn:E; [|reflexivity].
  apply dep_has_in in E. apply purge_some in H. destruct H as [-> _].
  apply dep_delete_in in E. now destruct E.
Qed.

Lemma remove_from_depsMap_again :
  forall (w : job) (m : depsMap_t),
    remove_from_depsMap w (remove_from_depsMap w m) = remove_from_depsMap w m.
Proof.
  intros w m. rewrite !remove_from_depsMap_purge.
  induction m as [|[k dep] r IH]; cbn; [reflexivity|].
  rewrite flat_map_app, IH. f_equal.
  destruct (purge w dep) as [d|] eqn:E; cbn; [|reflexivity].
  now rewrite (purge_again w dep E).
Qed.

Lemma purge_map_again :
  forall (w : job) (m m' : depsMap_t),
    purge_map w m = Some m' -> purge_map w m' = Some m'.
Proof.
  intros w m m'. unfold purge_map.
  destruct (remove_from_depsMap w m) as [|x r] eqn:E; [discriminate|].
  intros H. injection H as <-. rewrite <- E, remove_from_depsMap_again, E. reflexivity.
Qed.

Lemma removeEffect_again :
  forall (w : job) (s : State), removeEffect w (removeEffect w s) = removeEffect w s.
Proof.
  intros w s.
  assert (H : targetMap (removeEffect w (removeEffect w s)) = targetMap (removeEffect w s)).
  { rewrite (removeEffect_purge w (removeEffect w s)), removeEffect_purge.
    induction (targetMap s) as [|[t m] r IH]; cbn; [reflexivity|].
    rewrite flat_map_app, IH. f_equal.
    destruct (purge_map w m) as [m'|] eqn:E; cbn; [|reflexivity].
    now rewrite (purge_map_again w m E). }
  change (removeEffect w (removeEffect w s))
    with (set_targetMap (targetMap (removeEffect w (removeEffect w s)))
            (removeEffect w s)).
  rewrite H. reflexivity.
Qed.

Lemma graph_ok_removeEffect :
  forall (w : job) (s : State), graph_ok s -> graph_ok (removeEffect w s).
Proof.
  intros w s [Hnd Hall]. split.
  - rewrite removeEffect_purge.
    apply flat_map_keys with (g := purge_map w); [reflexivity|exact Hnd].
  - intros t m' Hin. rewrite removeEffect_purge in Hin.
    apply in_flat_map in Hin. destruct Hin as ([t' m] & Hin & H). cbn in H.
    unfold purge_map in H. destruct (remove_from_depsMap w m) as [|x r] eqn:E; [contradiction|].
    destruct H as [H|[]]. injection H as -> <-.
    destruct (Hall t m Hin) as (Hne & Hk & Hdeps).
    split; [discriminate|]. split.
    + rewrite <- E, remove_from_depsMap_purge.
      apply flat_map_keys with (g := purge w); [reflexivity|exact Hk].
    + intros k d Hd. rewrite <- E in Hd.
      apply remove_from_depsMap_entries in Hd. destruct Hd as (dep & Hdep & Hp).
      destruct (Hdeps k dep Hdep) as [Hne' Hnd'].
      apply purge_some in Hp. destruct Hp as [-> Hp].
      split; [now apply Hp|now apply dep_delete_nodup].
Qed.

Lemma deps_of_subscribed_iff :
  forall (w : job) (s : State),
    NoDup (map fst (targetMap s)) ->
    (forall t m, In (t, m) (targetMap s) -> NoDup (map fst m)) ->
    (subscribed w s <-> exists t k, In w (deps_of t k s)).
Proof.
  intros w s Hnd Hkeys. split.
  - intros (t & m & k & dep & Ht & Hk & Hw). exists t, k. unfold deps_of.
    assert (Et : alist_get objid_eqb t (targetMap s) = Some m).
    { clear Hkeys. induction (targetMap s) as [|[t' m'] r IH]; [contradiction|].
      cbn in Hnd. inversion Hnd as [|? ? Hnotin Hnd']; subst. cbn.
      destruct Ht as [H|H].
      - injection H as -> ->. now rewrite objid_eqb_refl.
      - destruct (objid_eqb t t') eqn:E; [|now apply IH].
        apply objid_eqb_eq in E. subst. exfalso. apply Hnotin.
        apply in_map_iff. now exists (t', m). }
    rewrite Et.
    assert (Ek : alist_get key_eqb k m = Some dep).
    { specialize (Hkeys t m Ht). clear Et Ht.
      induction m as [|[k' d'] r IH]; [contradiction|].
      cbn in Hkeys. inversion Hkeys as [|? ? Hnotin Hnd']; subst. cbn.
      destruct Hk as [H|H].
      - injection H as -> ->. now rewrite key_eqb_refl.
      - destruct (key_eqb k k') eqn:E; [|now apply IH].
        apply key_eqb_eq in E. subst. exfalso. apply Hnotin.
        apply in_map_iff. now exists (k', dep). }
    now rewrite Ek.
  - intros (t & k & Hw). unfold deps_of in Hw.
    destruct (alist_get objid_eqb t (targetMap s)) as [m|] eqn:Et; [|contradiction].
    destruct (alist_get key_eqb k m) as [dep|] eqn:Ek; [|contradiction].
    exists t, m, k, dep. split; [|split; [|exact Hw]].
    + now apply (alist_get_some_in objid_eqb objid_eqb_eq).
    + now apply (alist_get_some_in key_eqb key_eqb_eq).
Qed.

(** X3: in a graph as the engine keeps it, [removeEffect] deletes the
    effect from the set of every key of every target and leaves every
    other subscription in its place; the effect is subscribed nowhere
    afterwards, the graph is still as the engine keeps it (a set or a
    map left empty is gone), and a second [removeEffect] changes
    nothing. *)
Theorem removeEffect_deletes_from_every_set :
  forall (w : job) (s : State),
    graph_ok s ->
    (forall t k, deps_of t k (removeEffect w s) = dep_delete w (deps_of t k s)) /\
    (forall t k, ~ In w (deps_of t k (removeEffect w s))) /\
    (forall t k x, x <> w -> In x (deps_of t k s) ->
                   In x (deps_of t k (removeEffect w s))) /\
    graph_ok (removeEffect w s) /\
    removeEffect w (removeEffect w s) = removeEffect w s.
Proof.
  intros w s Hok.
  assert (Hd : forall t k, deps_of t k (removeEffect w s) = dep_delete w (deps_of t k s)).
  { intros t k. destruct Hok as [Hnd Hall]. apply deps_of_removeEffect; [exact Hnd|].
    intros t' m Hin. now destruct (Hall t' m Hin) as (_ & H & _). }
  split; [exact Hd|]. split; [|split; [|split]].
  - intros t k Hin. rewrite Hd in Hin. apply dep_delete_in in Hin. now destruct Hin.
  - intros t k x Hx Hin. rewrite Hd. now apply dep_delete_in.
  - now apply graph_ok_removeEffect.
  - apply removeEffect_again.
Qed.

Lemma dep_add_nodup :
  forall (j : job) (dep : list job), NoDup dep -> NoDup (dep_add j dep).
Proof.
  intros j dep H. unfold dep_add. destruct (dep_has j dep) eqn:E; [exact H|].
  apply NoDup_app; [exact H|constructor; [intros []|constructor]|].
  intros x Hx [<-|[]]. apply dep_has_in in Hx. congruence.
Qed.

Lemma dep_add_nonempty :
  forall (j : job) (dep : list job), dep_add j dep <> [].
Proof.
  intros j dep H. pose proof (dep_add_in j dep) as Hin. now rewrite H in Hin.
Qed.

Lemma alist_set_nonempty :
  forall (K V : Type) (eqb : K -> K -> bool) (k : K) (v : V) (l : list (K * V)),
    alist_set eqb k v l <> [].
Proof.
  intros K V eqb k v [|[k' x] r]; cbn; [discriminate|].
  destruct (eqb k k'); discriminate.
Qed.

Lemma graph_ok_initial : graph_ok initial.
Proof. split; [constructor|intros t m []]. Qed.

Lemma graph_ok_track :
  forall (t : objid) (k : key) (s : State), graph_ok s -> graph_ok (track t k s).
Proof.
  intros t k s [Hnd Hall]. unfold track.
  destruct (activeEffect s) as [e|]; [|now split].
  assert (Hm0 : forall m0,
             m0 = match alist_get objid_eqb t (targetMap s) with
                  | Some m => m
                  | None => []
                  end ->
             NoDup (map fst m0) /\
             forall k dep, In (k, dep) m0 -> dep <> [] /\ NoDup dep).
  { intros m0 ->. destruct (alist_get objid_eqb t (targetMap s)) as [m|] eqn:Et.
    - apply (alist_get_some_in objid_eqb objid_eqb_eq) in Et.
      now destruct (Hall t m Et) as (_ & H1 & H2).
    - split; [constructor|intros k' dep []]. }
  split; cbn.
  - now apply alist_set_keys with (eqb_eq := objid_eqb_eq).
  - intros t' m' Hin. apply alist_set_inv in Hin. destruct Hin as [[-> ->]|Hin];
      [|now apply (Hall t')].
    destruct (Hm0 _ eq_refl) as [Hk0 Hd0].
    split; [apply alist_set_nonempty|]. split.
    + now apply alist_set_keys with (eqb_eq := key_eqb_eq).
    + intros k' dep Hin. apply alist_set_inv in Hin. destruct Hin as [[-> ->]|Hin];
        [|now apply (Hd0 k')].
      split; [apply dep_add_nonempty|]. apply dep_add_nodup.
      destruct (alist_get key_eqb k _) as [d|] eqn:Ek; [|constructor].
      apply (alist_get_some_in key_eqb key_eqb_eq) in Ek.
      now destruct (Hd0 k d Ek).
Qed.

Lemma purge_dep_add :
  forall (w : job) (dep : list job),
    dep <> [] -> purge w (dep_add w dep) = purge w dep.
Proof.
  intros w dep Hne. destruct (dep_has w dep) eqn:E.
  - apply dep_has_in in E. now rewrite (dep_add_again w dep E).
  - assert (Hn : ~ In w dep) by (intros H; apply dep_has_in in H; congruence).
    unfold purge at 2. rewrite E. unfold dep_add. rewrite E. unfold purge.
    replace (dep_has w (dep ++ [w])) with true.
    + rewrite (dep_delete_last w dep Hn). destruct dep; [contradiction|reflexivity].
    + symmetry. apply dep_has_in. apply in_or_app. right. now left.
Qed.

Lemma remove_from_depsMap_track :
  forall (w : job) (k : key) (m : depsMap_t),
    (forall k' d, In (k', d) m -> d <> []) ->
    remove_from_depsMap w
      (alist_set key_eqb k
         (dep_add w match alist_get key_eqb k m with Some d => d | None => [] end) m)
    = remove_from_depsMap w m.
Proof.
  intros w k m. rewrite !remove_from_depsMap_purge.
  induction m as [|[k' d'] r IH]; intros Hne.
  - cbn. unfold purge, dep_has, dep_delete. cbn. rewrite job_eqb_refl. reflexivity.
  - cbn. destruct (key_eqb k k') eqn:E; cbn.
    + apply key_eqb_eq in E. subst k'.
      rewrite purge_dep_add; [reflexivity|]. apply (Hne k). now left.
    + f_equal. apply IH. intros k2 d2 Hin. apply (Hne k2). now right.
Qed.

Lemma purge_map_track :
  forall (w : job) (k : key) (m : depsMap_t),
    (forall k' d, In (k', d) m -> d <> []) ->
    purge_map w
      (alist_set key_eqb k
         (dep_add w match alist_get key_eqb k m with Some d => d | None => [] end) m)
    = purge_map w m.
Proof.
  intros w k m Hne. unfold purge_map. now rewrite remove_from_depsMap_track.
Qed.

Lemma removeEffect_track :
  forall (w : job) (t : objid) (k : key) (s : State),
    graph_ok s -> activeEffect s = Some w ->
    removeEffect w (track t k s) = removeEffect w s.
Proof.
  intros w t k s [_ Hall] Ha.
  assert (H : targetMap (removeEffect w (track t k s)) = targetMap (removeEffect w s)).
  { rewrite !removeEffect_purge. unfold track. rewrite Ha. cbn [targetMap set_targetMap].
    assert (Hall' : forall t m, In (t, m) (targetMap s) ->
                                forall k' d, In (k', d) m -> d <> []).
    { intros t' m Hin k' d Hd. now destruct (Hall t' m Hin) as (_ & _ & H);
        destruct (H k' d Hd). }
    clear Hall. induction (targetMap s) as [|[t' m'] r IH].
    - cbn. unfold purge_map, remove_from_depsMap, dep_has, dep_delete. cbn.
      rewrite job_eqb_refl. reflexivity.
    - cbn. destruct (objid_eqb t t') eqn:E; cbn.
      + apply objid_eqb_eq in E. subst t'.
        rewrite purge_map_track; [reflexivity|].
        intros k' d. apply (Hall' t m'). now left.
      + f_equal. apply IH. intros t2 m2 Hin. apply (Hall' t2 m2). now right. }
  change (removeEffect w (track t k s))
    with (set_targetMap (targetMap (removeEffect w (track t k s))) (track t k s)).
  rewrite H. unfold track. rewrite Ha. reflexivity.
Qed.

Lemma remove_from_depsMap_free :
  forall (w : job) (m : depsMap_t),
    (forall k d, In (k, d) m -> ~ In w d) -> remove_from_depsMap w m = m.
Proof.
  intros w m. rewrite remove_from_depsMap_purge.
  induction m as [|[k d] m IHm]; intros Hm; [reflexivity|]. cbn.
  unfold purge at 1. replace (dep_has w d) with false.
  - cbn. f_equal. apply IHm. intros k' d' Hin. apply (Hm k'). now right.
  - symmetry. destruct (dep_has w d) eqn:E; [|reflexivity].
    apply dep_has_in in E. exfalso. apply (Hm k d); [now left|exact E].
Qed.

Lemma removeEffect_unsubscribed :
  forall (w : job) (s : State),
    graph_ok s -> ~ subscribed w s -> removeEffect w s = s.
Proof.
  intros w s [_ Hall] Hn.
  assert (H : targetMap (removeEffect w s) = targetMap s).
  { rewrite removeEffect_purge.
    assert (Hfree : forall t m, In (t, m) (targetMap s) ->
                      m <> [] /\ forall k d, In (k, d) m -> ~ In w d).
    { intros t m Hin. split; [now destruct (Hall t m Hin)|].
      intros k d Hd Hw. apply Hn. now exists t, m, k, d. }
    clear Hall Hn. induction (targetMap s) as [|[t m] r IH]; [reflexivity|].
    cbn. destruct (Hfree t m (or_introl eq_refl)) as [Hne Hm].
    pose proof (remove_from_depsMap_free w m Hm) as Em.
    unfold purge_map. rewrite Em. destruct m; [contradiction|]. cbn. f_equal.
    apply IH. intros t' m' Hin. apply (Hfree t'). now right. }
  change (removeEffect w s) with (set_targetMap (targetMap (removeEffect w s)) s).
  rewrite H. unfold set_targetMap. apply state_eta.
Qed.

Lemma activeEffect_track :
  forall (t : objid) (k : key) (s : State), activeEffect (track t k s) = activeEffect s.
Proof.
  intros. unfold track. destruct (activeEffect s) eqn:E; [cbn|]; exact E.
Qed.

(** X4: [removeEffect] undoes every subscription an effect has made:
    after any number of calls of [track] for an effect that was
    subscribed nowhere, [removeEffect] gives the graph back as it was,
    with no emptied set or map left behind. *)
Theorem removeEffect_undoes_track :
  forall (w : job) (reads : list (objid * key)) (s : State),
    graph_ok s ->
    activeEffect s = Some w ->
    ~ subscribed w s ->
    removeEffect w (fold_left (fun s' r => track (fst r) (snd r) s') reads s) = s.
Proof.
  intros w reads s Hok Ha Hn.
  rewrite <- (removeEffect_unsubscribed Hok Hn) at 2.
  clear Hn. revert s Hok Ha.
  induction reads as [|[t k] reads IH]; intros s Hok Ha; [reflexivity|].
  cbn. rewrite IH.
  - now apply removeEffect_track.
  - now apply graph_ok_track.
  - now rewrite activeEffect_track.
Qed.

(** ** pushEffect and popEffect *)

(** X5: [pushEffect] and [popEffect] always leave [activeEffect] equal
    to the top of the stack; when it was so before, [popEffect] after
    [pushEffect] gives the state back as it was, and the effect that
    was running is the active one again. *)
Theorem popEffect_undoes_pushEffect :
  forall (e : job) (s : State),
    consistent s ->
    popEffect (pushEffect e s) = s /\
    consistent (pushEffect e s) /\
    consistent (popEffect s).
Proof.
  intros e s Hc. split; [|split].
  - unfold popEffect, pushEffect. cbn. rewrite removelast_last.
    unfold consistent in Hc. rewrite <- Hc.
    unfold set_activeEffect, set_effectStack. cbn. apply state_eta.
  - unfold consistent, pushEffect. cbn. rewrite map_app. cbn. now rewrite last_last.
  - unfold consistent, popEffect. reflexivity.
Qed.

(** ** Writes and deletes through a reactive proxy *)


Lemma list_update_same :
  forall (A : Type) (l : list A) (i : nat) (x : A),
    nth_error l i = Some x -> list_update i x l = l.
Proof.
  intros A l. induction l as [|y l IH]; intros [|i] x H; cbn in *; try discriminate.
  - now injection H as ->.
  - now rewrite IH.
Qed.

Lemma nth_error_list_update :
  forall (A : Type) (l : list A) (i : nat) (x y : A),
    nth_error l i = Some y -> nth_error (list_update i x l) i = Some x.
Proof.
  intros A l. induction l as [|z l IH]; intros [|i] x y H; cbn in *; try discriminate.
  - reflexivity.
  - now apply IH with (y := y).
Qed.

Lemma heap_get_heap_set :
  forall (a : nat) (o o' : obj) (s : State),
    heap_get a s = Some o -> heap_get a (heap_set a o' s) = Some o'.
Proof.
  intros a o o' s H. unfold heap_get, heap_set. cbn.
  now apply nth_error_list_update with (y := o).
Qed.

Lemma alist_remove_absent :
  forall (k : key) (l : list (key * slot)),
    alist_get key_eqb k l = None -> alist_remove key_eqb k l = l.
Proof.
  intros k l. unfold alist_remove. induction l as [|[k' x] r IH]; cbn; [reflexivity|].
  destruct (key_eqb k k'); [discriminate|]. cbn. intros H. now rewrite IH.
Qed.

Lemma alist_get_remove :
  forall (k : key) (l : list (key * slot)),
    alist_get key_eqb k (alist_remove key_eqb k l) = None.
Proof.
  intros k l. unfold alist_remove. induction l as [|[k' x] r IH]; cbn; [reflexivity|].
  destruct (key_eqb k k') eqn:E; cbn; [exact IH|]. now rewrite E.
Qed.

Lemma has_own_plain :
  forall (a : nat) (k : key) (o : obj) (s : State),
    heap_get a s = Some o -> arr_length o = None ->
    has_own (VObj a) k s
    = match alist_get key_eqb k (props o) with Some _ => true | None => false end.
Proof. intros a k o s Ho Hl. cbn. now rewrite Ho, Hl. Qed.

Lemma raw_delete_plain :
  forall (a : nat) (k : key) (o : obj) (s : State),
    heap_get a s = Some o -> arr_length o = None ->
    raw_delete a k s
    = Ok true (heap_set a (mkObj (alist_remove key_eqb k (props o)) None) s).
Proof. intros a k o s Ho Hl. unfold raw_delete. now rewrite Ho, Hl. Qed.

(** X7: [delete p[k]] on a reactive proxy of a plain object removes the
    property from the target.  In day-2, day-6 and day-7 the
    subscribers of the key are triggered when the target had the
    property (in the scripts with a scheduler they are all in the queue
    afterwards), and nothing at all changes when it had not.  The
    proxies of day-4 have no [deleteProperty] trap: there the property
    goes and no subscriber hears of it. *)
Theorem delete_triggers_own_keys_only :
  forall (F : file) (n w a : nat) (k : key) (o : obj) (s : State),
    has_reactive F = true ->
    heap_get a s = Some o ->
    arr_length o = None ->
    let s1 := heap_set a (mkObj (alist_remove key_eqb k (props o)) None) s in
    lacks a k s1 = true /\
    (F = Day4 ->
     i_delete (interp F (2 + n)) (VProxy w Reactive (VObj a)) k s = Ok true s1 /\
     queue s1 = queue s /\ microtasks s1 = microtasks s) /\
    (F <> Day4 -> alist_get key_eqb k (props o) = None ->
     i_delete (interp F (2 + n)) (VProxy w Reactive (VObj a)) k s = Ok true s) /\
    (F <> Day4 -> alist_get key_eqb k (props o) <> None ->
     i_delete (interp F (2 + n)) (VProxy w Reactive (VObj a)) k s
       = (do_trigger F (interp F (S n)) (OAddr a) k ;; ret true) s1 /\
     (has_scheduler F = true ->
      i_delete (interp F (2 + n)) (VProxy w Reactive (VObj a)) k s
        = Ok true (trigger (OAddr a) k s1) /\
      forall e, In e (deps_of (OAddr a) k s) ->
                In e (pending (queue (trigger (OAddr a) k s1))))).
Proof.
  intros F n w a k o s HF Ho Hplain s1.
  assert (Hraw : i_delete (interp F (S n)) (VObj a) k s = Ok true s1).
  { rewrite i_delete_S. unfold delete_step.
    exact (raw_delete_plain a k s Ho Hplain). }
  split; [|split; [|split]].
  - unfold lacks. subst s1. rewrite (heap_get_heap_set a _ s Ho). cbn.
    now rewrite alist_get_remove.
  - intros ->. split; [|now split].
    cbn [Nat.add]. rewrite i_delete_S. unfold delete_step, proxy_delete.
    exact Hraw.
  - intros HF4 Hk.
    assert (E : s1 = s).
    { subst s1. rewrite (alist_remove_absent k _ Hk). unfold heap_set.
      assert (Eo : mkObj (props o) None = o) by (destruct o; cbn in *; now subst).
      rewrite Eo. unfold heap_get in Ho. rewrite (list_update_same _ _ Ho).
      unfold set_heap. apply state_eta. }
    cbn [Nat.add]. rewrite i_delete_S. unfold delete_step, proxy_delete.
    destruct F; try discriminate HF; try contradiction;
      (unfold bind at 1; unfold gets at 1;
       rewrite (has_own_plain a k s Ho Hplain), Hk;
       unfold bind at 1; rewrite Hraw; unfold bind, ret;
       cbn [andb]; now rewrite E).
  - intros HF4 Hk.
    assert (Hdel : i_delete (interp F (2 + n)) (VProxy w Reactive (VObj a)) k s
                   = (do_trigger F (interp F (S n)) (OAddr a) k ;; ret true) s1).
    { cbn [Nat.add]. rewrite i_delete_S. unfold delete_step, proxy_delete.
      destruct (alist_get key_eqb k (props o)) as [x|] eqn:Ek; [|contradiction].
      destruct F; try discriminate HF; try contradiction;
        (unfold bind at 1; unfold gets at 1;
         rewrite (has_own_plain a k s Ho Hplain), Ek;
         unfold bind at 1; rewrite Hraw;
         cbn [andb]; unfold trigger_on; cbn [identity]; reflexivity). }
    split; [exact Hdel|]. intros HS.
    assert (E : i_delete (interp F (2 + n)) (VProxy w Reactive (VObj a)) k s
                = Ok true (trigger (OAddr a) k s1)).
    { rewrite Hdel. destruct F; try discriminate HS; try discriminate HF; reflexivity. }
    split; [exact E|]. intros e He. apply trigger_queues. exact He.
Qed.

(** ** ref (part_000, day-2, day-4, day-6) *)

Lemma alist_get_set_slot :
  forall (k : key) (x : slot) (l : list (key * slot)),
    alist_get key_eqb k (alist_set key_eqb k x l) = Some x.
Proof. intros. apply (alist_get_set_same key_eqb key_eqb_eq). Qed.

(** X8: the setter of a [ref] of part_000 and day-4 stores the new value
    as it is and triggers the subscribers of the ref whether or not the
    value has changed: every one of them is in the queue afterwards,
    also when the value written is the one the ref held.  A read after
    the write returns the value written. *)
Theorem ref_write_always_triggers :
  forall (F : file) (n a : nat) (o : obj) (old v : value) (s : State),
    F = Part0 \/ F = Day4 ->
    heap_get a s = Some o ->
    alist_get key_eqb k_value (props o) = Some (RefAccessor old) ->
    let s1 :=
      trigger (OAddr a) k_value
        (heap_set a
           (mkObj (alist_set key_eqb k_value (RefAccessor v) (props o))
                  (arr_length o)) s) in
    i_set (interp F (S n)) (VObj a) k_value v s = Ok true s1 /\
    (forall e, In e (deps_of (OAddr a) k_value s) -> In e (pending (queue s1))) /\
    i_get (interp F (S n)) (VObj a) k_value s1
      = Ok v (track (OAddr a) k_value s1).
Proof.
  intros F n a o old v s HF Ho Hk s1. split; [|split].
  - rewrite i_set_S. unfold set_step, raw_set. rewrite Ho, Hk.
    destruct HF as [-> | ->]; reflexivity.
  - intros e He. subst s1. apply trigger_queues. exact He.
  - rewrite i_get_S. unfold get_step, raw_get.
    assert (Hh : heap_get a s1
                 = Some (mkObj (alist_set key_eqb k_value (RefAccessor v) (props o))
                               (arr_length o))).
    { subst s1. unfold heap_get. rewrite (proj2 (trigger_frame _ _ _)).
      exact (heap_get_heap_set a _ s Ho). }
    rewrite Hh. cbn [arr_length props]. rewrite alist_get_set_slot.
    destruct (arr_length o); reflexivity.
Qed.

(** X9: in day-6 [ref] passes its argument to [reactive], which has no
    guard there: [ref] of a value that is no object raises a TypeError
    and creates nothing, and so does a write of such a value to an
    existing ref, which keeps its value and triggers nobody.  [ref] of
    an object holds one reactive proxy of it, the same at every read. *)
Theorem day6_ref_holds_objects_only :
  forall (n : nat) (v : value) (s : State),
    (isObject v = false ->
     ref Day6 v s
       = Throw "TypeError: Cannot create proxy with a non-object as target or handler" s /\
     forall a o old,
       heap_get a s = Some o ->
       alist_get key_eqb k_value (props o) = Some (RefAccessor old) ->
       i_set (interp Day6 (S n)) (VObj a) k_value v s
         = Throw "TypeError: Cannot create proxy with a non-object as target or handler" s) /\
    (isObject v = true ->
     exists s1,
       ref Day6 v s = Ok (VObj (List.length (heap s))) s1 /\
       i_get (interp Day6 (S n)) (VObj (List.length (heap s))) k_value s1
         = Ok (VProxy (proxies s) Reactive v)
              (track (OAddr (List.length (heap s))) k_value s1) /\
       i_get (interp Day6 (S n)) (VObj (List.length (heap s))) k_value
           (track (OAddr (List.length (heap s))) k_value s1)
         = Ok (VProxy (proxies s) Reactive v)
              (track (OAddr (List.length (heap s))) k_value
                 (track (OAddr (List.length (heap s))) k_value s1))).
Proof.
  intros n v s. split.
  - intros Hv. split.
    + unfold ref, reactive, bind. now rewrite Hv.
    + intros a o old Ho Hk. rewrite i_set_S. unfold set_step, raw_set.
      rewrite Ho, Hk. unfold reactive, bind. now rewrite Hv.
  - intros Hv. eexists. split; [|split].
    + unfold ref, reactive, bind, new_proxy, alloc. rewrite Hv. reflexivity.
    + rewrite i_get_S. unfold get_step, raw_get, heap_get. cbn [heap set_heap set_proxies].
      rewrite nth_error_app2, Nat.sub_diag by lia. reflexivity.
    + rewrite i_get_S. unfold get_step, raw_get, heap_get. rewrite heap_track.
      cbn [heap set_heap set_proxies].
      rewrite nth_error_app2, Nat.sub_diag by lia. reflexivity.
Qed.

(** ** A write to a slot that holds a ref (day-7) *)

Lemma heap_get_track :
  forall (a : nat) (t : objid) (k : key) (s : State),
    heap_get a (track t k s) = heap_get a s.
Proof. intros. unfold heap_get. now rewrite heap_track. Qed.

Lemma heap_get_trigger :
  forall (a : nat) (t : objid) (k : key) (s : State),
    heap_get a (trigger t k s) = heap_get a s.
Proof. intros. unfold heap_get. now rewrite (proj2 (trigger_frame t k s)). Qed.

Lemma heap_get_heap_set_other :
  forall (a b : nat) (o : obj) (s : State),
    a <> b -> heap_get a (heap_set b o s) = heap_get a s.
Proof.
  intros a b o s Hne. unfold heap_get, heap_set. cbn.
  revert a b Hne. induction (heap s) as [|x l IH]; intros [|a] [|b] Hne; cbn;
    try reflexivity; try contradiction.
  apply IH. intros ->. now apply Hne.
Qed.

Lemma own_data_slot_value :
  forall (a : nat) (k : key) (o : obj) (v : value) (s : State),
    heap_get a s = Some o -> arr_length o = None ->
    alist_get key_eqb k (props o) = Some (Data v) ->
    own_data a k s = Some v.
Proof. intros a k o v s Ho Hl Hk. unfold own_data. now rewrite Ho, Hl, Hk. Qed.

Lemma slot_value_data :
  forall (o : obj) (k : key) (v : value),
    slot_value o k = Some v -> v <> VUndef ->
    alist_get key_eqb k (props o) = Some (Data v).
Proof.
  intros o k v H Hv. unfold slot_value in H.
  destruct (alist_get key_eqb k (props o)) as [[x|x|x]|]; try discriminate.
  - now injection H as ->.
  - injection H as <-. contradiction.
Qed.

Lemma write_ref_slot :
  forall (n id rid t rt : nat) (k : key) (o ro : obj) (old v : value) (s : State),
    heap_get t s = Some o ->
    arr_length o = None ->
    slot_value o k = Some (VProxy rid Reactive (VObj rt)) ->
    heap_get rt s = Some ro ->
    arr_length ro = None ->
    slot_value ro k_isRef = Some (VBool true) ->
    slot_value ro k_value = Some old ->
    plainly_no_ref old s ->
    plainly_no_ref v s ->
    let s0 := track (OAddr rt) k_isRef s in
    let s1 :=
      heap_set rt (mkObj (alist_set key_eqb k_value (Data v) (props ro)) None) s0 in
    let s' := if strict_eq old v then s1 else trigger (OAddr rt) k_value s1 in
    i_set (interp Day7 (3 + n)) (VProxy id Reactive (VObj t)) k v s = Ok true s' /\
    own_data rt k_value s' = Some v /\
    own_data rt k_isRef s' = Some (VBool true) /\
    (t <> rt -> heap_get t s' = Some o) /\
    (strict_eq old v = false ->
     forall e, In e (deps_of (OAddr rt) k_value s) -> In e (pending (queue s'))).
Proof.
  intros n id rid t rt k o ro old v s Ho Hplain Hk Hro Hrplain Hflag Hold Hnoref Hv
         s0 s1 s'.
  assert (Hh0 : heap s0 = heap s) by apply heap_track.
  assert (Hro0 : heap_get rt s0 = Some ro) by (unfold heap_get; now rewrite Hh0).
  assert (Hisref : isRef (interp Day7 (S (S n))) (VProxy rid Reactive (VObj rt)) s
                   = Ok true s0).
  { unfold isRef. cbn [truthy Nat.add]. unfold bind at 1.
    rewrite i_get_S. unfold get_step, proxy_get. unfold bind at 1.
    rewrite i_get_S. unfold get_step.
    rewrite (raw_get_slot_value _ rt k_isRef s Hro (or_introl Hrplain) Hflag).
    unfold bind at 1. rewrite (isRef_primitive Day7 n (VBool true) s eq_refl).
    reflexivity. }
  assert (Hinner : i_set (interp Day7 (S (S n))) (VProxy rid Reactive (VObj rt)) k_value v s0
                   = Ok true s').
  { cbn [Nat.add]. rewrite i_set_S. unfold set_step, proxy_set.
    unfold bind at 1. unfold gets at 1. rewrite (is_array_plain rt s0 Hro0 Hrplain).
    unfold bind at 1. rewrite i_get_S. unfold get_step.
    rewrite (raw_get_slot_value _ rt k_value s0 Hro0 (or_introl Hrplain) Hold).
    unfold bind at 1.
    rewrite (isRef_plainly_no_ref Day7 n (@plainly_no_ref_heap old s s0 Hh0 Hnoref)).
    unfold bind at 1. unfold ret at 1. cbn [andb].
    unfold bind at 1. rewrite i_set_S. unfold set_step.
    rewrite (raw_set_slot_value Day7 _ rt k_value v s0 Hro0 Hold).
    unfold write_data. rewrite Hrplain. unfold bind, modify, ret.
    subst s'. destruct (strict_eq old v); reflexivity. }
  assert (Hh' : heap_get rt s'
                = Some (mkObj (alist_set key_eqb k_value (Data v) (props ro)) None)).
  { subst s'. destruct (strict_eq old v); [|rewrite heap_get_trigger];
      exact (heap_get_heap_set rt _ s0 Hro0). }
  split; [|split; [|split; [|split]]].
  - cbn [Nat.add]. rewrite i_set_S. unfold set_step, proxy_set.
    unfold bind at 1. unfold gets at 1. rewrite (is_array_plain t s Ho Hplain).
    unfold bind at 1. rewrite i_get_S. unfold get_step.
    rewrite (raw_get_slot_value _ t k s Ho (or_introl Hplain) Hk).
    unfold bind at 1. rewrite Hisref.
    unfold bind at 1.
    rewrite (isRef_plainly_no_ref Day7 (S n) (@plainly_no_ref_heap v s s0 Hh0 Hv)).
    cbn [andb negb]. unfold bind at 1. unfold assign. unfold bind at 1.
    rewrite Hinner. reflexivity.
  - unfold own_data. rewrite Hh'. cbn [arr_length props].
    now rewrite alist_get_set_slot.
  - unfold own_data. rewrite Hh'. cbn [arr_length props].
    assert (Hne : k_isRef <> k_value) by discriminate.
    rewrite (alist_get_set_other key_eqb key_eqb_eq _ _ Hne).
    now rewrite (slot_value_data ro k_isRef Hflag ltac:(discriminate)).
  - intros Hne. subst s'.
    destruct (strict_eq old v); [|rewrite heap_get_trigger];
      (subst s1; rewrite (heap_get_heap_set_other _ _ Hne); subst s0;
       now rewrite heap_get_track).
  - intros Hneq e He. subst s'. rewrite Hneq. apply trigger_queues.
    subst s1 s0. unfold deps_of in *. cbn [targetMap heap_set set_heap].
    change (In e (deps_of (OAddr rt) k_value (track (OAddr rt) k_isRef s))).
    rewrite deps_of_track_other by discriminate. exact He.
Qed.


Lemma read_ref_slot :
  forall (n id rid t rt : nat) (k : key) (v : value) (s : State),
    own_data t k s = Some (VProxy rid Reactive (VObj rt)) ->
    own_data rt k_isRef s = Some (VBool true) ->
    own_data rt k_value s = Some v ->
    isObject v = false ->
    i_get (interp Day7 (3 + n)) (VProxy id Reactive (VObj t)) k s
      = Ok v (track (OAddr rt) k_value (track (OAddr rt) k_isRef s)).
Proof.
  intros n id rid t rt k v s Hk Hr Hv Hprim.
  cbn [Nat.add]. rewrite i_get_S. unfold get_step at 1. unfold proxy_get at 1.
  unfold bind at 1. rewrite i_get_S. unfold get_step at 1.
  rewrite (raw_get_own_data _ _ _ _ Hk).
  unfold bind at 1. unfold isRef at 1. cbn [truthy]. unfold bind at 1.
  rewrite i_get_S. unfold get_step at 1. unfold proxy_get at 1.
  unfold bind at 1. rewrite i_get_S. unfold get_step at 1.
  rewrite (raw_get_own_data _ _ _ _ Hr).
  unfold bind at 1. rewrite (isRef_primitive Day7 n (VBool true) s eq_refl).
  cbn [isObject truthy]. unfold bind, modify, ret. cbn [track_on identity].
  cbn [truthy]. unfold get_step at 1. unfold proxy_get, bind.
  rewrite i_get_S. unfold get_step at 1.
  rewrite (raw_get_own_data _ _ _ _
             (eq_trans (own_data_track rt k_value (OAddr rt) k_isRef s) Hv)).
  rewrite (isRef_primitive Day7 n v _ Hprim).
  unfold modify, ret. cbn [track_on identity]. rewrite Hprim. reflexivity.
Qed.

(** ** createStore (day-7) *)

(** X11: [createStore] calls [setup] once and returns a reactive proxy
    of the object it returned.  When that object holds a ref under a
    key, the store reads and writes the ref through that key: a value
    that is no object, written to the key of the store, is what a read
    of the key returns afterwards, and what the ref holds. *)
Theorem store_reads_what_it_wrote :
  forall (n t rid rt : nat) (k : key) (o ro : obj) (old v : value)
         (setup : prog) (I : Interp) (s s0 : State),
    i_run I setup s = Ok (VObj t) s0 ->
    t <> rt ->
    heap_get t s0 = Some o ->
    arr_length o = None ->
    slot_value o k = Some (VProxy rid Reactive (VObj rt)) ->
    heap_get rt s0 = Some ro ->
    arr_length ro = None ->
    slot_value ro k_isRef = Some (VBool true) ->
    slot_value ro k_value = Some old ->
    plainly_no_ref old s0 ->
    isObject v = false ->
    let store := VProxy (proxies s0) Reactive (VObj t) in
    let s1 := set_proxies (S (proxies s0)) s0 in
    createStore Day7 I setup s = Ok store s1 /\
    exists s2,
      i_set (interp Day7 (3 + n)) store k v s1 = Ok true s2 /\
      i_get (interp Day7 (3 + n)) store k s2
        = Ok v (track (OAddr rt) k_value (track (OAddr rt) k_isRef s2)) /\
      i_get (interp Day7 (2 + n)) (VProxy rid Reactive (VObj rt)) k_value s2
        = Ok v (track (OAddr rt) k_value s2).
Proof.
  intros n t rid rt k o ro old v setup I s s0 Hsetup Hne Ho Hplain Hk Hro Hrplain
         Hflag Hold Hnoref Hv store s1.
  split.
  - unfold createStore, bind. rewrite Hsetup. reflexivity.
  - assert (Hh : heap s1 = heap s0) by reflexivity.
    assert (Hnoref1 : plainly_no_ref old s1)
      by exact (@plainly_no_ref_heap old s0 s1 Hh Hnoref).
    destruct (@write_ref_slot n (proxies s0) rid t rt k o ro old v s1
                Ho Hplain Hk Hro Hrplain Hflag Hold Hnoref1 (or_introl Hv))
      as (Hset & Hval & Href & Hkeep & _).
    match type of Hset with _ = Ok true ?x => set (s2 := x) in * end.
    exists s2. split; [exact Hset|].
    assert (Hslot : own_data t k s2 = Some (VProxy rid Reactive (VObj rt))).
    { apply (own_data_slot_value t k s2 (Hkeep Hne) Hplain).
      apply slot_value_data; [exact Hk|discriminate]. }
    split.
    + exact (@read_ref_slot n (proxies s0) rid t rt k v s2 Hslot Href Hval Hv).
    + exact (@read_through_wrapper Day7 n rid rt k_value v s2 eq_refl Hval Hv).
Qed.

(** ** Reads through a readonly proxy (day-6) *)

(** X12: a read through a readonly proxy tracks like a reactive one: it
    subscribes the running effect to the key of the target and returns
    the value, or a new readonly proxy of it when it is an object, so
    that a nested object can be read and not written either.  When the
    target is itself a reactive proxy the read goes through its trap as
    well: the running effect is subscribed to the key of the raw object
    too, and a write through the reactive proxy will queue it. *)
Theorem readonly_reads_track :
  forall (n id : nat) (target_id a : nat) (k : key) (v : value) (s : State),
    own_data a k s = Some v ->
    (isObject v = false ->
     i_get (interp Day6 (2 + n)) (VProxy id Readonly (VObj a)) k s
       = Ok v (track (OAddr a) k s) /\
     i_get (interp Day6 (3 + n))
         (VProxy id Readonly (VProxy target_id Reactive (VObj a))) k s
       = Ok v (track (OProxy target_id) k (track (OAddr a) k s)) /\
     forall e, activeEffect s = Some e ->
       In e (deps_of (OAddr a) k
               (track (OProxy target_id) k (track (OAddr a) k s)))) /\
    (isObject v = true ->
     i_get (interp Day6 (2 + n)) (VProxy id Readonly (VObj a)) k s
       = Ok (VProxy (proxies s) Readonly v)
            (set_proxies (S (proxies s)) (track (OAddr a) k s))).
Proof.
  intros n id rid a k v s Hk. split.
  - intros Hv.
    assert (Hraw : forall m kind w,
               i_get (interp Day6 (2 + m)) (VProxy w kind (VObj a)) k s
               = Ok v (track (OAddr a) k s)).
    { intros m kind w. cbn [Nat.add]. rewrite i_get_S. unfold get_step, proxy_get.
      unfold bind at 1. rewrite i_get_S. unfold get_step.
      rewrite (raw_get_own_data _ _ _ _ Hk). unfold bind, modify.
      rewrite Hv, andb_false_r. reflexivity. }
    split; [apply Hraw|]. split.
    + change (3 + n) with (S (2 + n)). rewrite i_get_S. unfold get_step, proxy_get.
      unfold bind at 1. rewrite Hraw. unfold bind, modify.
      rewrite Hv, andb_false_r. reflexivity.
    + intros e He. rewrite deps_of_track_other by discriminate.
      now apply track_subscribes.
  - intros Hv. cbn [Nat.add]. rewrite i_get_S. unfold get_step, proxy_get.
    unfold bind at 1. rewrite i_get_S. unfold get_step.
    rewrite (raw_get_own_data _ _ _ _ Hk). unfold bind, modify.
    assert (Ht : truthy v = true) by (destruct v; try discriminate; reflexivity).
    rewrite Ht, Hv. cbn [andb track_on identity]. unfold readonly, new_proxy.
    rewrite Hv. now rewrite proxies_track.
Qed.

(** X13: [readonly] puts no mark on its proxies, and [isReadonly] only
    reads the property [__v_isReadonly] through the value it is given:
    on a proxy of an object that has no such property it returns false,
    for a readonly proxy as for a reactive one (and subscribes the
    running effect to that key of the target); on a proxy of an object
    that holds a true [__v_isReadonly] it returns true for both. *)
Theorem isReadonly_ignores_the_proxy_kind :
  forall (n id a : nat) (kind : proxy_kind) (s : State),
    (lacks a k_isReadonly s = true ->
     isReadonly Day6 (interp Day6 (2 + n)) (VProxy id kind (VObj a)) s
       = Ok false (track (OAddr a) k_isReadonly s)) /\
    (own_data a k_isReadonly s = Some (VBool true) ->
     isReadonly Day6 (interp Day6 (2 + n)) (VProxy id kind (VObj a)) s
       = Ok true (track (OAddr a) k_isReadonly s)).
Proof.
  intros n id a kind s. split; intros H.
  - unfold isReadonly. cbn [truthy Nat.add]. unfold bind at 1.
    rewrite i_get_S. unfold get_step, proxy_get. unfold bind at 1.
    rewrite i_get_S. unfold get_step. rewrite (raw_get_lacks _ _ _ _ H).
    reflexivity.
  - unfold isReadonly. cbn [truthy Nat.add]. unfold bind at 1.
    rewrite i_get_S. unfold get_step, proxy_get. unfold bind at 1.
    rewrite i_get_S. unfold get_step. rewrite (raw_get_own_data _ _ _ _ H).
    reflexivity.
Qed.

(** ** isRef and unref (day-7) *)

Lemma own_data_alloc :
  forall (o : obj) (k : key) (v : value) (s : State),
    arr_length o = None ->
    alist_get key_eqb k (props o) = Some (Data v) ->
    own_data (List.length (heap s)) k (set_heap (heap s ++ [o]) s) = Some v.
Proof.
  intros o k v s Hl Hk. unfold own_data, heap_get. cbn [heap set_heap].
  rewrite nth_error_app2, Nat.sub_diag by lia. cbn. now rewrite Hl, Hk.
Qed.

(** X14: in day-7 [unref] undoes [ref]: for a value [v] that is no
    object, [ref(v)] is a new reactive proxy on which [isRef] is true
    and [unref] returns [v]; both read the ref through its proxy and so
    subscribe the running effect to the keys of the ref.  [unref] of a
    value that is no object is that value, and nothing changes. *)
Theorem unref_undoes_ref :
  forall (n : nat) (v : value) (s : State),
    isObject v = false ->
    let a := List.length (heap s) in
    let p := VProxy (proxies s) Reactive (VObj a) in
    unref Day7 (interp Day7 (S n)) v s = Ok v s /\
    exists s1,
      ref Day7 v s = Ok p s1 /\
      own_data a k_value s1 = Some v /\
      isRef (interp Day7 (2 + n)) p s1 = Ok true (track (OAddr a) k_isRef s1) /\
      unref Day7 (interp Day7 (2 + n)) p s1
        = Ok v (track (OAddr a) k_value (track (OAddr a) k_isRef s1)).
Proof.
  intros n v s Hv a p. split.
  - unfold unref, bind. now rewrite (isRef_primitive Day7 n v s Hv).
  - eexists. split; [reflexivity|].
    set (s1 := set_proxies _ _).
    assert (Hflag : own_data a k_isRef s1 = Some (VBool true)).
    { subst s1 a. unfold own_data, heap_get. cbn [heap set_heap set_proxies].
      rewrite nth_error_app2, Nat.sub_diag by lia. reflexivity. }
    assert (Hval : own_data a k_value s1 = Some v).
    { subst s1 a. unfold own_data, heap_get. cbn [heap set_heap set_proxies].
      rewrite nth_error_app2, Nat.sub_diag by lia. reflexivity. }
    assert (His : forall m s2, heap s2 = heap s1 ->
               isRef (interp Day7 (2 + m)) p s2 = Ok true (track (OAddr a) k_isRef s2)).
    { intros m s2 Hh. unfold isRef. subst p. cbn [truthy Nat.add]. unfold bind at 1.
      rewrite i_get_S. unfold get_step, proxy_get. unfold bind at 1.
      rewrite i_get_S. unfold get_step.
      rewrite (raw_get_own_data _ _ _ _ (eq_trans (own_data_heap a k_isRef _ _ Hh) Hflag)).
      unfold bind at 1. rewrite (isRef_primitive Day7 m (VBool true) s2 eq_refl).
      reflexivity. }
    split; [exact Hval|]. split; [apply His; reflexivity|].
    unfold unref. unfold bind at 1. rewrite (His n s1 eq_refl).
    subst p. cbn [Nat.add]. rewrite i_get_S. unfold get_step, proxy_get.
    unfold bind at 1. rewrite i_get_S. unfold get_step.
    rewrite (raw_get_own_data _ _ _ _
               (eq_trans (own_data_track a k_value (OAddr a) k_isRef s1) Hval)).
    unfold bind at 1. rewrite (isRef_primitive Day7 n v _ Hv).
    unfold bind, modify. rewrite Hv. cbn [track_on identity]. reflexivity.
Qed.

(** ** From the interpreter to passes and turns *)

Section Turns.
Variable F : file.
Variable P : State -> Prop.
Variable R : State -> State -> Prop.
Variable ok : job -> Prop.

Hypothesis R_refl : forall s, R s s.
Hypothesis R_trans : forall a b c, R a b -> R b c -> R a c.
Hypothesis H_interp : forall n, sound_interp P R ok (interp F n).
Hypothesis H_pending :
  forall s i j, P s -> nth_error (queue s) i = Some (Some j) -> ok j.
Hypothesis H_flush_end :
  forall s, P s ->
    let s' := set_isFlushPending false (set_queue [] s) in P s' /\ R s s'.
Hypothesis H_microtask :
  forall m s, P s -> microtasks s = S m ->
    P (set_microtasks m s) /\ R s (set_microtasks m s).

Lemma run_sound_at : forall (n : nat) (p : prog), sound P R (run F n p).
Proof.
  intros n p. unfold run.
  exact (proj2 (proj2 (proj2 (proj2 (H_interp (S n))))) p).
Qed.

Lemma flush_loop_sound :
  forall (n steps i : nat), sound P R (flush_loop (interp F n) steps i).
Proof.
  intros n steps. induction steps as [|m IH]; intros i s Hs; [exact Logic.I|].
  cbn [flush_loop]. destruct (nth_error (queue s) i) as [[j|]|] eqn:Ei.
  - pose proof (proj1 (proj2 (proj2 (proj2 (H_interp n)))) j (H_pending _ Hs Ei) s Hs)
      as H1.
    unfold bind.
    destruct (i_call (interp F n) j s) as [[] s1|x s1|]; [|exact H1|exact Logic.I].
    destruct H1 as [H1 HR1]. pose proof (IH (S i) s1 H1) as H2.
    destruct (flush_loop (interp F n) m (S i) s1) as [rest s2|x s2|];
      [| |exact Logic.I]; (split; [apply H2|exact (R_trans HR1 (proj2 H2))]).
  - exact (IH (S i) s Hs).
  - cbn. auto.
Qed.

Lemma flushJobs_sound : forall (depth : nat), sound P R (flushJobs F depth).
Proof.
  intros depth s Hs. unfold flushJobs, flush_with, bind.
  pose proof (@flush_loop_sound depth depth 0 s Hs) as H.
  destruct (flush_loop (interp F depth) depth 0 s) as [v s1|x s1|];
    [|exact H|exact Logic.I].
  cbn. destruct H as [H1 HR1]. destruct (H_flush_end H1) as [H2 HR2].
  split; [exact H2|exact (R_trans HR1 HR2)].
Qed.

Lemma checkpoint_sound :
  forall (depth rounds : nat) (s s' : State),
    P s -> checkpoint F depth rounds s = Some s' -> P s' /\ R s s'.
Proof.
  intros depth rounds. induction rounds as [|r IH]; intros s s' Hs H.
  - cbn in H. destruct (microtasks s); [injection H as <-; auto|discriminate].
  - cbn [checkpoint] in H. destruct (microtasks s) as [|m] eqn:Em;
      [injection H as <-; auto|].
    destruct (H_microtask Hs Em) as [Hm HRm].
    pose proof (@flushJobs_sound depth _ Hm) as Hf.
    destruct (flushJobs F depth (set_microtasks m s)) as [v s1|x s1|];
      [| |discriminate];
      (destruct Hf as [Hf HRf]; destruct (IH _ _ Hf H) as [H' HR'];
       split; [exact H'|exact (R_trans HRm (R_trans HRf HR'))]).
Qed.

Lemma turn_sound :
  forall (depth : nat) (p : prog) (s s' : State),
    P s -> turn F depth p s = Some s' -> P s' /\ R s s'.
Proof.
  intros depth p s s' Hs H. unfold turn in H.
  pose proof (@run_sound_at depth p s Hs) as Hr.
  destruct (run F depth p s) as [v s1|x s1|]; [| |discriminate];
    (destruct Hr as [Hr HRr];
     destruct (@checkpoint_sound depth depth _ _ Hr H) as [H' HR'];
     split; [exact H'|exact (R_trans HRr HR')]).
Qed.

Lemma turns_sound :
  forall (depth : nat) (ps : list prog) (s s' : State),
    P s -> turns F depth ps s = Some s' -> P s' /\ R s s'.
Proof.
  intros depth ps. induction ps as [|p ps IH]; intros s s' Hs H.
  - cbn in H. injection H as <-. auto.
  - cbn [turns] in H. destruct (turn F depth p s) as [s1|] eqn:E; [|discriminate].
    destruct (@turn_sound depth p _ _ Hs E) as [H1 HR1].
    destruct (IH _ _ H1 H) as [H2 HR2].
    split; [exact H2|exact (R_trans HR1 HR2)].
Qed.
End Turns.

(** ** The dependency graph the engine keeps *)

Lemma graph_ok_same_graph :
  forall (s s' : State), targetMap s' = targetMap s -> graph_ok s -> graph_ok s'.
Proof. intros s s' E. unfold graph_ok. now rewrite E. Qed.

Lemma interp_keeps_graph_ok :
  forall (F : file) (n : nat),
    sound_interp graph_ok (fun _ _ => True) (fun _ => True) (interp F n).
Proof.
  intros F n. apply interp_sound; try (intros; exact Logic.I).
  - intros s s' H (_ & Et & _). split; [exact (@graph_ok_same_graph s s' Et H)|exact Logic.I].
  - intros t k s H. split; [now apply graph_ok_track|exact Logic.I].
  - intros t k s H. split; [|exact Logic.I].
    exact (@graph_ok_same_graph s _ (proj1 (trigger_frame t k s)) H).
  - intros j s _ H. now split.
  - intros s H. now split.
  - intros j s _ H. now split.
  - intros s H. now split.
  - intros c s _ H. now split.
  - intros body s H. split; [exact H|split; exact Logic.I].
  - intros j s _ H. split; [|exact Logic.I].
    exact (@graph_ok_same_graph s _ (targetMap_queueJob j s) H).
  - intros j s H. split; [exact H|exact Logic.I].
  - intros j s H. split; [now apply graph_ok_removeEffect|exact Logic.I].
Qed.

Lemma turns_keep_graph_ok :
  forall (F : file) (depth : nat) (ps : list prog) (s s' : State),
    graph_ok s -> turns F depth ps s = Some s' -> graph_ok s'.
Proof.
  intros F depth ps s s' Hs H.
  refine (proj1 (@turns_sound F graph_ok (fun _ _ => True) (fun _ => True)
                   _ _ (interp_keeps_graph_ok F) _ _ _ depth ps s s' Hs H)).
  - intros; exact Logic.I.
  - intros; exact Logic.I.
  - intros; exact Logic.I.
  - intros s0 H0. cbn. now split.
  - intros m s0 H0 _. now split.
Qed.

(** X15: the dependency graph stays as [Map]s and [Set]s hold it and as
    the engine tidies it, through everything the scripts do: after any
    script or handler, and after any number of turns with their
    flushes, every target and every key is in the graph once, no effect
    is twice in a set, and no set and no map of keys is empty. *)
Theorem graph_stays_well_formed :
  forall (F : file) (depth : nat) (s : State),
    graph_ok s ->
    (forall p,
        match run F depth p s with
        | Ok _ s' | Throw _ s' => graph_ok s'
        | Timeout => True
        end) /\
    (forall ps s', turns F depth ps s = Some s' -> graph_ok s').
Proof.
  intros F depth s Hs. split.
  - intros p.
    pose proof (@run_sound_at F graph_ok (fun _ _ => True) (fun _ => True)
                  (interp_keeps_graph_ok F) depth p s Hs) as H.
    destruct (run F depth p s); [apply H|apply H|exact Logic.I].
  - intros ps s' H. exact (turns_keep_graph_ok F depth ps Hs H).
Qed.

(** ** An effect that has been stopped *)

Lemma unsubscribed_by_removeEffect :
  forall (w : job) (s : State), ~ subscribed w (removeEffect w s).
Proof.
  intros w s (t & m & k & dep & Ht & Hk & Hw). rewrite removeEffect_purge in Ht.
  apply in_flat_map in Ht. destruct Ht as ([t0 m0] & Hin & H). cbn in H.
  unfold purge_map in H.
  destruct (remove_from_depsMap w m0) as [|y r] eqn:E; [contradiction|].
  destruct H as [H|[]]. injection H as <- <-. rewrite <- E in Hk.
  apply remove_from_depsMap_entries in Hk. destruct Hk as (dep0 & _ & Hp).
  apply purge_some in Hp. destruct Hp as [-> _].
  apply dep_delete_in in Hw. now destruct Hw.
Qed.

Lemma retired_mono :
  forall (e : nat) (s s' : State),
    retired e s ->
    List.length (effects s) <= List.length (effects s') ->
    (In (Wrapped e) (pending (queue s')) -> In (Wrapped e) (pending (queue s))) ->
    (subscribed (Wrapped e) s' -> subscribed (Wrapped e) s) ->
    (activeEffect s' = Some (Wrapped e) -> activeEffect s = Some (Wrapped e)) ->
    (In (Wrapped e) (effectStack s') -> In (Wrapped e) (effectStack s)) ->
    retired e s'.
Proof.
  intros e s s' (Hlt & Hq & Hsub & Hact & Hst) Hl Hq' Hs' Ha' Hst'.
  split; [lia|]. repeat split; auto.
Qed.

Lemma retired_queueJob :
  forall (e : nat) (j : job) (s : State),
    j <> Wrapped e -> retired e s -> retired e (queueJob j s).
Proof.
  intros e j s Hj H.
  destruct (queueJob_fields j s) as (Et & Ea & Es & Ec & Ee).
  apply (retired_mono H).
  - now rewrite Ee.
  - rewrite queue_queueJob. intros Hin. apply queue_add_inv in Hin.
    destruct Hin as [E|Hin]; [congruence|exact Hin].
  - exact (subscribed_same_graph _ Et).
  - now rewrite Ea.
  - now rewrite Es.
Qed.

Lemma retired_trigger :
  forall (e : nat) (t : objid) (k : key) (s : State),
    retired e s -> retired e (trigger t k s).
Proof.
  intros e t k s H. unfold trigger.
  destruct (alist_get objid_eqb t (targetMap s)) as [m|] eqn:Et; [|exact H].
  destruct (alist_get key_eqb k m) as [dep|] eqn:Ek; [|exact H].
  assert (Hdep : forall j, In j dep -> j <> Wrapped e).
  { intros j Hj ->. destruct H as (_ & _ & Hsub & _). apply Hsub.
    apply (@deps_of_subscribed t k (Wrapped e) s). unfold deps_of.
    now rewrite Et, Ek. }
  clear Et Ek. revert s H. induction dep as [|d dep IH]; intros s H; [exact H|].
  cbn. apply IH.
  - intros j Hj. apply Hdep. now right.
  - apply retired_queueJob; [apply Hdep; now left|exact H].
Qed.

Lemma calls_trigger :
  forall (t : objid) (k : key) (s : State), calls (trigger t k s) = calls s.
Proof.
  intros t k s. unfold trigger.
  destruct (alist_get objid_eqb t (targetMap s)) as [m|]; [|reflexivity].
  destruct (alist_get key_eqb k m) as [dep|]; [|reflexivity].
  revert s. induction dep as [|d dep IH]; intros s; [reflexivity|].
  cbn. rewrite IH. apply calls_queueJob.
Qed.

(** A retired effect stays retired, and its body is not called, through
    every operation of the interpreter. *)
Lemma interp_keeps_retired :
  forall (F : file) (e : nat) (n : nat),
    sound_interp (retired e)
      (fun s s' => count_calls (CBody e) s' = count_calls (CBody e) s)
      (fun j => j <> Wrapped e) (interp F n).
Proof.
  intros F e n. apply interp_sound.
  - reflexivity.
  - intros a b c H1 H2. now rewrite H2.
  - intros s s' H (Eq & Et & Ea & Es & Ec & Ee). split.
    + apply (retired_mono H).
      * now rewrite Ee.
      * now rewrite Eq.
      * exact (subscribed_same_graph _ Et).
      * now rewrite Ea.
      * now rewrite Es.
    + unfold count_calls. now rewrite Ec.
  - (* track *)
    intros t k s H. split; [|unfold count_calls; now rewrite calls_track].
    assert (E : queue (track t k s) = queue s /\
                effectStack (track t k s) = effectStack s /\
                effects (track t k s) = effects s).
    { unfold track. now destruct (activeEffect s). }
    destruct E as (Eq & Es & Ee).
    apply (retired_mono H).
    + now rewrite Ee.
    + now rewrite Eq.
    + intros Hs. apply subscribed_track in Hs. destruct Hs as [Hs|Hs]; [exact Hs|].
      now destruct H as (_ & _ & _ & Ha & _).
    + now rewrite activeEffect_track.
    + now rewrite Es.
  - intros t k s H. split; [now apply retired_trigger|].
    unfold count_calls. now rewrite calls_trigger.
  - (* pushEffect *)
    intros j s Hj H. split; [|reflexivity]. apply (retired_mono H); cbn; auto.
    + intros E. congruence.
    + intros Hin. apply in_app_or in Hin. destruct Hin as [Hin|[E|[]]]; [exact Hin|].
      congruence.
  - (* popEffect *)
    intros s H. split; [|reflexivity]. apply (retired_mono H); cbn; auto.
    + intros E. apply last_some_in in E. apply removelast_in in E.
      now destruct H as (_ & _ & _ & _ & Hst).
    + apply removelast_in.
  - intros j s Hj H. split; [|reflexivity]. apply (retired_mono H); cbn; auto.
    intros E. congruence.
  - intros s H. split; [|reflexivity]. apply (retired_mono H); cbn; auto.
    discriminate.
  - (* a recorded call *)
    intros c s Hok H. split; [apply (retired_mono H); cbn; auto|].
    rewrite count_calls_record.
    destruct c as [e'|e'|c']; cbn; try lia.
    destruct (Nat.eqb e e') eqn:E; [|lia].
    apply Nat.eqb_eq in E. subst e'. now contradiction Hok.
  - (* a new effect *)
    intros body s H. cbn. split; [|split; [reflexivity|]].
    + apply (retired_mono H); cbn; auto. rewrite length_app. lia.
    + intros E. injection E as E. destruct H as (Hlt & _). lia.
  - intros j s Hj H. split; [now apply retired_queueJob|].
    unfold count_calls. now rewrite calls_queueJob.
  - (* queue.delete *)
    intros j s H. cbn. split; [|reflexivity]. apply (retired_mono H); cbn; auto.
    rewrite pending_queue_delete. intros Hin. now apply filter_In in Hin.
  - (* removeEffect *)
    intros j s H. split; [|reflexivity]. apply (retired_mono H); cbn; auto.
    apply subscribed_removeEffect.
  - intros t k i j s (_ & _ & Hsub & _) Hn ->. apply Hsub.
    apply (@deps_of_subscribed t k (Wrapped e) s). eapply nth_error_In. exact Hn.
  - intros c. discriminate.
Qed.

Lemma turns_keep_retired :
  forall (F : file) (e depth : nat) (ps : list prog) (s s' : State),
    retired e s -> turns F depth ps s = Some s' ->
    retired e s' /\ count_calls (CBody e) s' = count_calls (CBody e) s.
Proof.
  intros F e depth ps s s' Hs H.
  refine (@turns_sound F (retired e)
            (fun s s' => count_calls (CBody e) s' = count_calls (CBody e) s)
            (fun j => j <> Wrapped e) _ _ (interp_keeps_retired F e) _ _ _
            depth ps s s' Hs H).
  - reflexivity.
  - intros a b c H1 H2. now rewrite H2.
  - intros s0 i j (_ & Hq & _) Hn ->. apply Hq. exact (nth_error_pending _ _ Hn).
  - intros s0 H0. cbn. split; [|reflexivity].
    apply (retired_mono H0); cbn; auto. intros [].
  - intros m s0 H0 _. split; [|reflexivity]. apply (retired_mono H0); cbn; auto.
Qed.

(** X16: in part_000, day-4 and day-6, [stop], called from outside the
    effect when no cleanup is registered, returns and leaves the effect
    nowhere in the engine: out of the queue, out of every dependency
    set, not running.  From then on, whatever the scripts and handlers
    of later turns do and whatever is written, the body of the effect
    is never called again. *)
Theorem stop_is_final :
  forall (F : file) (depth e : nat) (s : State),
    F = Part0 \/ F = Day4 \/ F = Day6 ->
    e < List.length (effects s) ->
    cleanup_of e s = None ->
    activeEffect s <> Some (Wrapped e) ->
    ~ In (Wrapped e) (effectStack s) ->
    let s1 :=
      removeEffect (Wrapped e)
        (set_queue (queue_delete (Wrapped e) (queue s)) s) in
    stop F (interp F depth) e s = Ok tt s1 /\
    retired e s1 /\
    forall ps s2,
      turns F depth ps s1 = Some s2 ->
      retired e s2 /\ count_calls (CBody e) s2 = count_calls (CBody e) s.
Proof.
  intros F depth e s HF Hlt Hc Ha Hst s1.
  assert (Hr : retired e s1).
  { split; [exact Hlt|]. split; [|split; [|split]].
    - cbn. apply pending_queue_delete_out.
    - apply unsubscribed_by_removeEffect.
    - exact Ha.
    - exact Hst. }
  split; [|split; [exact Hr|]].
  - unfold stop.
    destruct (nth_error (effects s) e) as [r|] eqn:Er;
      [|apply nth_error_None in Er; lia].
    assert (Hc' : cleanup_of e (set_queue (queue_delete (Wrapped e) (queue s)) s) = None)
      by exact Hc.
    destruct HF as [->|[->| ->]];
      (rewrite Er; unfold bind, modify, run_cleanup; rewrite Hc'; reflexivity).
  - intros ps s2 H.
    destruct (turns_keep_retired F depth ps Hr H) as [H1 H2].
    split; [exact H1|]. rewrite H2. reflexivity.
Qed.

(** ** Effects that run inside a write (day-2) *)

(** In day-2 every call of an effect ends with [activeEffect = null]. *)
Lemma day2_call_ends_idle :
  forall (n : nat) (j : job) (s : State),
    (activeEffect s = None \/
     exists e r, j = Wrapped e /\ nth_error (effects s) e = Some r) ->
    match i_call (interp Day2 n) j s with
    | Ok _ s' | Throw _ s' => activeEffect s' = None
    | Timeout => True
    end.
Proof.
  induction n as [|n IH]; intros j s Hs; [exact Logic.I|].
  assert (Hloop : forall steps t k i s0,
             activeEffect s0 = None ->
             match trigger_loop (interp Day2 n) steps t k i s0 with
             | Ok _ s' | Throw _ s' => activeEffect s' = None
             | Timeout => True
             end).
  { intros steps. induction steps as [|m IHm]; intros t k i s0 H0; [exact Logic.I|].
    cbn [trigger_loop]. destruct (nth_error (deps_of t k s0) i) as [x|]; [|exact H0].
    unfold bind. pose proof (IH x s0 (or_introl H0)) as H1.
    destruct (i_call (interp Day2 n) x s0) as [[] s1|y s1|]; [|exact H1|exact Logic.I].
    exact (IHm t k (S i) s1 H1). }
  rewrite i_call_S. destruct j as [e|c]; cbn [call_step].
  - unfold wrappedEffect. destruct (nth_error (effects s) e) as [r|] eqn:Er.
    + unfold bind, modify, finally.
      destruct (run_body (interp Day2 n) e r _) as [x s1|x s1|]; reflexivity.
    + destruct Hs as [Hs|(e' & r' & E & Hr)]; [exact Hs|].
      injection E as <-. congruence.
  - destruct Hs as [Hs|(e' & r' & E & _)]; [|discriminate].
    unfold computedEffect. destruct (nth_error (computeds s) c) as [r|]; [|exact Hs].
    unfold bind, modify, do_trigger. apply Hloop.
    unfold set_dirty. now destruct (nth_error (computeds s) c).
Qed.

Lemma day2_trigger_ends_idle :
  forall (n steps : nat) (t : objid) (k : key) (e : nat) (r : effect_rec) (s : State),
    nth_error (deps_of t k s) 0 = Some (Wrapped e) ->
    nth_error (effects s) e = Some r ->
    match trigger_loop (interp Day2 n) (S steps) t k 0 s with
    | Ok _ s' | Throw _ s' => activeEffect s' = None
    | Timeout => True
    end.
Proof.
  intros n steps t k e r s Hd He. cbn [trigger_loop]. rewrite Hd. unfold bind.
  pose proof (@day2_call_ends_idle n (Wrapped e) s
                (or_intror (ex_intro _ e (ex_intro _ r (conj eq_refl He))))) as H1.
  destruct (i_call (interp Day2 n) (Wrapped e) s) as [[] s1|y s1|];
    [|exact H1|exact Logic.I].
  clear Hd He. revert s1 H1. generalize 1 as i.
  induction steps as [|m IHm]; intros i s1 H1; [exact Logic.I|].
  cbn [trigger_loop]. destruct (nth_error (deps_of t k s1) i) as [x|]; [|exact H1].
  unfold bind. pose proof (@day2_call_ends_idle n x s1 (or_introl H1)) as H2.
  destruct (i_call (interp Day2 n) x s1) as [[] s2|y s2|]; [|exact H2|exact Logic.I].
  exact (IHm (S i) s2 H2).
Qed.

(** X17: day-2 has no effect stack: a write through a reactive proxy
    that changes a property with a subscriber runs the subscribers on
    the spot, and each of them ends by setting [activeEffect] to null.
    After such a write no effect is active, also when the write was
    made by a running effect, whose later reads are then tracked for
    nobody.  (This is so at every depth of evaluation at which the
    write ends.) *)
Theorem day2_write_drops_the_active_effect :
  forall (depth w a e : nat) (k : key) (o : obj) (r : effect_rec) (old v : value)
         (s : State),
    heap_get a s = Some o ->
    arr_length o = None ->
    slot_value o k = Some old ->
    isObject old = false ->
    strict_eq old v = false ->
    nth_error (deps_of (OAddr a) k s) 0 = Some (Wrapped e) ->
    nth_error (effects s) e = Some r ->
    match i_set (interp Day2 depth) (VProxy w Reactive (VObj a)) k v s with
    | Ok _ s' | Throw _ s' =>
        activeEffect s' = None /\ forall t' k', track t' k' s' = s'
    | Timeout => True
    end.
Proof.
  intros depth w a e k o r old v s Ho Hplain Hold Hprim Hneq Hd He.
  destruct depth as [|[|[|n]]]; [exact Logic.I|exact Logic.I| |].
  { change 2 with (2 + 0).
    rewrite (write_through_wrapper Day2 0 w a k v s eq_refl Ho Hplain Hold Hprim Hneq).
    exact Logic.I. }
  change (S (S (S n))) with (2 + S n).
  rewrite (write_through_wrapper Day2 (S n) w a k v s eq_refl Ho Hplain Hold Hprim Hneq).
  unfold do_trigger. rewrite i_depth_S. unfold bind.
  set (s1 := heap_set a _ s).
  pose proof (@day2_trigger_ends_idle (S (S n)) n (OAddr a) k e r s1 Hd He) as H.
  destruct (trigger_loop (interp Day2 (S (S n))) (S n) (OAddr a) k 0 s1)
    as [[] s2|y s2|]; [| |exact Logic.I];
    (cbn; split; [exact H|intros t' k'; unfold track; now rewrite H]).
Qed.

(** ** What holds of every read, write, delete and closure run
       (scripts with a scheduler)

    In the scripts with a scheduler no job is called by a read, a write
    or a closure: [trigger] only queues.  A property [T] of
    computations that is closed under sequencing, holds of every
    computation that leaves the globals alone, of the operations on the
    graph and on the queue and of the getter of a computed cell, holds
    of the four entries of the interpreter a script uses, at every
    depth. *)

Section Scripts.
Variable F : file.
Hypothesis F_sched : has_scheduler F = true.
Variable T : forall A : Type, M A -> Prop.

Hypothesis T_bind :
  forall (A B : Type) (m : M A) (k : A -> M B),
    T m -> (forall a, T (k a)) -> T (bind m k).
Hypothesis T_local :
  forall (A : Type) (m : M A),
    (forall s, exists m', T m' /\ m s = m' s) -> T m.
Hypothesis T_frame : forall (A : Type) (m : M A), leaves_globals m -> T m.
Hypothesis T_track : forall t k, T (modify (track t k)).
Hypothesis T_trigger : forall t k, T (modify (trigger t k)).
Hypothesis T_queueJob : forall j, T (modify (queueJob j)).
Hypothesis T_queue_delete :
  forall j, T (modify (fun s => set_queue (queue_delete j (queue s)) s)).
Hypothesis T_removeEffect : forall j, T (modify (removeEffect j)).
Hypothesis T_new_computed : forall g, T (computed F g).
Hypothesis T_computed_get :
  forall I, (forall p, T (i_run I p)) -> forall c, T (computed_get I c).

Lemma same_globals_refl : forall s, same_globals s s.
Proof. intros s. now repeat split. Qed.

Lemma T_ret : forall (A : Type) (a : A), T (ret a).
Proof. intros A a. apply T_frame. intros s. apply same_globals_refl. Qed.

Lemma T_throw : forall (A : Type) (e : string), T (@throw A e).
Proof. intros A e. apply T_frame. intros s. apply same_globals_refl. Qed.

Lemma T_timeout : forall (A : Type), T (@timeout A).
Proof. intros A. apply T_frame. intros s. exact Logic.I. Qed.

Lemma T_gets : forall (A : Type) (f : State -> A), T (gets f).
Proof. intros A f. apply T_frame. intros s. apply same_globals_refl. Qed.

Lemma T_modify :
  forall (f : State -> State), (forall s, same_globals s (f s)) -> T (modify f).
Proof. intros f Hf. apply T_frame. intros s. apply Hf. Qed.

Lemma T_reactive : forall (v : value), T (reactive F v).
Proof.
  intros v. apply T_frame. intros s. unfold reactive.
  destruct F; destruct (isObject v); cbn; now repeat split.
Qed.

Lemma T_readonly : forall (v : value), T (readonly F v).
Proof.
  intros v. apply T_frame. intros s. unfold readonly.
  destruct F; try destruct (isObject v); cbn; now repeat split.
Qed.

Lemma T_alloc : forall (o : obj), T (alloc o).
Proof. intros o. apply T_frame. intros s. cbn. now repeat split. Qed.

Lemma T_track_on : forall (t : value) (k : key), T (modify (track_on t k)).
Proof.
  intros t k. unfold track_on. destruct (identity t) as [i|].
  - apply T_track.
  - apply T_modify. apply same_globals_refl.
Qed.

Lemma T_do_trigger :
  forall (I : Interp) (t : objid) (k : key), T (do_trigger F I t k).
Proof.
  intros I t k. unfold do_trigger. destruct F; try discriminate F_sched; apply T_trigger.
Qed.

Lemma T_trigger_on :
  forall (I : Interp) (t : value) (k : key), T (trigger_on F I t k).
Proof.
  intros I t k. unfold trigger_on.
  destruct (identity t); [apply T_do_trigger|apply T_ret].
Qed.

Lemma T_write_data :
  forall (a : nat) (o : obj) (k : key) (v : value), T (write_data a o k v).
Proof.
  intros a o k v. apply T_frame. intros s. unfold write_data.
  destruct (arr_length o) as [n|]; [|cbn; now repeat split].
  destruct k as [name|i]; [|cbn; now repeat split].
  destruct (key_eqb (KName name) k_length); [|cbn; now repeat split].
  destruct (to_length v) as [m| |]; unfold unconverted; cbn; now repeat split.
Qed.

Lemma T_raw_delete : forall (a : nat) (k : key), T (raw_delete a k).
Proof.
  intros a k. apply T_frame. intros s. unfold raw_delete.
  destruct (heap_get a s) as [o|]; [|cbn; now repeat split].
  destruct (arr_length o); [destruct (key_eqb k k_length)|]; cbn; now repeat split.
Qed.

Lemma T_set_cleanup :
  forall (e : nat) (c : option prog), T (modify (set_cleanup e c)).
Proof.
  intros e c. apply T_modify. intros s. unfold set_cleanup.
  destruct (nth_error (effects s) e); now repeat split.
Qed.

Section OneLevel.
Variable I : Interp.
Hypothesis H_get : forall o k, T (i_get I o k).
Hypothesis H_set : forall o k v, T (i_set I o k v).
Hypothesis H_del : forall o k, T (i_delete I o k).
Hypothesis H_run : forall p, T (i_run I p).

Lemma T_isRef : forall (v : value), T (isRef I v).
Proof.
  intros v. unfold isRef. destruct (truthy v); [|apply T_ret].
  apply T_bind; [apply H_get|intros; apply T_ret].
Qed.

Lemma T_raw_get : forall (a : nat) (k : key), T (raw_get I a k).
Proof.
  intros a k. apply T_local. intros s. unfold raw_get.
  destruct (heap_get a s) as [o|]; [|exists (ret VUndef); split; [apply T_ret|reflexivity]].
  assert (Hslot : exists m',
             T m' /\
             match alist_get key_eqb k (props o) with
             | Some (Data v) => Ok v s
             | Some (RefAccessor v) => Ok v (track (OAddr a) k_value s)
             | Some (ComputedAccessor c) => computed_get I c s
             | None => Ok VUndef s
             end = m' s).
  { destruct (alist_get key_eqb k (props o)) as [[v|v|c]|].
    - exists (ret v). split; [apply T_ret|reflexivity].
    - exists (modify (track (OAddr a) k_value) ;; ret v). split; [|reflexivity].
      apply T_bind; [apply T_track|intros; apply T_ret].
    - exists (computed_get I c). split; [now apply T_computed_get|reflexivity].
    - exists (ret VUndef). split; [apply T_ret|reflexivity]. }
  destruct (arr_length o) as [n|]; [|exact Hslot].
  destruct (key_eqb k k_length); [|exact Hslot].
  exists (ret (VNum (Z.of_nat n))). split; [apply T_ret|reflexivity].
Qed.

Lemma T_proxy_get :
  forall (kind : proxy_kind) (t : value) (k : key), T (proxy_get F I kind t k).
Proof.
  intros kind t k. unfold proxy_get.
  pose proof T_reactive as Hre. pose proof T_readonly as Hro.
  destruct F.
  1, 3, 5:
    (apply T_bind; [apply H_get|intros res];
     apply T_bind; [apply T_track_on|intros _];
     destruct (truthy res && isObject res); [|apply T_ret];
     destruct kind; [apply Hre|apply Hro]).
  - apply T_bind; [apply H_get|intros res].
    apply T_bind; [apply T_track_on|intros _]. apply Hre.
  - apply T_bind; [apply H_get|intros res].
    apply T_bind; [apply T_isRef|intros r].
    destruct r; [apply H_get|].
    apply T_bind; [apply T_track_on|intros _].
    destruct (isObject res); [apply Hre|apply T_ret].
Qed.

Lemma T_get_step : forall (o : value) (k : key), T (get_step F I o k).
Proof.
  intros o k. unfold get_step.
  destruct o; first [apply T_raw_get | apply T_proxy_get | apply T_throw | apply T_ret].
Qed.

Lemma T_assign : forall (o : value) (k : key) (v : value), T (assign I o k v).
Proof.
  intros o k v. unfold assign.
  destruct o; try apply T_throw; try apply T_ret;
    (apply T_bind; [apply H_set|intros; apply T_ret]).
Qed.

Lemma T_raw_set : forall (a : nat) (k : key) (v : value), T (raw_set F I a k v).
Proof.
  intros a k v. apply T_local. intros s. unfold raw_set.
  destruct (heap_get a s) as [o|]; [|exists (ret false); split; [apply T_ret|reflexivity]].
  destruct (alist_get key_eqb k (props o)) as [[x|x|c]|];
    try (exists (write_data a o k v); split; [apply T_write_data|reflexivity]).
  - eexists. split; [|reflexivity].
    apply T_bind.
    + pose proof T_reactive as Hre. destruct F; first [apply T_ret | apply Hre].
    + intros nv. apply T_bind; [apply T_modify; intros; now repeat split|intros _].
      apply T_bind; [apply T_do_trigger|intros; apply T_ret].
  - exists (ret false). split; [apply T_ret|reflexivity].
Qed.

Lemma T_after_write :
  forall (b : bool) (t : value) (k : key),
    T (if b then trigger_on F I t k else ret tt).
Proof. intros [] t k; [apply T_trigger_on|apply T_ret]. Qed.

Lemma T_proxy_set :
  forall (kind : proxy_kind) (t : value) (k : key) (v : value),
    T (proxy_set F I kind t k v).
Proof.
  intros kind t k v. unfold proxy_set. destruct kind.
  2: { apply T_bind; [apply T_modify; intros; now repeat split|intros; apply T_ret]. }
  pose proof T_after_write as Haw. pose proof T_trigger_on as Hto.
  destruct F.
  1, 3, 5:
    (apply T_bind; [apply H_get|intros old];
     apply T_bind; [apply H_set|intros result];
     apply T_bind; [apply Haw|intros; apply T_ret]).
  - apply T_bind; [apply H_get|intros old].
    apply T_bind; [apply H_set|intros result].
    apply T_bind; [apply Haw|intros; apply T_ret].
  - apply T_bind; [apply T_gets|intros arr]. destruct arr.
    + apply T_bind; [apply H_get|intros old].
      apply T_bind; [apply H_set|intros result].
      apply T_bind; [|intros; apply T_ret].
      destruct (result && negb (strict_eq old v)); [|apply T_ret].
      apply T_bind; [apply Hto|intros _].
      destruct (negb (key_eqb k k_length)); [apply Hto|apply T_ret].
    + apply T_bind; [apply H_get|intros old].
      apply T_bind; [apply T_isRef|intros a].
      apply T_bind; [destruct a; [apply T_isRef|apply T_ret]|intros b].
      destruct (a && negb b).
      * apply T_bind; [apply T_assign|intros; apply T_ret].
      * apply T_bind; [apply H_set|intros result].
        apply T_bind; [apply Haw|intros; apply T_ret].
Qed.

Lemma T_set_step :
  forall (o : value) (k : key) (v : value), T (set_step F I o k v).
Proof.
  intros o k v. unfold set_step.
  destruct o; first [apply T_raw_set | apply T_proxy_set | apply T_throw].
Qed.

Lemma T_proxy_delete :
  forall (kind : proxy_kind) (t : value) (k : key), T (proxy_delete F I kind t k).
Proof.
  intros kind t k. unfold proxy_delete. destruct kind.
  2: { apply T_bind; [apply T_modify; intros; now repeat split|intros _].
       apply T_bind; [apply T_gets|intros fixed].
       destruct fixed; [apply T_throw|apply T_ret]. }
  pose proof T_after_write as Haw.
  destruct F; try apply H_del;
    (apply T_bind; [apply T_gets|intros had];
     apply T_bind; [apply H_del|intros result];
     apply T_bind; [apply Haw|intros; apply T_ret]).
Qed.

Lemma T_delete_step : forall (o : value) (k : key), T (delete_step F I o k).
Proof.
  intros o k. unfold delete_step.
  destruct o; first [apply T_raw_delete | apply T_proxy_delete
                    | apply T_throw | apply T_ret].
Qed.

Lemma T_run_cleanup : forall (e : nat), T (run_cleanup I e).
Proof.
  intros e. apply T_local. intros s. unfold run_cleanup.
  destruct (cleanup_of e s) as [c|]; [|exists (ret tt); split; [apply T_ret|reflexivity]].
  eexists. split; [|reflexivity].
  apply T_bind; [apply T_modify; intros; now repeat split|intros _].
  apply T_bind; [apply H_run|intros; apply T_ret].
Qed.

Lemma T_ref : forall (v : value), T (ref F v).
Proof.
  intros v. unfold ref. pose proof T_reactive as Hre.
  destruct F; try apply T_alloc.
  - apply T_bind; [apply Hre|intros; apply T_alloc].
  - apply T_bind; [apply T_alloc|intros; apply Hre].
Qed.

Lemma T_watchEffect : forall (body : nat -> prog), T (watchEffect F body).
Proof.
  intros body. unfold watchEffect.
  destruct F; try apply T_throw;
    (apply T_local; intros s;
     exists (modify (set_effects (effects s ++ [mkEffect body None])) ;;
             modify (queueJob (Wrapped (List.length (effects s)))) ;;
             ret (List.length (effects s)));
     split; [|reflexivity];
     apply T_bind; [apply T_modify; intros; now repeat split|intros _];
     apply T_bind; [apply T_queueJob|intros; apply T_ret]).
Qed.

Lemma T_stop : forall (e : nat), T (stop F I e).
Proof.
  intros e. unfold stop. pose proof T_run_cleanup as Hc.
  destruct F; try apply T_throw;
    (apply T_local; intros s;
     destruct (nth_error (effects s) e);
       [|eexists; split; [apply T_throw|reflexivity]];
     eexists; split; [|reflexivity];
     apply T_bind; [apply T_queue_delete|intros _];
     apply T_bind; [apply Hc|intros _];
     first [apply T_throw | apply T_removeEffect]).
Qed.

Lemma T_effect : forall (body : prog), T (effect F I body).
Proof.
  intros body. unfold effect. destruct F; try apply T_throw. discriminate F_sched.
Qed.

Lemma T_exec : forall (p : prog), T (exec F I p).
Proof.
  intros p. induction p; cbn [exec].
  - apply T_ret.
  - apply T_throw.
  - apply T_bind; [apply H_get|auto].
  - apply T_bind; [apply T_assign|auto].
  - apply T_bind; [apply H_del|auto].
  - apply T_bind; [apply T_alloc|auto].
  - apply T_bind; [apply T_alloc|auto].
  - apply T_bind; [apply T_ref|auto].
  - apply T_bind; [apply T_reactive|auto].
  - apply T_bind; [apply T_readonly|auto].
  - apply T_bind; [apply T_new_computed|auto].
  - apply T_bind; [apply T_watchEffect|auto].
  - apply T_bind; [apply T_stop|auto].
  - apply T_bind; [apply T_set_cleanup|auto].
  - apply T_bind; [apply T_effect|auto].
  - apply T_bind; [apply T_modify; intros; now repeat split|auto].
Qed.
End OneLevel.

Lemma interp_script_entries : forall (n : nat), script_entries T (interp F n).
Proof.
  induction n as [|n IH].
  - repeat split; intros; apply T_timeout.
  - destruct IH as (Hg & Hs & Hd & Hr). cbn [interp].
    repeat split; cbn [i_get i_set i_delete i_run]; intros.
    + now apply T_get_step.
    + now apply T_set_step.
    + now apply T_delete_step.
    + now apply T_exec.
Qed.

Lemma run_script : forall (n : nat) (p : prog), T (run F n p).
Proof.
  intros n p. unfold run. destruct (interp_script_entries n) as (Hg & Hs & Hd & Hr).
  now apply T_exec.
Qed.
End Scripts.

(** ** The effect context (day-4, day-6, day-7) *)

Lemma consistent_same_context :
  forall (s s' : State),
    effectStack s' = effectStack s -> activeEffect s' = activeEffect s ->
    consistent s -> consistent s'.
Proof. intros s s' Es Ea H. unfold consistent in *. now rewrite Es, Ea. Qed.

Lemma keeps_context_bind :
  forall (A B : Type) (m : M A) (k : A -> M B),
    keeps_context m -> (forall a, keeps_context (k a)) -> keeps_context (bind m k).
Proof.
  intros A B m k Hm Hk s Hs. unfold bind. specialize (Hm s Hs).
  destruct (m s) as [a s1|e s1|]; [|exact Hm|exact Logic.I].
  destruct Hm as [Es Ea].
  specialize (Hk a s1 (@consistent_same_context s s1 Es Ea Hs)).
  destruct (k a s1) as [b s2|e s2|]; [| |exact Logic.I].
  - destruct Hk as [Es2 Ea2]. split; congruence.
  - destruct Hk as [Hc (ext & He)]. split; [exact Hc|]. exists ext. congruence.
Qed.

Lemma keeps_context_local :
  forall (A : Type) (m : M A),
    (forall s, exists m', keeps_context m' /\ m s = m' s) -> keeps_context m.
Proof.
  intros A m H s Hs. destruct (H s) as (m' & Hm' & E). rewrite E. now apply Hm'.
Qed.

Lemma keeps_context_frame :
  forall (A : Type) (m : M A), leaves_globals m -> keeps_context m.
Proof.
  intros A m H s Hs. specialize (H s).
  destruct (m s) as [a s1|e s1|]; [| |exact Logic.I];
    destruct H as (Ea & Es & _).
  - now split.
  - split; [exact (@consistent_same_context s s1 Es Ea Hs)|].
    exists []. now rewrite app_nil_r.
Qed.

Lemma keeps_context_modify :
  forall (f : State -> State),
    (forall s, effectStack (f s) = effectStack s /\ activeEffect (f s) = activeEffect s) ->
    keeps_context (modify f).
Proof. intros f Hf s Hs. cbn. apply Hf. Qed.

Lemma context_trigger :
  forall (t : objid) (k : key) (s : State),
    effectStack (trigger t k s) = effectStack s /\
    activeEffect (trigger t k s) = activeEffect s.
Proof.
  intros t k s. unfold trigger.
  destruct (alist_get objid_eqb t (targetMap s)) as [m|]; [|now split].
  destruct (alist_get key_eqb k m) as [dep|]; [|now split].
  revert s. induction dep as [|d dep IH]; intros s; [now split|].
  cbn. destruct (IH (queueJob d s)) as [H1 H2].
  destruct (queueJob_fields d s) as (_ & Ea & Es & _). split; congruence.
Qed.

Lemma context_after_pop :
  forall (j : job) (s s' : State),
    consistent s ->
    effectStack s' = effectStack s ++ [j] ->
    effectStack (popEffect s') = effectStack s /\
    activeEffect (popEffect s') = activeEffect s.
Proof.
  intros j s s' Hs Es. unfold popEffect. cbn. rewrite Es, removelast_last.
  split; [reflexivity|]. symmetry. exact Hs.
Qed.

Lemma stack_after_pop :
  forall (j : job) (ext : list job) (s s' : State),
    effectStack s' = (effectStack s ++ [j]) ++ ext ->
    exists ext', effectStack (popEffect s') = effectStack s ++ ext'.
Proof.
  intros j ext s s' Es. unfold popEffect. cbn. rewrite Es, <- app_assoc.
  rewrite removelast_app by discriminate. eexists. reflexivity.
Qed.

Lemma consistent_popEffect : forall s, consistent (popEffect s).
Proof. intros s. reflexivity. Qed.

Lemma consistent_pushEffect : forall j s, consistent (pushEffect j s).
Proof.
  intros j s. unfold consistent, pushEffect. cbn. rewrite map_app. cbn.
  now rewrite last_last.
Qed.

Lemma keeps_context_computed_get :
  forall (I : Interp),
    (forall p, keeps_context (i_run I p)) ->
    forall c, keeps_context (computed_get I c).
Proof.
  intros I Hrun c s Hs. unfold computed_get.
  destruct (nth_error (computeds s) c) as [r|]; [|now split].
  unfold bind at 1. destruct (c_dirty r).
  - unfold bind at 1. unfold modify at 1. unfold bind at 1. unfold modify at 1.
    unfold bind at 1.
    set (s2 := record (CGetter c) (pushEffect (ComputedEffect c) s)).
    assert (Hc2 : consistent s2) by apply consistent_pushEffect.
    assert (Es2 : effectStack s2 = effectStack s ++ [ComputedEffect c]) by reflexivity.
    specialize (Hrun (c_getter r) s2 Hc2).
    destruct (i_run I (c_getter r) s2) as [v s3|e s3|]; [| |exact Logic.I].
    + destruct Hrun as [Es3 Ea3]. unfold bind, modify, gets.
      assert (Es4 : effectStack (set_value c v s3) = effectStack s ++ [ComputedEffect c]).
      { unfold set_value. destruct (nth_error (computeds s3) c); cbn; congruence. }
      destruct (@context_after_pop (ComputedEffect c) s _ Hs Es4) as [E1 E2].
      assert (Hd : forall s0, effectStack (set_dirty c false s0) = effectStack s0 /\
                              activeEffect (set_dirty c false s0) = activeEffect s0).
      { intros s0. unfold set_dirty. now destruct (nth_error (computeds s0) c). }
      assert (Ht : forall s0, effectStack (track (OAddr (c_self r)) k_value s0)
                              = effectStack s0).
      { intros s0. unfold track. now destruct (activeEffect s0). }
      rewrite Ht, activeEffect_track.
      destruct (Hd (popEffect (set_value c v s3))) as [E3 E4].
      split; congruence.
    + destruct Hrun as [Hc3 (ext & Es3)]. split; [exact Hc3|].
      exists (ComputedEffect c :: ext). rewrite Es3, Es2, <- app_assoc. reflexivity.
  - unfold ret at 1. unfold bind, modify, gets.
    split; [|apply activeEffect_track].
    unfold track. now destruct (activeEffect s).
Qed.

(** In a script with a scheduler, every read, write, delete and closure
    run keeps the effect context. *)
Lemma interp_keeps_context :
  forall (F : file) (n : nat),
    has_scheduler F = true ->
    script_entries (fun A m => keeps_context m) (interp F n).
Proof.
  intros F n HF.
  apply (@interp_script_entries F HF (fun A m => keeps_context m)).
  - exact keeps_context_bind.
  - exact keeps_context_local.
  - exact keeps_context_frame.
  - intros t k. apply keeps_context_modify. intros s. split.
    + unfold track. now destruct (activeEffect s).
    + apply activeEffect_track.
  - intros t k. apply keeps_context_modify. apply context_trigger.
  - intros j. apply keeps_context_modify. intros s.
    destruct (queueJob_fields j s) as (_ & Ea & Es & _). now split.
  - intros j. apply keeps_context_modify. intros s. now split.
  - intros j. apply keeps_context_modify. intros s. now split.
  - intros g s Hs. unfold computed.
    destruct F; cbn;
      first [now split | split; [exact Hs|exists []; now rewrite app_nil_r]].
  - exact keeps_context_computed_get.
Qed.

Lemma keeps_context_run_cleanup :
  forall (I : Interp) (e : nat),
    (forall p, keeps_context (i_run I p)) -> keeps_context (run_cleanup I e).
Proof.
  intros I e Hrun.
  exact (@T_run_cleanup (fun A m => keeps_context m) keeps_context_bind
           keeps_context_local keeps_context_frame I Hrun e).
Qed.

Lemma keeps_context_wrappedEffect :
  forall (F : file) (I : Interp) (e : nat),
    F = Day4 \/ F = Day6 \/ F = Day7 ->
    (forall p, keeps_context (i_run I p)) -> keeps_context (wrappedEffect F I e).
Proof.
  intros F I e HF Hrun.
  assert (Hbody : forall r,
             keeps_context (run_cleanup I e ;;
                            modify (pushEffect (Wrapped e)) ;;
                            modify (set_cleanup e None) ;;
                            finally (run_body I e r) popEffect)).
  { intros r. apply keeps_context_bind; [now apply keeps_context_run_cleanup|intros _].
    intros s Hs. unfold bind, modify, finally.
    set (s2 := set_cleanup e None (pushEffect (Wrapped e) s)).
    assert (Es2 : effectStack s2 = effectStack s ++ [Wrapped e]).
    { subst s2. unfold set_cleanup. now destruct (nth_error _ e). }
    assert (Hc2 : consistent s2).
    { apply (@consistent_same_context (pushEffect (Wrapped e) s) s2).
      - exact Es2.
      - subst s2. unfold set_cleanup. now destruct (nth_error _ e).
      - apply consistent_pushEffect. }
    assert (Hb : keeps_context (run_body I e r)).
    { unfold run_body.
      apply keeps_context_bind; [apply keeps_context_modify; intros; now split|intros _].
      apply keeps_context_bind; [apply Hrun|intros v].
      apply keeps_context_frame. intros s0. apply same_globals_refl. }
    specialize (Hb s2 Hc2).
    destruct (run_body I e r s2) as [x s3|x s3|]; [| |exact Logic.I].
    - destruct Hb as [Es3 Ea3].
      apply (@context_after_pop (Wrapped e) s s3 Hs). rewrite Es3. exact Es2.
    - destruct Hb as [_ (ext & Es3)]. split; [apply consistent_popEffect|].
      apply (@stack_after_pop (Wrapped e) ext s s3). rewrite Es3, Es2. reflexivity. }
  intros s Hs. unfold wrappedEffect.
  destruct (nth_error (effects s) e) as [r|].
  - destruct HF as [->|[->| ->]]; exact (Hbody r s Hs).
  - split; [exact Hs|]. exists []. now rewrite app_nil_r.
Qed.

Lemma keeps_context_computedEffect :
  forall (F : file) (I : Interp) (c : nat),
    has_scheduler F = true -> keeps_context (computedEffect F I c).
Proof.
  intros F I c HF s Hs. unfold computedEffect.
  destruct (nth_error (computeds s) c) as [r|].
  - unfold bind, modify, do_trigger.
    assert (Hd : effectStack (set_dirty c true s) = effectStack s /\
                 activeEffect (set_dirty c true s) = activeEffect s).
    { unfold set_dirty. now destruct (nth_error (computeds s) c). }
    destruct (context_trigger (OAddr (c_self r)) k_value (set_dirty c true s)) as [E1 E2].
    destruct Hd as [D1 D2].
    destruct F; try discriminate HF; unfold modify;
      (split; [rewrite E1; exact D1|rewrite E2; exact D2]).
  - split; [exact Hs|]. exists []. now rewrite app_nil_r.
Qed.

(** X18: the effect stack does its work in day-4, day-6 and day-7, for
    closures that catch no error (the closures of the embedding, [prog],
    have no [try]: an error raised inside one leaves it).  From a state
    where [activeEffect] is the top of the stack, every read, write,
    delete, run of such a closure and call of an effect of such
    closures that returns leaves the stack and [activeEffect] as it
    found them, however many computed cells it has evaluated on the
    way: an effect that reads a computed cell is the active effect
    again when the getter has returned, and its later reads are
    tracked for it.  One that raises leaves [activeEffect] the top of a
    stack that begins with the one it found.  A closure that catches
    the error of a raising getter is outside of this statement: it
    returns with what the getter left on the stack (X19). *)
Theorem effect_context_is_restored :
  forall (F : file) (n : nat),
    F = Day4 \/ F = Day6 \/ F = Day7 ->
    (forall o k, keeps_context (i_get (interp F n) o k)) /\
    (forall o k v, keeps_context (i_set (interp F n) o k v)) /\
    (forall o k, keeps_context (i_delete (interp F n) o k)) /\
    (forall p, keeps_context (i_run (interp F n) p)) /\
    (forall j, keeps_context (i_call (interp F n) j)).
Proof.
  intros F n HF.
  assert (HS : has_scheduler F = true) by (destruct HF as [->|[->| ->]]; reflexivity).
  destruct (@interp_keeps_context F n HS) as (Hg & Hs & Hd & Hr).
  do 4 (split; [assumption|]). clear Hg Hs Hd Hr.
  intros j. destruct n as [|n]; [intros s Hs; exact Logic.I|].
  rewrite i_call_S.
  destruct (@interp_keeps_context F n HS) as (_ & _ & _ & Hrun).
  destruct j as [e|c]; cbn [call_step].
  - now apply keeps_context_wrappedEffect.
  - now apply keeps_context_computedEffect.
Qed.

(** ** A getter that raises *)

Lemma last_some_app :
  forall (l ext : list job) (j : job),
    last (map Some (l ++ j :: ext)) None <> None.
Proof.
  intros l ext j. rewrite map_app. cbn [map].
  destruct (exists_last (l := Some j :: map Some ext)) as (l' & x & E);
    [discriminate|].
  rewrite E, app_assoc, last_last.
  intros ->. assert (Hin : In (@None job) (Some j :: map Some ext)).
  { rewrite E. apply in_or_app. right. now left. }
  destruct Hin as [Hin|Hin]; [discriminate|].
  apply in_map_iff in Hin. destruct Hin as (y & Hy & _). discriminate.
Qed.

(** X19: the getter of a computed cell is not called under [try]: when
    it raises, [popEffect] is skipped.  The error reaches the code that
    read [value], and the invalidation closure of the cell stays on the
    effect stack; [activeEffect] is not null from then on, so that
    reads made by code outside of any effect are tracked. *)
Theorem raising_getter_stays_on_the_stack :
  forall (F : file) (n a c : nat) (o : obj) (r : computed_rec) (err : string)
         (s s' : State),
    has_scheduler F = true ->
    consistent s ->
    heap_get a s = Some o ->
    alist_get key_eqb k_value (props o) = Some (ComputedAccessor c) ->
    nth_error (computeds s) c = Some r ->
    c_dirty r = true ->
    i_get (interp F (S n)) (VObj a) k_value s = Throw err s' ->
    i_run (interp F n) (c_getter r)
      (record (CGetter c) (pushEffect (ComputedEffect c) s)) = Throw err s' /\
    (exists ext, effectStack s' = effectStack s ++ ComputedEffect c :: ext) /\
    activeEffect s' <> None.
Proof.
  intros F n a c o r err s s' HF Hs Ho Hk Hc Hd Hget.
  rewrite i_get_S in Hget. unfold get_step, raw_get in Hget.
  rewrite Ho, Hk in Hget.
  assert (Hget' : computed_get (interp F n) c s = Throw err s').
  { destruct (arr_length o); exact Hget. }
  clear Hget. unfold computed_get in Hget'. rewrite Hc, Hd in Hget'.
  unfold bind at 1 in Hget'. unfold bind at 1 in Hget'. unfold modify at 1 in Hget'.
  unfold bind at 1 in Hget'. unfold modify at 1 in Hget'.
  unfold bind at 1 in Hget'.
  set (s2 := record (CGetter c) (pushEffect (ComputedEffect c) s)) in *.
  destruct (@interp_keeps_context F n HF) as (_ & _ & _ & Hrun).
  specialize (Hrun (c_getter r) s2 (consistent_pushEffect _ _)).
  destruct (i_run (interp F n) (c_getter r) s2) as [v s3|e s3|] eqn:E;
    [discriminate| |discriminate].
  injection Hget' as -> ->.
  destruct Hrun as [Hc' (ext & Es)].
  split; [reflexivity|].
  assert (Es' : effectStack s' = effectStack s ++ ComputedEffect c :: ext).
  { rewrite Es. subst s2. cbn. now rewrite <- app_assoc. }
  split; [now exists ext|].
  unfold consistent in Hc'. rewrite Hc', Es'. apply last_some_app.
Qed.

(** ** The schedule: one flush at a time *)

Lemma sched_step_refl : forall s, sched_step s s.
Proof. intros s. split; auto. Qed.

Lemma sched_step_trans :
  forall a b c, sched_step a b -> sched_step b c -> sched_step a c.
Proof.
  intros a b c [H1 H2] [H3 H4]. split.
  - intros Ha. destruct (H1 Ha) as [Hb Em]. destruct (H3 Hb) as [Hc Em'].
    split; [exact Hc|congruence].
  - auto.
Qed.

Lemma sched_step_same :
  forall (s s' : State),
    isFlushPending s' = isFlushPending s -> microtasks s' = microtasks s ->
    sched_step s s'.
Proof.
  intros s s' Ef Em. split.
  - intros H. split; congruence.
  - unfold one_flush. rewrite Ef, Em. auto.
Qed.

Lemma sched_step_queueJob : forall (j : job) (s : State), sched_step s (queueJob j s).
Proof.
  intros j s. pose proof (isFlushPending_queueJob j s) as Hf.
  pose proof (microtasks_queueJob j s) as Hm. split.
  - intros H. rewrite H in Hm. now split.
  - intros [H0|[H1 Hflag]].
    + destruct (isFlushPending s).
      * left. congruence.
      * right. split; [congruence|exact Hf].
    + right. rewrite Hflag in Hm. split; [congruence|exact Hf].
Qed.

Lemma sched_step_trigger :
  forall (t : objid) (k : key) (s : State), sched_step s (trigger t k s).
Proof.
  intros t k s. unfold trigger.
  destruct (alist_get objid_eqb t (targetMap s)) as [m|]; [|apply sched_step_refl].
  destruct (alist_get key_eqb k m) as [dep|]; [|apply sched_step_refl].
  revert s. induction dep as [|d dep IH]; intros s; [apply sched_step_refl|].
  cbn. exact (sched_step_trans (sched_step_queueJob d s) (IH _)).
Qed.

Lemma keeps_one_flush_bind :
  forall (A B : Type) (m : M A) (k : A -> M B),
    keeps_one_flush m -> (forall a, keeps_one_flush (k a)) ->
    keeps_one_flush (bind m k).
Proof.
  intros A B m k Hm Hk s. unfold bind. specialize (Hm s).
  destruct (m s) as [a s1|e s1|]; [|exact Hm|exact Logic.I].
  specialize (Hk a s1).
  destruct (k a s1) as [b s2|e s2|]; [| |exact Logic.I];
    exact (sched_step_trans Hm Hk).
Qed.

Lemma keeps_one_flush_local :
  forall (A : Type) (m : M A),
    (forall s, exists m', keeps_one_flush m' /\ m s = m' s) -> keeps_one_flush m.
Proof.
  intros A m H s. destruct (H s) as (m' & Hm' & E). rewrite E. apply Hm'.
Qed.

Lemma keeps_one_flush_frame :
  forall (A : Type) (m : M A), leaves_globals m -> keeps_one_flush m.
Proof.
  intros A m H s. specialize (H s).
  destruct (m s) as [a s1|e s1|]; [| |exact Logic.I];
    destruct H as (_ & _ & _ & _ & Ef & Em & _); now apply sched_step_same.
Qed.

Lemma keeps_one_flush_modify :
  forall (f : State -> State),
    (forall s, sched_step s (f s)) -> keeps_one_flush (modify f).
Proof. intros f Hf s. cbn. apply Hf. Qed.

Lemma keeps_one_flush_finally :
  forall (A : Type) (m : M A) (h : State -> State),
    keeps_one_flush m -> (forall s, sched_step s (h s)) ->
    keeps_one_flush (finally m h).
Proof.
  intros A m h Hm Hh s. unfold finally. specialize (Hm s).
  destruct (m s) as [a s1|e s1|]; [| |exact Logic.I];
    exact (sched_step_trans Hm (Hh s1)).
Qed.

Lemma keeps_one_flush_computed_get :
  forall (I : Interp),
    (forall p, keeps_one_flush (i_run I p)) ->
    forall c, keeps_one_flush (computed_get I c).
Proof.
  intros I Hrun c. apply keeps_one_flush_local. intros s. unfold computed_get.
  destruct (nth_error (computeds s) c) as [r|].
  2: { exists (ret VUndef). split; [|reflexivity]. intros s0. apply sched_step_refl. }
  eexists. split; [|reflexivity].
  assert (Hsame : forall f : State -> State,
             (forall s0, isFlushPending (f s0) = isFlushPending s0 /\
                         microtasks (f s0) = microtasks s0) ->
             keeps_one_flush (modify f)).
  { intros f Hf. apply keeps_one_flush_modify. intros s0.
    destruct (Hf s0). now apply sched_step_same. }
  assert (Htrack : keeps_one_flush (modify (track (OAddr (c_self r)) k_value))).
  { apply Hsame. intros s0. unfold track. now destruct (activeEffect s0). }
  apply keeps_one_flush_bind.
  - destruct (c_dirty r); [|intros s0; apply sched_step_refl].
    apply keeps_one_flush_bind; [apply Hsame; intros; now split|intros _].
    apply keeps_one_flush_bind; [apply Hsame; intros; now split|intros _].
    apply keeps_one_flush_bind; [apply Hrun|intros v].
    apply keeps_one_flush_bind.
    { apply Hsame. intros s0. unfold set_value.
      now destruct (nth_error (computeds s0) c). }
    intros _. apply keeps_one_flush_bind; [apply Hsame; intros; now split|intros _].
    apply Hsame. intros s0. unfold set_dirty. now destruct (nth_error (computeds s0) c).
  - intros _. apply keeps_one_flush_bind; [exact Htrack|intros _].
    intros s0. apply sched_step_refl.
Qed.

Lemma interp_keeps_one_flush :
  forall (F : file) (n : nat),
    has_scheduler F = true ->
    script_entries (fun A m => keeps_one_flush m) (interp F n).
Proof.
  intros F n HF.
  apply (@interp_script_entries F HF (fun A m => keeps_one_flush m)).
  - exact keeps_one_flush_bind.
  - exact keeps_one_flush_local.
  - exact keeps_one_flush_frame.
  - intros t k. apply keeps_one_flush_modify. intros s. apply sched_step_same;
      unfold track; now destruct (activeEffect s).
  - intros t k. apply keeps_one_flush_modify. apply sched_step_trigger.
  - intros j. apply keeps_one_flush_modify. apply sched_step_queueJob.
  - intros j. apply keeps_one_flush_modify. intros s. now apply sched_step_same.
  - intros j. apply keeps_one_flush_modify. intros s. now apply sched_step_same.
  - intros g s. unfold computed.
    destruct F; cbn; now apply sched_step_same.
  - exact keeps_one_flush_computed_get.
Qed.

Lemma call_keeps_one_flush :
  forall (F : file) (n : nat) (j : job),
    has_scheduler F = true -> keeps_one_flush (i_call (interp F n) j).
Proof.
  intros F n j HF. destruct n as [|n]; [intros s; exact Logic.I|].
  rewrite i_call_S.
  destruct (@interp_keeps_one_flush F n HF) as (_ & _ & _ & Hrun).
  assert (Hsame : forall f : State -> State,
             (forall s0, isFlushPending (f s0) = isFlushPending s0 /\
                         microtasks (f s0) = microtasks s0) ->
             keeps_one_flush (modify f)).
  { intros f Hf. apply keeps_one_flush_modify. intros s0.
    destruct (Hf s0). now apply sched_step_same. }
  destruct j as [e|c]; cbn [call_step].
  - apply keeps_one_flush_local. intros s. unfold wrappedEffect.
    destruct (nth_error (effects s) e) as [r|].
    2: { eexists. split; [|reflexivity]. intros s0. apply sched_step_refl. }
    assert (Hclean : keeps_one_flush (run_cleanup (interp F n) e)).
    { exact (@T_run_cleanup (fun A m => keeps_one_flush m) keeps_one_flush_bind
               keeps_one_flush_local keeps_one_flush_frame _ Hrun e). }
    assert (Hbody : keeps_one_flush (run_body (interp F n) e r)).
    { unfold run_body.
      apply keeps_one_flush_bind; [apply Hsame; intros; now split|intros _].
      apply keeps_one_flush_bind; [apply Hrun|intros v].
      intros s0. apply sched_step_refl. }
    assert (Hsc : keeps_one_flush (modify (set_cleanup e None))).
    { apply Hsame. intros s0. unfold set_cleanup.
      now destruct (nth_error (effects s0) e). }
    destruct F; try discriminate HF;
      (eexists; split; [|reflexivity];
       apply keeps_one_flush_bind; [exact Hclean|intros _];
       apply keeps_one_flush_bind; [apply Hsame; intros; now split|intros _];
       apply keeps_one_flush_bind; [exact Hsc|intros _];
       apply keeps_one_flush_finally; [exact Hbody|];
       intros s0; now apply sched_step_same).
  - apply keeps_one_flush_local. intros s. unfold computedEffect.
    destruct (nth_error (computeds s) c) as [r|].
    2: { eexists. split; [|reflexivity]. intros s0. apply sched_step_refl. }
    eexists. split; [|reflexivity].
    apply keeps_one_flush_bind.
    + apply Hsame. intros s0. unfold set_dirty.
      now destruct (nth_error (computeds s0) c).
    + intros _. unfold do_trigger. destruct F; try discriminate HF;
        apply keeps_one_flush_modify; apply sched_step_trigger.
Qed.

Lemma flush_loop_keeps_one_flush :
  forall (F : file) (n steps i : nat),
    has_scheduler F = true ->
    keeps_one_flush (flush_loop (interp F n) steps i).
Proof.
  intros F n steps i HF. revert i.
  induction steps as [|m IH]; intros i s; [exact Logic.I|].
  cbn [flush_loop]. destruct (nth_error (queue s) i) as [[j|]|].
  - unfold bind. pose proof (@call_keeps_one_flush F n j HF s) as H1.
    destruct (i_call (interp F n) j s) as [[] s1|x s1|]; [|exact H1|exact Logic.I].
    pose proof (IH (S i) s1) as H2.
    destruct (flush_loop (interp F n) m (S i) s1) as [rest s2|x s2|];
      [| |exact Logic.I]; exact (sched_step_trans H1 H2).
  - apply IH.
  - apply sched_step_refl.
Qed.

(** X20: in the scripts with a scheduler at most one call of
    [flushJobs] is ever waiting, and one is waiting only while the flag
    is set: no script or handler schedules a second one.  The pass that
    the waiting call makes schedules none either, whatever its jobs
    write: it ends with nothing waiting (with the flag reset and the
    queue empty when it returns, with the flag still set when a job has
    raised), so that a turn never makes more than one pass. *)
Theorem one_flush_at_a_time :
  forall (F : file) (depth : nat) (s : State),
    has_scheduler F = true ->
    one_flush s ->
    (forall p,
        match run F depth p s with
        | Ok _ s' | Throw _ s' => one_flush s'
        | Timeout => True
        end) /\
    (forall m,
        microtasks s = S m ->
        match flushJobs F depth (set_microtasks m s) with
        | Ok _ s' => microtasks s' = 0 /\ isFlushPending s' = false /\ queue s' = []
        | Throw _ s' => microtasks s' = 0 /\ isFlushPending s' = true
        | Timeout => True
        end) /\
    (forall rounds, checkpoint F depth (S rounds) s = checkpoint F depth 1 s).
Proof.
  intros F depth s HF Hs.
  assert (Hflush : forall m,
             microtasks s = S m ->
             match flushJobs F depth (set_microtasks m s) with
             | Ok _ s' => microtasks s' = 0 /\ isFlushPending s' = false /\ queue s' = []
             | Throw _ s' => microtasks s' = 0 /\ isFlushPending s' = true
             | Timeout => True
             end).
  { intros m Hm. destruct Hs as [H0|[H1 Hflag]]; [congruence|].
    assert (m = 0) by congruence. subst m.
    unfold flushJobs, flush_with, bind.
    pose proof (@flush_loop_keeps_one_flush F depth depth 0 HF (set_microtasks 0 s)) as H.
    destruct (flush_loop (interp F depth) depth 0 (set_microtasks 0 s))
      as [v s1|x s1|]; [| |exact Logic.I].
    - destruct (proj1 H Hflag) as [_ Em]. cbn. now repeat split.
    - destruct (proj1 H Hflag) as [Ef Em]. now split. }
  split; [|split; [exact Hflush|]].
  - intros p. unfold run.
    destruct (@interp_keeps_one_flush F (S depth) HF) as (_ & _ & _ & Hrun).
    specialize (Hrun p s). rewrite i_run_S in Hrun.
    destruct (exec F (interp F depth) p s); [apply Hrun, Hs|apply Hrun, Hs|exact Logic.I].
  - intros rounds. cbn [checkpoint].
    destruct (microtasks s) as [|m] eqn:Em; [reflexivity|].
    specialize (Hflush m eq_refl).
    destruct (flushJobs F depth (set_microtasks m s)) as [v s1|x s1|]; [| |reflexivity].
    + destruct Hflush as (E0 & _). destruct rounds; cbn; now rewrite E0.
    + destruct Hflush as (E0 & _). destruct rounds; cbn; now rewrite E0.
Qed.

(** ** The cache of a computed cell between two flushes *)

Lemma cached_same_cells :
  forall (c : nat) (v : value) (s s' : State),
    computeds s' = computeds s -> cached c v s -> cached c v s'.
Proof. intros c v s s' E. unfold cached. now rewrite E. Qed.

Lemma nth_error_list_update_other :
  forall (A : Type) (l : list A) (i j : nat) (x : A),
    i <> j -> nth_error (list_update i x l) j = nth_error l j.
Proof.
  intros A l. induction l as [|y l IH]; intros [|i] [|j] x H; cbn;
    try reflexivity; try contradiction.
  apply IH. intros ->. now apply H.
Qed.

Lemma computeds_trigger :
  forall (t : objid) (k : key) (s : State), computeds (trigger t k s) = computeds s.
Proof.
  intros t k s. unfold trigger.
  destruct (alist_get objid_eqb t (targetMap s)) as [m|]; [|reflexivity].
  destruct (alist_get key_eqb k m) as [dep|]; [|reflexivity].
  revert s. induction dep as [|d dep IH]; intros s; [reflexivity|].
  cbn. rewrite IH. apply computeds_queueJob.
Qed.

Lemma keeps_cached_bind :
  forall (c : nat) (v : value) (A B : Type) (m : M A) (k : A -> M B),
    keeps_cached c v m -> (forall a, keeps_cached c v (k a)) ->
    keeps_cached c v (bind m k).
Proof.
  intros c v A B m k Hm Hk s Hs. unfold bind. specialize (Hm s Hs).
  destruct (m s) as [a s1|e s1|]; [|exact Hm|exact Logic.I].
  exact (Hk a s1 Hm).
Qed.

Lemma keeps_cached_local :
  forall (c : nat) (v : value) (A : Type) (m : M A),
    (forall s, exists m', keeps_cached c v m' /\ m s = m' s) -> keeps_cached c v m.
Proof.
  intros c v A m H s Hs. destruct (H s) as (m' & Hm' & E). rewrite E. now apply Hm'.
Qed.

Lemma keeps_cached_frame :
  forall (c : nat) (v : value) (A : Type) (m : M A),
    leaves_globals m -> keeps_cached c v m.
Proof.
  intros c v A m H s Hs. specialize (H s).
  destruct (m s) as [a s1|e s1|]; [| |exact Logic.I];
    destruct H as (_ & _ & _ & _ & _ & _ & Ec); exact (@cached_same_cells c v s s1 Ec Hs).
Qed.

Lemma keeps_cached_modify :
  forall (c : nat) (v : value) (f : State -> State),
    (forall s, computeds (f s) = computeds s) -> keeps_cached c v (modify f).
Proof. intros c v f Hf s Hs. cbn. exact (@cached_same_cells c v s _ (Hf s) Hs). Qed.

Lemma cached_set_value :
  forall (c c0 : nat) (v v0 : value) (s : State),
    c <> c0 -> cached c0 v0 s -> cached c0 v0 (set_value c v s).
Proof.
  intros c c0 v v0 s Hne H. unfold set_value.
  destruct (nth_error (computeds s) c) as [r|]; [|exact H].
  destruct H as (r0 & E0 & D0 & V0). exists r0. cbn.
  now rewrite (nth_error_list_update_other _ _ Hne).
Qed.

Lemma cached_set_dirty :
  forall (c c0 : nat) (d : bool) (v0 : value) (s : State),
    c <> c0 -> cached c0 v0 s -> cached c0 v0 (set_dirty c d s).
Proof.
  intros c c0 d v0 s Hne H. unfold set_dirty.
  destruct (nth_error (computeds s) c) as [r|]; [|exact H].
  destruct H as (r0 & E0 & D0 & V0). exists r0. cbn.
  now rewrite (nth_error_list_update_other _ _ Hne).
Qed.

Lemma keeps_cached_computed_get :
  forall (c0 : nat) (v0 : value) (I : Interp),
    (forall p, keeps_cached c0 v0 (i_run I p)) ->
    forall c, keeps_cached c0 v0 (computed_get I c).
Proof.
  intros c0 v0 I Hrun c s Hs. unfold computed_get.
  destruct (nth_error (computeds s) c) as [r|] eqn:Ec; [|exact Hs].
  assert (Htrack : forall s0, cached c0 v0 s0 ->
                     cached c0 v0 (track (OAddr (c_self r)) k_value s0)).
  { intros s0. apply cached_same_cells. apply computeds_track. }
  unfold bind at 1. destruct (c_dirty r) eqn:Ed.
  - assert (Hne : c <> c0).
    { intros ->. destruct Hs as (r0 & E0 & D0 & _). congruence. }
    unfold bind at 1. unfold modify at 1. unfold bind at 1. unfold modify at 1.
    unfold bind at 1.
    set (s2 := record (CGetter c) (pushEffect (ComputedEffect c) s)).
    assert (H2 : cached c0 v0 s2) by exact Hs.
    specialize (Hrun (c_getter r) s2 H2).
    destruct (i_run I (c_getter r) s2) as [v s3|e s3|]; [|exact Hrun|exact Logic.I].
    unfold bind, modify, gets. apply Htrack.
    apply cached_set_dirty; [exact Hne|].
    assert (H4 : cached c0 v0 (set_value c v s3)) by now apply cached_set_value.
    exact H4.
  - unfold ret at 1. unfold bind, modify, gets. now apply Htrack.
Qed.

Lemma interp_keeps_cached :
  forall (F : file) (n c : nat) (v : value),
    has_scheduler F = true ->
    script_entries (fun A m => keeps_cached c v m) (interp F n).
Proof.
  intros F n c v HF.
  apply (@interp_script_entries F HF (fun A m => keeps_cached c v m)).
  - exact (@keeps_cached_bind c v).
  - exact (@keeps_cached_local c v).
  - exact (@keeps_cached_frame c v).
  - intros t k. apply keeps_cached_modify. intros s. apply computeds_track.
  - intros t k. apply keeps_cached_modify. intros s. apply computeds_trigger.
  - intros j. apply keeps_cached_modify. intros s. apply computeds_queueJob.
  - intros j. now apply keeps_cached_modify.
  - intros j. now apply keeps_cached_modify.
  - intros g s (r & E & D & V). unfold computed.
    destruct F; cbn; unfold cached; cbn; try (now exists r).
    all: exists r; split; [|now split];
      rewrite nth_error_app1; [exact E|];
      apply nth_error_Some; congruence.
  - exact (@keeps_cached_computed_get c v).
Qed.

(** X21: a computed cell is invalidated by the flush and by nothing
    else.  While a script or handler runs, whatever it writes, a cell
    that is clean stays clean and keeps its value: a read of it
    afterwards, in the same turn, returns the cached value without a
    call of the getter, also when what the getter read has been
    written in between. *)
Theorem computed_is_stale_until_the_flush :
  forall (F : file) (depth c : nat) (v : value) (p : prog) (s : State),
    has_scheduler F = true ->
    cached c v s ->
    match run F depth p s with
    | Ok _ s' | Throw _ s' =>
        cached c v s' /\
        forall I, exists s'',
          computed_get I c s' = Ok v s'' /\
          calls s'' = calls s' /\ computeds s'' = computeds s'
    | Timeout => True
    end.
Proof.
  intros F depth c v p s HF Hs. unfold run.
  destruct (@interp_keeps_cached F (S depth) c v HF) as (_ & _ & _ & Hrun).
  specialize (Hrun p s Hs). rewrite i_run_S in Hrun.
  assert (Hread : forall s', cached c v s' ->
             forall I, exists s'',
               computed_get I c s' = Ok v s'' /\
               calls s'' = calls s' /\ computeds s'' = computeds s').
  { intros s' (r & E & D & V) I.
    assert (Hd : dirty_of c s' = false) by (unfold dirty_of; now rewrite E).
    destruct (computed_get_clean I c s' Hd) as (s'' & Hg & Hc & Hcs).
    exists s''. split; [|now split].
    rewrite Hg. unfold value_of. now rewrite E, V. }
  destruct (exec F (interp F depth) p s) as [x s'|x s'|]; [| |exact Logic.I];
    (split; [exact Hrun|now apply Hread]).
Qed.

(** ** Every write, or the last one: day-2 and the scheduler *)

Lemma last_cons_default :
  forall (A : Type) (l : list A) (x d : A), last (x :: l) d = last l x.
Proof.
  intros A l. induction l as [|y l IH]; intros x d; [reflexivity|].
  change (last (x :: y :: l) d) with (last (y :: l) d). now rewrite !IH.
Qed.

Lemma day2_one_write :
  forall (n : nat) (cur v : value) (out : list value) (cs : list call),
    i_set (interp Day2 (4 + n)) (VObj 0) k_value v
      (Logging.watched cur [] false 0 out cs)
    = Ok true (Logging.watched v [] false 0 (out ++ [v]) (cs ++ [CBody 0])).
Proof. intros. vm_compute. reflexivity. Qed.

Lemma day2_writes :
  forall (n : nat) (vs : list value) (cur : value) (out : list value) (cs : list call),
    run Day2 (4 + n) (Logging.write_all (VObj 0) vs)
      (Logging.watched cur [] false 0 out cs)
    = Ok VUndef
        (Logging.watched (last vs cur) [] false 0 (out ++ vs)
           (cs ++ repeat (CBody 0) (List.length vs))).
Proof.
  intros n vs. induction vs as [|v vs IH]; intros cur out cs.
  - cbn. now rewrite !app_nil_r.
  - unfold run in *. cbn [Logging.write_all exec]. unfold assign, bind.
    rewrite day2_one_write. unfold ret. rewrite IH. rewrite last_cons_default. cbn [List.length repeat].
    now rewrite <- !app_assoc.
Qed.

Lemma day2_created :
  forall (n : nat) (v0 : value) (cont : value -> prog),
    run Day2 (4 + n)
      (CallRef v0 (fun c => CallEffect (Logging.logger c) (cont c))) initial
    = run Day2 (4 + n) (cont (VObj 0))
        (Logging.watched v0 [] false 0 [v0] [CBody 0]).
Proof.
  intros n v0 cont. unfold run. cbn [exec]. unfold bind.
  set (r := ref _ _ initial). vm_compute in r. subst r. cbv beta iota.
  match goal with
  | |- context [effect ?F ?I ?b ?s] => set (e := effect F I b s)
  end.
  vm_compute in e. subst e. cbv beta iota. reflexivity.
Qed.

(** X22: day-2 has no scheduler: after
    [const c = ref(v0); effect(() => log.push(c.value))], every write
    to the ref runs the effect at once, before the assignment is over,
    whether or not the value is new.  After any writes [v1, ..., vk]
    the log is [v0, v1, ..., vk] and the body has been called [k + 1]
    times. *)
Theorem day2_effect_runs_on_every_write :
  forall (n : nat) (v0 : value) (vs : list value),
    exists s,
      turn Day2 (4 + n) (Logging.day2_script v0 vs) initial = Some s /\
      output s = v0 :: vs /\
      count_calls (CBody 0) s = S (List.length vs).
Proof.
  intros n v0 vs.
  exists (Logging.watched (last vs v0) [] false 0 ([v0] ++ vs)
            ([CBody 0] ++ repeat (CBody 0) (List.length vs))).
  split; [|split].
  - unfold turn, Logging.day2_script.
    rewrite (day2_created n v0 (fun c => Logging.write_all c vs)), day2_writes.
    reflexivity.
  - reflexivity.
  - unfold count_calls. cbn [calls Logging.watched].
    rewrite filter_app, length_app. cbn. f_equal.
    induction (List.length vs) as [|m IHm]; [reflexivity|]. cbn. now rewrite IHm.
Qed.

Lemma part0_first_write :
  forall (n : nat) (cur v : value) (out : list value) (cs : list call),
    i_set (interp Part0 (3 + n)) (VObj 0) k_value v
      (Logging.watched cur [] false 0 out cs)
    = Ok true (Logging.watched v [Some (Wrapped 0)] true 1 out cs).
Proof. intros. vm_compute. reflexivity. Qed.

Lemma part0_next_write :
  forall (n : nat) (cur v : value) (out : list value) (cs : list call),
    i_set (interp Part0 (3 + n)) (VObj 0) k_value v
      (Logging.watched cur [Some (Wrapped 0)] true 1 out cs)
    = Ok true (Logging.watched v [Some (Wrapped 0)] true 1 out cs).
Proof. intros. vm_compute. reflexivity. Qed.

Lemma part0_next_writes :
  forall (n : nat) (vs : list value) (cur : value) (out : list value) (cs : list call),
    run Part0 (3 + n) (Logging.write_all (VObj 0) vs)
      (Logging.watched cur [Some (Wrapped 0)] true 1 out cs)
    = Ok VUndef (Logging.watched (last vs cur) [Some (Wrapped 0)] true 1 out cs).
Proof.
  intros n vs. induction vs as [|v vs IH]; intros cur out cs; [reflexivity|].
  unfold run in *. cbn [Logging.write_all exec]. unfold assign, bind.
  rewrite part0_next_write. unfold ret. rewrite IH. now rewrite last_cons_default.
Qed.

Lemma part0_flush_logs_the_ref :
  forall (n : nat) (cur : value) (out : list value) (cs : list call),
    checkpoint Part0 (3 + n) (3 + n)
      (Logging.watched cur [Some (Wrapped 0)] true 1 out cs)
    = Some (Logging.watched cur [] false 0 (out ++ [cur]) (cs ++ [CBody 0])).
Proof. intros. vm_compute. reflexivity. Qed.

Lemma part0_created :
  forall (n : nat) (v0 : value),
    run Part0 (3 + n) (Scenario.create v0) initial
    = Ok (VObj 0)
        (set_targetMap [] (Logging.watched v0 [Some (Wrapped 0)] true 1 [] [])).
Proof. intros. vm_compute. reflexivity. Qed.

Lemma part0_first_flush :
  forall (n : nat) (v0 : value),
    checkpoint Part0 (3 + n) (3 + n)
      (set_targetMap [] (Logging.watched v0 [Some (Wrapped 0)] true 1 [] []))
    = Some (Logging.watched v0 [] false 0 [v0] [CBody 0]).
Proof. intros. vm_compute. reflexivity. Qed.

(** X23: with the scheduler, writes made in one turn are batched: after
    [const c = ref(v0); watchEffect(() => log.push(c.value))] and its
    flush, a handler that writes [v1, ..., vk] to the ref ([k] at least
    one) makes the effect run once more, in the flush that follows, and
    the effect sees the last value only: the log is [v0, vk] and the
    body has been called twice, however many writes there were. *)
Theorem writes_of_one_turn_run_the_effect_once :
  forall (n : nat) (v0 v : value) (vs : list value),
    exists s,
      then_turn Part0 (3 + n) (Scenario.create v0)
        (fun c => Logging.write_all c (v :: vs)) initial = Some s /\
      output s = [v0; last vs v] /\
      count_calls (CBody 0) s = 2 /\
      queue s = [] /\ isFlushPending s = false.
Proof.
  intros n v0 v vs.
  exists (Logging.watched (last vs v) [] false 0 ([v0] ++ [last vs v])
            ([CBody 0] ++ [CBody 0])).
  split; [|now repeat split].
  unfold then_turn. rewrite part0_created, part0_first_flush.
  unfold turn, run. cbn [Logging.write_all exec].
  unfold assign, bind. rewrite part0_first_write. unfold ret.
  change (exec Part0 (interp Part0 (3 + n)) (Logging.write_all (VObj 0) vs))
    with (run Part0 (3 + n) (Logging.write_all (VObj 0) vs)).
  rewrite part0_next_writes. apply part0_flush_logs_the_ref.
Qed.

(** ** The properties at work *)

Lemma graph_ok_three_effects_settled : graph_ok Reached.three_effects_settled.
Proof.
  apply (@turns_keep_graph_ok Part0 4 [Cascade.three_effects] initial);
    [exact graph_ok_initial|vm_compute; reflexivity].
Qed.

Lemma removeEffect_deletes_from_every_set_witness :
  graph_ok Reached.three_effects_settled /\
  deps_of (OAddr 0) k_value (removeEffect (Wrapped 0) Reached.three_effects_settled)
    = [] /\
  deps_of (OAddr 1) k_value (removeEffect (Wrapped 0) Reached.three_effects_settled)
    = [Wrapped 2].
Proof.
  split; [exact graph_ok_three_effects_settled|].
  destruct (@removeEffect_deletes_from_every_set (Wrapped 0)
              Reached.three_effects_settled graph_ok_three_effects_settled)
    as (Hd & _).
  split; rewrite Hd; reflexivity.
Defined.

Lemma removeEffect_undoes_track_witness :
  let s := set_activeEffect (Some (Wrapped 1)) Reached.three_effects_settled in
  graph_ok s /\
  activeEffect s = Some (Wrapped 1) /\
  ~ subscribed (Wrapped 1) s /\
  deps_of (OAddr 1) k_value
    (fold_left (fun s' r => track (fst r) (snd r) s')
       [(OAddr 0, k_value); (OAddr 1, k_value); (OAddr 0, k_value)] s)
    = [Wrapped 2; Wrapped 1] /\
  removeEffect (Wrapped 1)
    (fold_left (fun s' r => track (fst r) (snd r) s')
       [(OAddr 0, k_value); (OAddr 1, k_value); (OAddr 0, k_value)] s) = s.
Proof.
  intros s.
  assert (H1 : graph_ok s) by exact graph_ok_three_effects_settled.
  assert (H2 : activeEffect s = Some (Wrapped 1)) by reflexivity.
  assert (H3 : ~ subscribed (Wrapped 1) s).
  { intros (t & m & k & dep & Ht & Hk & Hw). vm_compute in Ht.
    destruct Ht as [E|[E|[]]]; injection E as <- <-;
      (destruct Hk as [E|[]]; injection E as <- <-;
       destruct Hw as [E|[]]; discriminate). }
  do 3 (split; [assumption|]). split; [reflexivity|].
  exact (@removeEffect_undoes_track (Wrapped 1)
           [(OAddr 0, k_value); (OAddr 1, k_value); (OAddr 0, k_value)] s H1 H2 H3).
Defined.

Lemma popEffect_undoes_pushEffect_witness :
  consistent (pushEffect (Wrapped 0) initial) /\
  popEffect (pushEffect (ComputedEffect 0) (pushEffect (Wrapped 0) initial))
    = pushEffect (Wrapped 0) initial.
Proof.
  assert (H : consistent (pushEffect (Wrapped 0) initial)) by reflexivity.
  split; [exact H|].
  exact (proj1 (@popEffect_undoes_pushEffect (ComputedEffect 0) _ H)).
Defined.


Lemma delete_triggers_own_keys_only_witness :
  has_reactive Day7 = true /\
  heap_get 0 nested_built = Some (plain_obj [(Nested.street, VStr "main")]) /\
  arr_length (plain_obj [(Nested.street, VStr "main")]) = None /\
  i_delete (interp Day7 2) (VProxy 0 Reactive (VObj 0)) Nested.address nested_built
    = Ok true nested_built /\
  exists s',
    i_delete (interp Day7 2) (VProxy 0 Reactive (VObj 0)) Nested.street nested_built
      = Ok true s' /\
    lacks 0 Nested.street s' = true.
Proof.
  assert (H1 : has_reactive Day7 = true) by reflexivity.
  assert (H2 : heap_get 0 nested_built
               = Some (plain_obj [(Nested.street, VStr "main")])) by reflexivity.
  assert (H3 : arr_length (plain_obj [(Nested.street, VStr "main")]) = None)
    by reflexivity.
  do 3 (split; [assumption|]).
  destruct (@delete_triggers_own_keys_only Day7 0 0 0 Nested.address _ nested_built
              H1 H2 H3) as (_ & _ & Hmissing & _).
  destruct (@delete_triggers_own_keys_only Day7 0 0 0 Nested.street _ nested_built
              H1 H2 H3) as (Hlacks & _ & _ & Hown).
  split.
  - apply Hmissing; [discriminate|reflexivity].
  - destruct Hown as [_ Hs]; [discriminate|discriminate|].
    destruct (Hs eq_refl) as [Hdel _].
    eexists. split; [exact Hdel|]. unfold lacks. rewrite heap_get_trigger. exact Hlacks.
Defined.

Lemma ref_write_always_triggers_witness :
  (Part0 = Part0 \/ Part0 = Day4) /\
  heap_get 0 Reached.three_effects_settled
    = Some (mkObj [(k_value, RefAccessor (VNum 0))] None) /\
  alist_get key_eqb k_value [(k_value, RefAccessor (VNum 0))]
    = Some (RefAccessor (VNum 0)) /\
  deps_of (OAddr 0) k_value Reached.three_effects_settled = [Wrapped 0] /\
  exists s1,
    i_set (interp Part0 1) (VObj 0) k_value (VNum 0) Reached.three_effects_settled
      = Ok true s1 /\
    In (Wrapped 0) (pending (queue s1)) /\
    i_get (interp Part0 1) (VObj 0) k_value s1
      = Ok (VNum 0) (track (OAddr 0) k_value s1).
Proof.
  assert (H1 : Part0 = Part0 \/ Part0 = Day4) by (now left).
  assert (H2 : heap_get 0 Reached.three_effects_settled
               = Some (mkObj [(k_value, RefAccessor (VNum 0))] None)) by reflexivity.
  assert (H3 : alist_get key_eqb k_value [(k_value, RefAccessor (VNum 0))]
               = Some (RefAccessor (VNum 0))) by reflexivity.
  assert (H4 : deps_of (OAddr 0) k_value Reached.three_effects_settled = [Wrapped 0])
    by reflexivity.
  do 4 (split; [assumption|]).
  destruct (@ref_write_always_triggers Part0 0 0 _ (VNum 0) (VNum 0)
              Reached.three_effects_settled H1 H2 H3) as (Hset & Hq & Hget).
  eexists. split; [exact Hset|]. split; [|exact Hget].
  apply Hq. rewrite H4. now left.
Defined.


Lemma store_reads_what_it_wrote_witness :
  let o := mkObj [(RefInObject.count, Data (VProxy 0 Reactive (VObj 0)))] None in
  let ro := mkObj [(k_isRef, Data (VBool true)); (k_value, Data (VNum 0))] None in
  exists s0,
    i_run (interp Day7 3) Reached.store_setup initial = Ok (VObj 1) s0 /\
    1 <> 0 /\
    heap_get 1 s0 = Some o /\
    arr_length o = None /\
    slot_value o RefInObject.count = Some (VProxy 0 Reactive (VObj 0)) /\
    heap_get 0 s0 = Some ro /\
    arr_length ro = None /\
    slot_value ro k_isRef = Some (VBool true) /\
    slot_value ro k_value = Some (VNum 0) /\
    plainly_no_ref (VNum 0) s0 /\
    isObject (VNum 5) = false /\
    createStore Day7 (interp Day7 3) Reached.store_setup initial
      = Ok (VProxy 1 Reactive (VObj 1)) Reached.store_built /\
    exists s2,
      i_set (interp Day7 3) (VProxy 1 Reactive (VObj 1)) RefInObject.count (VNum 5)
        Reached.store_built = Ok true s2 /\
      i_get (interp Day7 3) (VProxy 1 Reactive (VObj 1)) RefInObject.count s2
        = Ok (VNum 5) (track (OAddr 0) k_value (track (OAddr 0) k_isRef s2)).
Proof.
  intros o ro. eexists.
  match goal with
  | |- ?A /\ _ => assert (H0 : A) by (vm_compute; reflexivity)
  end.
  split; [exact H0|].
  match goal with
  | |- _ /\ ?B /\ ?C /\ ?D /\ ?E /\ ?G /\ ?H /\ ?J /\ ?K /\ ?L /\ _ =>
      assert (H2 : B) by reflexivity; assert (H3 : C) by reflexivity;
      assert (H4 : D) by reflexivity; assert (H5 : E) by reflexivity;
      assert (H6 : G) by reflexivity; assert (H7 : H) by reflexivity;
      assert (H8 : J) by reflexivity; assert (H9 : K) by (now left);
      assert (H10 : L) by reflexivity
  end.
  assert (H1 : 1 <> 0) by discriminate.
  do 10 (split; [assumption|]).
  destruct (@store_reads_what_it_wrote 0 1 0 0 RefInObject.count o ro (VNum 0) (VNum 5)
              Reached.store_setup (interp Day7 3) initial _ H0 H1 H2 H3 H4 H5 H6 H7
              H8 H9 H10) as (Hstore & s2 & Hset & Hget & _).
  split; [exact Hstore|]. exists s2. split; [exact Hset|exact Hget].
Defined.

Lemma readonly_reads_track_witness :
  own_data 0 Nested.street nested_built = Some (VStr "main") /\
  i_get (interp Day6 3) (VProxy 1 Readonly (VProxy 0 Reactive (VObj 0)))
      Nested.street (set_activeEffect (Some (Wrapped 0)) nested_built)
    = Ok (VStr "main")
         (track (OProxy 0) Nested.street
            (track (OAddr 0) Nested.street
               (set_activeEffect (Some (Wrapped 0)) nested_built))) /\
  In (Wrapped 0)
    (deps_of (OAddr 0) Nested.street
       (track (OProxy 0) Nested.street
          (track (OAddr 0) Nested.street
             (set_activeEffect (Some (Wrapped 0)) nested_built)))).
Proof.
  assert (H1 : own_data 0 Nested.street nested_built = Some (VStr "main"))
    by reflexivity.
  split; [exact H1|].
  destruct (proj1 (@readonly_reads_track 0 1 0 0 Nested.street (VStr "main")
                     (set_activeEffect (Some (Wrapped 0)) nested_built) H1) eq_refl)
    as (_ & Hget & Hsub).
  split; [exact Hget|]. exact (Hsub (Wrapped 0) eq_refl).
Defined.

Lemma unref_undoes_ref_witness :
  isObject (VNum 7) = false /\
  exists s1,
    ref Day7 (VNum 7) initial = Ok (VProxy 0 Reactive (VObj 0)) s1 /\
    isRef (interp Day7 2) (VProxy 0 Reactive (VObj 0)) s1
      = Ok true (track (OAddr 0) k_isRef s1) /\
    unref Day7 (interp Day7 2) (VProxy 0 Reactive (VObj 0)) s1
      = Ok (VNum 7) (track (OAddr 0) k_value (track (OAddr 0) k_isRef s1)).
Proof.
  assert (H1 : isObject (VNum 7) = false) by reflexivity.
  split; [exact H1|].
  destruct (@unref_undoes_ref 0 (VNum 7) initial H1) as (_ & s1 & Href & _ & His & Hun).
  exists s1. split; [exact Href|]. split; [exact His|exact Hun].
Defined.

Lemma day2_write_drops_the_active_effect_witness :
  let s := Reached.day2_watching in
  let o := mkObj [(Reached.k_x, Data (VNum 1))] None in
  heap_get 0 s = Some o /\
  arr_length o = None /\
  slot_value o Reached.k_x = Some (VNum 1) /\
  isObject (VNum 1) = false /\
  strict_eq (VNum 1) (VNum 2) = false /\
  nth_error (deps_of (OAddr 0) Reached.k_x s) 0 = Some (Wrapped 0) /\
  activeEffect s = Some (Wrapped 1) /\
  exists r s',
    nth_error (effects s) 0 = Some r /\
    i_set (interp Day2 5) (VProxy 0 Reactive (VObj 0)) Reached.k_x (VNum 2) s
      = Ok true s' /\
    output s' = [VNum 1; VNum 2] /\
    activeEffect s' = None.
Proof.
  intros s o.
  assert (H1 : heap_get 0 s = Some o) by reflexivity.
  assert (H2 : arr_length o = None) by reflexivity.
  assert (H3 : slot_value o Reached.k_x = Some (VNum 1)) by reflexivity.
  assert (H4 : isObject (VNum 1) = false) by reflexivity.
  assert (H5 : strict_eq (VNum 1) (VNum 2) = false) by reflexivity.
  assert (H6 : nth_error (deps_of (OAddr 0) Reached.k_x s) 0 = Some (Wrapped 0))
    by reflexivity.
  assert (H7 : activeEffect s = Some (Wrapped 1)) by reflexivity.
  do 7 (split; [assumption|]).
  eexists. eexists.
  match goal with
  | |- ?A /\ ?B /\ _ =>
      assert (H8 : A) by reflexivity;
      assert (H9 : B) by (vm_compute; reflexivity)
  end.
  split; [exact H8|]. split; [exact H9|]. split; [reflexivity|].
  pose proof (@day2_write_drops_the_active_effect 5 0 0 0 Reached.k_x o _ (VNum 1)
                (VNum 2) s H1 H2 H3 H4 H5 H6 H8) as H.
  rewrite H9 in H. exact (proj1 H).
Defined.

Lemma graph_stays_well_formed_witness :
  graph_ok initial /\
  exists s',
    turns Part0 4 [Cascade.three_effects; Cascade.write_a (VObj 0)] initial = Some s' /\
    deps_of (OAddr 1) k_value s' = [Wrapped 2] /\
    graph_ok s'.
Proof.
  split; [exact graph_ok_initial|]. eexists.
  match goal with
  | |- ?A /\ _ => assert (H : A) by (vm_compute; reflexivity)
  end.
  split; [exact H|]. split; [reflexivity|].
  exact (proj2 (@graph_stays_well_formed Part0 4 initial graph_ok_initial) _ _ H).
Defined.

Lemma stop_is_final_witness :
  (Part0 = Part0 \/ Part0 = Day4 \/ Part0 = Day6) /\
  0 < List.length (effects Reached.ran_once) /\
  cleanup_of 0 Reached.ran_once = None /\
  activeEffect Reached.ran_once <> Some (Wrapped 0) /\
  ~ In (Wrapped 0) (effectStack Reached.ran_once) /\
  count_calls (CBody 0) Reached.ran_once = 1 /\
  deps_of (OAddr 0) k_value Reached.ran_once = [Wrapped 0] /\
  exists s1 s2,
    stop Part0 (interp Part0 3) 0 Reached.ran_once = Ok tt s1 /\
    turns Part0 3 [Scenario.write_twice (VNum 1) (VNum 2) (VObj 0)] s1 = Some s2 /\
    count_calls (CBody 0) s2 = 1.
Proof.
  assert (H1 : Part0 = Part0 \/ Part0 = Day4 \/ Part0 = Day6) by (now left).
  assert (H2 : 0 < List.length (effects Reached.ran_once)) by (cbn; lia).
  assert (H3 : cleanup_of 0 Reached.ran_once = None) by reflexivity.
  assert (H4 : activeEffect Reached.ran_once <> Some (Wrapped 0)) by discriminate.
  assert (H5 : ~ In (Wrapped 0) (effectStack Reached.ran_once)) by (intros []).
  do 5 (split; [assumption|]). split; [reflexivity|]. split; [reflexivity|].
  destruct (@stop_is_final Part0 3 0 Reached.ran_once H1 H2 H3 H4 H5)
    as (Hstop & _ & Hlater).
  eexists. eexists. split; [exact Hstop|].
  match goal with
  | |- ?A /\ _ => assert (H : A) by (vm_compute; reflexivity)
  end.
  split; [exact H|]. exact (proj2 (Hlater _ _ H)).
Defined.

Lemma effect_context_is_restored_witness :
  (Day4 = Day4 \/ Day4 = Day6 \/ Day4 = Day7) /\
  consistent (pushEffect (Wrapped 0) Memo.created) /\
  i_get (interp Day4 3) (VObj 1) k_value (pushEffect (Wrapped 0) Memo.created)
    = Ok (VNum 1) Reached.memo_read /\
  count_calls (CGetter 0) Reached.memo_read = 1 /\
  effectStack Reached.memo_read = [Wrapped 0] /\
  activeEffect Reached.memo_read = Some (Wrapped 0).
Proof.
  assert (H1 : Day4 = Day4 \/ Day4 = Day6 \/ Day4 = Day7) by (now left).
  assert (H2 : consistent (pushEffect (Wrapped 0) Memo.created)) by reflexivity.
  assert (H3 : i_get (interp Day4 3) (VObj 1) k_value
                 (pushEffect (Wrapped 0) Memo.created)
               = Ok (VNum 1) Reached.memo_read) by (vm_compute; reflexivity).
  do 3 (split; [assumption|]). split; [reflexivity|].
  destruct (@effect_context_is_restored Day4 3 H1) as (Hget & _).
  pose proof (Hget (VObj 1) k_value _ H2) as H. rewrite H3 in H. exact H.
Defined.

Lemma raising_getter_stays_on_the_stack_witness :
  let o := mkObj [(k_value, ComputedAccessor 0)] None in
  let r := mkComputed (Raise "boom") VUndef true 0 in
  has_scheduler Day4 = true /\
  consistent Reached.raising_cell /\
  heap_get 0 Reached.raising_cell = Some o /\
  alist_get key_eqb k_value (props o) = Some (ComputedAccessor 0) /\
  nth_error (computeds Reached.raising_cell) 0 = Some r /\
  c_dirty r = true /\
  exists s',
    i_get (interp Day4 2) (VObj 0) k_value Reached.raising_cell = Throw "boom" s' /\
    effectStack s' = [ComputedEffect 0] /\
    activeEffect s' <> None.
Proof.
  intros o r.
  assert (H1 : has_scheduler Day4 = true) by reflexivity.
  assert (H2 : consistent Reached.raising_cell) by reflexivity.
  assert (H3 : heap_get 0 Reached.raising_cell = Some o) by reflexivity.
  assert (H4 : alist_get key_eqb k_value (props o) = Some (ComputedAccessor 0))
    by reflexivity.
  assert (H5 : nth_error (computeds Reached.raising_cell) 0 = Some r) by reflexivity.
  assert (H6 : c_dirty r = true) by reflexivity.
  do 6 (split; [assumption|]). eexists.
  match goal with
  | |- ?A /\ _ => assert (H : A) by (vm_compute; reflexivity)
  end.
  split; [exact H|]. split; [reflexivity|].
  exact (proj2 (proj2 (@raising_getter_stays_on_the_stack Day4 1 0 0 o r "boom"
                         Reached.raising_cell _ H1 H2 H3 H4 H5 H6 H))).
Defined.

Lemma one_flush_at_a_time_witness :
  has_scheduler Part0 = true /\
  one_flush Cascade.written /\
  microtasks Cascade.written = 1 /\
  exists visited s',
    flushJobs Part0 4 (set_microtasks 0 Cascade.written) = Ok visited s' /\
    map snd visited = [Wrapped 0; Wrapped 2] /\
    microtasks s' = 0 /\ isFlushPending s' = false /\ queue s' = [].
Proof.
  assert (H1 : has_scheduler Part0 = true) by reflexivity.
  assert (H2 : one_flush Cascade.written) by (right; split; reflexivity).
  assert (H3 : microtasks Cascade.written = 1) by reflexivity.
  do 3 (split; [assumption|]). eexists. eexists.
  match goal with
  | |- ?A /\ _ => assert (H : A) by (vm_compute; reflexivity)
  end.
  split; [exact H|]. split; [reflexivity|].
  pose proof (proj1 (proj2 (@one_flush_at_a_time Part0 4 Cascade.written H1 H2)) 0 H3)
    as Hf.
  rewrite H in Hf. exact Hf.
Defined.

Lemma computed_is_stale_until_the_flush_witness :
  has_scheduler Day4 = true /\
  cached 0 (VNum 1) Reached.memo_read /\
  exists s' s'',
    run Day4 3 (SetP (VObj 0) k_value (VNum 2) (Ret VUndef)) Reached.memo_read
      = Ok VUndef s' /\
    i_get (interp Day4 3) (VObj 0) k_value s' = Ok (VNum 2) (track (OAddr 0) k_value s') /\
    computed_get (interp Day4 3) 0 s' = Ok (VNum 1) s'' /\
    calls s'' = calls s'.
Proof.
  assert (H1 : has_scheduler Day4 = true) by reflexivity.
  assert (H2 : cached 0 (VNum 1) Reached.memo_read).
  { eexists. split; [reflexivity|]. now split. }
  do 2 (split; [assumption|]). eexists.
  pose proof (@computed_is_stale_until_the_flush Day4 3 0 (VNum 1)
                (SetP (VObj 0) k_value (VNum 2) (Ret VUndef)) Reached.memo_read H1 H2)
    as H.
  match type of H with
  | match ?m with _ => _ end =>
      assert (E : m = Ok VUndef
                    ltac:(let x := eval vm_compute in
                            (match m with Ok _ s | Throw _ s => s | Timeout => initial end)
                          in exact x))
        by (vm_compute; reflexivity)
  end.
  rewrite E in H. destruct H as [_ Hread].
  destruct (Hread (interp Day4 3)) as (s'' & Hg & Hc & _).
  exists s''. split; [exact E|]. split; [vm_compute; reflexivity|].
  split; [exact Hg|exact Hc].
Defined.
